(** * Pagos hierarchy visualizer: hierarchy builder, validator, tree filter
      and expansion controller, embedded from [src/App.jsx] and
      [src/HierarchyTree.jsx].

    Conventions of the embedding:
    - a JS string is a [string]; the Unicode- and locale-dependent host
      methods [trim], [toLowerCase] and [localeCompare] form the interface
      [StringRuntime], with an ASCII instance to run examples;
    - a plain object whose key order is observed ([groups],
      [expandedNodes], [levelAliases], [emptyValueCounts]) is the list of
      its own properties in creation order, read through [entries];
      lookups fall through to [Object.prototype];
    - a CSV record, only ever read by column name, is a [gmap];
    - a call that throws returns [Throw], so every function is total;
    - React state is passed explicitly: one run of the expansion effect is
      a function of the values its closure captured, and returns the
      toggles it requests and the snapshot it leaves. *)

From Stdlib Require Import ZArith Ascii String DecimalString Sorted.
From stdpp Require Import base list strings gmap.

(** ** The JavaScript runtime the program relies on *)

Module JS.

(** The string methods of the host ([String.prototype.trim],
    [toLowerCase], [localeCompare]) are Unicode and locale dependent; they
    are not code of this repository and are taken as an interface. *)
Class StringRuntime := {
  trim : string → string;
  toLowerCase : string → string;
  localeCompare : string → string → Z
}.

(** What the array sort requires of a comparator for its result to be
    defined (a consistent comparator is a total preorder). *)
Class ConsistentCompare (R : StringRuntime) : Prop := {
  localeCompare_total a b : (localeCompare a b ≤ 0)%Z ∨ (localeCompare b a ≤ 0)%Z;
  localeCompare_trans a b c :
    (localeCompare a b ≤ 0)%Z → (localeCompare b c ≤ 0)%Z → (localeCompare a c ≤ 0)%Z
}.

(** Exceptions a call can end in. *)
Inductive JSError := TypeError | RangeError.

Inductive Result (A : Type) :=
  | Ok (a : A)
  | Throw (e : JSError).
Global Arguments Ok {A} a.
Global Arguments Throw {A} e.

Global Instance Result_ret : MRet Result := λ A a, Ok a.
Global Instance Result_bind : MBind Result := λ A B f m,
  match m with
  | Ok a => f a
  | Throw e => Throw e
  end.
Global Instance Result_fmap : FMap Result := λ A B f m,
  match m with
  | Ok a => Ok (f a)
  | Throw e => Throw e
  end.

(** [arr.forEach] with a callback that may throw, threading the state the
    callback mutates. *)
Fixpoint forEachM {A S} (f : S → A → Result S) (l : list A) (s : S) : Result S :=
  match l with
  | [] => Ok s
  | x :: l' => s' ← f s x; forEachM f l' s'
  end.

(** Truthiness of a string or of [undefined]: the empty string and
    [undefined] are falsy. *)
Definition truthyString (s : string) : bool :=
  match s with
  | EmptyString => false
  | String _ _ => true
  end.

Definition truthyOpt (o : option string) : bool :=
  match o with
  | Some s => truthyString s
  | None => false
  end.

(** [s.includes(sub)]. *)
Fixpoint includes (s sub : string) : bool :=
  String.prefix sub s ||
  match s with
  | EmptyString => false
  | String _ s' => includes s' sub
  end.

(** A number in a template literal. *)
Definition numberToString (n : nat) : string :=
  NilZero.string_of_uint (Nat.to_uint n).

(** [arr.join(sep)]. *)
Fixpoint join (sep : string) (l : list string) : string :=
  match l with
  | [] => ""
  | [x] => x
  | x :: l' => x +:+ sep +:+ join sep l'
  end.

(** [arr.indexOf(x) !== index]: some earlier element equals [x]. *)
Fixpoint laterOccurrences (seen l : list string) : list string :=
  match l with
  | [] => []
  | x :: l' =>
      (if bool_decide (x ∈ seen) then [x] else []) ++ laterOccurrences (seen ++ [x]) l'
  end.

(** [[...new Set(arr)]]: a [Set] keeps the first insertion of each value. *)
Definition setAdd (s : list string) (x : string) : list string :=
  if bool_decide (x ∈ s) then s else s ++ [x].

Definition setFromArray (l : list string) : list string :=
  fold_left setAdd l [].

(** [arr.sort(cmp)]: the sort is stable; [leb a b] stands for
    [cmp(a, b) <= 0]. *)
Fixpoint insertSorted {A} (leb : A → A → bool) (x : A) (l : list A) : list A :=
  match l with
  | [] => [x]
  | y :: l' => if leb x y then x :: l else y :: insertSorted leb x l'
  end.

Fixpoint stableSort {A} (leb : A → A → bool) (l : list A) : list A :=
  match l with
  | [] => []
  | x :: l' => insertSorted leb x (stableSort leb l')
  end.

(** [arr.filter(p).map(f)], as one pass over the array. *)
Definition filterThenMap {A B} (p : A → bool) (f : A → B) : list A → list B :=
  fix go (l : list A) : list B :=
    match l with
    | [] => []
    | x :: l' => if p x then f x :: go l' else go l'
    end.

(** *** Plain objects

    An object literal [{}] keeps its own properties in creation order and
    inherits from [Object.prototype]. *)
Definition JSObject (V : Type) := list (string * V).

Definition objectPrototypeKeys : list string :=
  ["constructor"; "__defineGetter__"; "__defineSetter__"; "hasOwnProperty";
   "__lookupGetter__"; "__lookupSetter__"; "isPrototypeOf";
   "propertyIsEnumerable"; "toString"; "valueOf"; "__proto__";
   "toLocaleString"].

Definition inherited (k : string) : bool := bool_decide (k ∈ objectPrototypeKeys).

Fixpoint getOwn {V} (o : JSObject V) (k : string) : option V :=
  match o with
  | [] => None
  | (k', v) :: o' => if String.eqb k k' then Some v else getOwn o' k
  end.

(** The value of [o[k]]: an own property, a member of [Object.prototype]
    (a function, or the prototype itself for [__proto__]: truthy, and
    neither a string nor an array), or [undefined]. *)
Inductive Property (V : Type) :=
  | Own (v : V)
  | Inherited
  | Undefined.
Global Arguments Own {V} v.
Global Arguments Inherited {V}.
Global Arguments Undefined {V}.

Definition getProp {V} (o : JSObject V) (k : string) : Property V :=
  match getOwn o k with
  | Some v => Own v
  | None => if inherited k then Inherited else Undefined
  end.

(** [o[k] = v] on an object whose [k] is own or absent; also the effect of
    [{...o, [k]: v}]: an existing key keeps its position, a new key is
    appended. *)
Fixpoint setProp {V} (o : JSObject V) (k : string) (v : V) : JSObject V :=
  match o with
  | [] => [(k, v)]
  | (k', v') :: o' =>
      if String.eqb k k' then (k', v) :: o' else (k', v') :: setProp o' k v
  end.

(** Array indices: canonical decimal strings below 2^32 - 1. *)
Definition digitValue (c : ascii) : option N :=
  let n := N_of_ascii c in
  if ((48 <=? n) && (n <=? 57))%N then Some (n - 48)%N else None.

Fixpoint parseDigits (s : string) (acc : N) : option N :=
  match s with
  | EmptyString => Some acc
  | String c s' =>
      match digitValue c with
      | Some d => parseDigits s' (10 * acc + d)%N
      | None => None
      end
  end.

Definition arrayIndex (s : string) : option N :=
  match s with
  | EmptyString => None
  | String c s' =>
      if (Ascii.eqb c "0" && truthyString s')%bool then None
      else match parseDigits s 0 with
           | Some n => if (n <? 4294967295)%N then Some n else None
           | None => None
           end
  end.

Definition isArrayIndex (s : string) : bool :=
  match arrayIndex s with Some _ => true | None => false end.

Definition indexValue (s : string) : N := default 0%N (arrayIndex s).

(** [Object.entries(o)]: array-index keys in ascending numeric order, then
    the other keys in creation order. *)
Definition entries {V} (o : JSObject V) : list (string * V) :=
  stableSort (λ a b, (indexValue a.1 <=? indexValue b.1)%N)
             (filter (λ kv, isArrayIndex kv.1 = true) o)
  ++ filter (λ kv, isArrayIndex kv.1 ≠ true) o.

Definition keys {V} (o : JSObject V) : list string := (entries o).*1.
Definition values {V} (o : JSObject V) : list V := (entries o).*2.

End JS.

(** ** [src/App.jsx] *)

Module App.
Import JS.

(** A parsed CSV record: column name to cell text. *)
Abbreviation Row := (gmap string string).

(** A built node is a leaf carrying [mids] or a group carrying [children].
    Counts are array lengths and sums of them (exact in a JS number). *)
#[warnings="-register-all"]
Inductive Node :=
  | Leaf (name : string) (mids : list string) (count : nat)
  | Group (name : string) (children : list Node) (count : nat).

Definition name (n : Node) : string :=
  match n with Leaf nm _ _ | Group nm _ _ => nm end.

Definition count (n : Node) : nat :=
  match n with Leaf _ _ c | Group _ _ c => c end.

Record ColumnMappings := {
  levels : list string;
  midColumn : option string;
  levelAliases : JSObject string
}.

Record Validation := {
  errors : list string;
  warnings : list string
}.

(** The sentinel group name, an em dash. *)
Definition emDash : string := "—".

Section WithRuntime.
Context `{RT : StringRuntime}.

(** [row[column]?.trim()]: the trimmed cell, [undefined] for a missing
    column; a column name found only on [Object.prototype] yields a
    function, whose [trim] is not callable. *)
Definition trimmedCell (row : Row) (column : string) : Result (option string) :=
  match row !! column with
  | Some v => Ok (Some (trim v))
  | None => if inherited column then Throw TypeError else Ok None
  end.

(** [levels[0]] as a property key ([undefined] prints as its name). *)
Definition firstLevel (levels : list string) : string :=
  match levels with
  | [] => "undefined"
  | level :: _ => level
  end.

(** [row[levels[0]]?.trim() || '—'] *)
Definition firstLevelValue (level : string) (row : Row) : Result string :=
  v ← trimmedCell row level;
  Ok (if truthyOpt v then default emDash v else emDash).

(** The body of [rows.forEach] that fills [groups]. *)
Definition pushRow (level : string) (groups : JSObject (list Row)) (row : Row)
    : Result (JSObject (list Row)) :=
  key ← firstLevelValue level row;
  match getProp groups key with
  | Own groupRows => Ok (setProp groups key (groupRows ++ [row]))
  | Inherited => Throw TypeError
  | Undefined => Ok (setProp groups key [row])
  end.

Definition groupRowsBy (level : string) (rows : list Row) : Result (JSObject (list Row)) :=
  forEachM (pushRow level) rows [].

(** [[...new Set(groupRows.map(row => row[midColumn]?.trim()).filter(Boolean))]] *)
Definition collectMids (midColumn : string) (groupRows : list Row) : Result (list string) :=
  cells ← mapM (λ row, trimmedCell row midColumn) groupRows;
  Ok (setFromArray (omap id (filter (λ c, truthyOpt c = true) cells))).

(** [childNodes.reduce((sum, child) => sum + (child.count || 0), 0)] *)
Definition totalCount (nodes : list Node) : nat :=
  fold_left (λ sum child, sum + count child) nodes 0.

Definition byName (a b : Node) : bool :=
  (localeCompare (name a) (name b) <=? 0)%Z.

Fixpoint buildHierarchy (rows : list Row) (levels : list string)
    (midColumn : option string) : Result (list Node) :=
  match rows with
  | [] => Ok []
  | _ :: _ =>
      groups ← groupRowsBy (firstLevel levels) rows;
      match levels with
      | [] =>
          (* [levels.length === 1] fails and the recursion never consumes
             a level: the call stack overflows. *)
          Throw RangeError
      | _ :: rest =>
          nodes ← mapM (λ '(groupName, groupRows),
            if length levels =? 1 then
              if truthyOpt midColumn then
                mids ← collectMids (default "" midColumn) groupRows;
                Ok (Leaf groupName mids (length mids))
              else
                Ok (Leaf groupName [groupName] 1)
            else
              childNodes ← buildHierarchy groupRows rest midColumn;
              Ok (Group groupName childNodes (totalCount childNodes)))
            (entries groups);
          Ok (stableSort byName nodes)
      end
  end.

(** The callback of [Object.entries(groups).map] once the first level is
    consumed and [rest] remains. *)
Definition nodeOfGroup (rest : list string) (midColumn : option string)
    (entry : string * list Row) : Result Node :=
  let '(groupName, groupRows) := entry in
  if length rest =? 0 then
    if truthyOpt midColumn then
      mids ← collectMids (default "" midColumn) groupRows;
      Ok (Leaf groupName mids (length mids))
    else
      Ok (Leaf groupName [groupName] 1)
  else
    childNodes ← buildHierarchy groupRows rest midColumn;
    Ok (Group groupName childNodes (totalCount childNodes)).

(** [memoizedHierarchyData]: [null] without rows or levels, otherwise the
    built nodes under the virtual root. *)
Definition memoizedHierarchyData (parsedData : list Row) (m : ColumnMappings)
    : Result (option Node) :=
  if (length parsedData =? 0) || (length (levels m) =? 0) then Ok None
  else
    hierarchyNodes ← buildHierarchy parsedData (levels m) (midColumn m);
    Ok (Some (Group "All Accounts" hierarchyNodes (totalCount hierarchyNodes))).

Definition hasDuplicateSelections (m : ColumnMappings) : bool :=
  let allSelections :=
    filter (λ s, truthyString s = true)
           (filter (λ s, truthyString s = true) (levels m) ++ option_list (midColumn m)) in
  negb (length allSelections =? length (setFromArray allSelections)).

Definition isMidColumnInLevels (m : ColumnMappings) : bool :=
  truthyOpt (midColumn m) && bool_decide (default "" (midColumn m) ∈ levels m).

Definition getDuplicateAliases (m : ColumnMappings) : list string :=
  let aliasValues := filter (λ s, truthyString s = true) (values (levelAliases m)) in
  setFromArray (laterOccurrences [] aliasValues).

(** [parsedData.filter(row => !row[column]?.trim()).length] *)
Definition countEmpty (parsedData : list Row) (column : string) : Result nat :=
  cells ← mapM (λ row, trimmedCell row column) parsedData;
  Ok (length (filter (λ c, truthyOpt c ≠ true) cells)).

(** [emptyValueCounts[column] = n]: an assignment of a number to
    [__proto__] goes to the prototype setter and creates no property. *)
Definition assignCount (o : JSObject nat) (column : string) (n : nat) : JSObject nat :=
  if String.eqb column "__proto__" then o else setProp o column n.

Definition recordEmpty (parsedData : list Row) (o : JSObject nat) (column : string)
    : Result (JSObject nat) :=
  emptyCount ← countEmpty parsedData column;
  Ok (if 0 <? emptyCount then assignCount o column emptyCount else o).

Definition missingWarning (entry : string * nat) : string :=
  numberToString entry.2 +:+ " rows missing " +:+ entry.1 +:+ "; grouped under '—'.".

Definition duplicateAliasWarning (duplicateAliases : list string) : string :=
  "Duplicate alias names may cause confusion in preview: "
    +:+ join ", " duplicateAliases +:+ ".".

Definition validateMapping (parsedData : list Row) (m : ColumnMappings) : Result Validation :=
  let errors1 :=
    if length (levels m) =? 0 then ["Select at least one level."] else [] in
  let errors2 :=
    if hasDuplicateSelections m
    then errors1 ++ ["Duplicate headers across levels or with MID."] else errors1 in
  let duplicateAliases := getDuplicateAliases m in
  let warnings1 :=
    if 0 <? length duplicateAliases
    then [duplicateAliasWarning duplicateAliases]
    else [] in
  if (0 <? length parsedData) && (0 <? length (levels m)) then
    counts1 ← forEachM (recordEmpty parsedData) (levels m) [];
    counts2 ← (if truthyOpt (midColumn m)
               then recordEmpty parsedData counts1 (default "" (midColumn m))
               else Ok counts1);
    Ok {| errors := errors2;
          warnings := warnings1 ++ (missingWarning <$> entries counts2) |}
  else
    Ok {| errors := errors2; warnings := warnings1 |}.

(** [handleGenerateVisualization]: the [error] state it leaves. Without
    rows or levels it returns at once; validation errors are joined into
    the error, and no error clears it. *)
Definition handleGenerateVisualization (parsedData : list Row) (m : ColumnMappings)
    (error : string) : Result string :=
  if (length parsedData =? 0) || (length (levels m) =? 0) then Ok error
  else
    validation ← validateMapping parsedData m;
    if 0 <? length (errors validation) then Ok (join " " (errors validation))
    else Ok "".

End WithRuntime.

(** *** The mapping setters *)

(** The calls of [handleColumnMappingChange]: the mapping type with a
    value of the type of the field it names. Any other mapping type
    leaves the state as it is. *)
Inductive MappingChange :=
  | ChangeLevels (value : list string)
  | ChangeMidColumn (value : string)
  | ChangeOther.

Definition handleColumnMappingChange (change : MappingChange) (prev : ColumnMappings)
    : ColumnMappings :=
  match change with
  | ChangeLevels value =>
      {| levels := value; midColumn := midColumn prev; levelAliases := levelAliases prev |}
  | ChangeMidColumn value =>
      {| levels := levels prev;
         midColumn := if truthyString value then Some value else None;
         levelAliases := levelAliases prev |}
  | ChangeOther => prev
  end.

Definition addLevel (prev : ColumnMappings) : ColumnMappings :=
  {| levels := levels prev ++ [""];
     midColumn := midColumn prev;
     levelAliases := levelAliases prev |}.

(** [prev.levels.filter((_, i) => i !== index)] *)
Definition removeLevel (index : nat) (prev : ColumnMappings) : ColumnMappings :=
  {| levels := (filter (λ entry, entry.1 ≠ index) (imap pair (levels prev))).*2;
     midColumn := midColumn prev;
     levelAliases := levelAliases prev |}.

(** [prev.levels.map((level, i) => i === index ? value : level)] *)
Definition updateLevel (index : nat) (value : string) (prev : ColumnMappings)
    : ColumnMappings :=
  {| levels := imap (λ i level, if i =? index then value else level) (levels prev);
     midColumn := midColumn prev;
     levelAliases := levelAliases prev |}.

Definition updateLevelAlias (levelName alias : string) (prev : ColumnMappings)
    : ColumnMappings :=
  {| levels := levels prev;
     midColumn := midColumn prev;
     levelAliases := setProp (levelAliases prev) levelName alias |}.

(** [autoDetectColumns]: the first column as only level. *)
Definition autoDetectColumns (columns : list string) (data : list Row) : ColumnMappings :=
  {| levels := match columns with [] => [] | column :: _ => [column] end;
     midColumn := None;
     levelAliases := [] |}.

(** The options of the select of level [index]: the columns selected
    neither at another level nor as id column. *)
Definition availableColumns (columns : list string) (m : ColumnMappings) (index : nat)
    : list string :=
  filter (λ col,
    let isSelectedInOtherLevels :=
      existsb (λ entry, negb (entry.1 =? index) && String.eqb entry.2 col)
              (imap pair (levels m)) in
    let isMidColumn := bool_decide (midColumn m = Some col) in
    (negb isSelectedInOtherLevels && negb isMidColumn) = true) columns.

(** The options of the id column select:
    [columns.filter(col => !columnMappings.levels.includes(col))]. *)
Definition midColumnOptions (columns : list string) (m : ColumnMappings) : list string :=
  filter (λ col, col ∉ levels m) columns.

(** The [disabled] attribute of the Generate button. *)
Definition generateDisabled (parsedData : list Row) (m : ColumnMappings) : bool :=
  (length parsedData =? 0) || (length (levels m) =? 0)
  || hasDuplicateSelections m || isMidColumnInLevels m.

(** [memoizedToggleExpanded]: [prev => ({...prev, [nodeKey]: !prev[nodeKey]})] *)
Definition toggleExpanded (prev : JSObject bool) (nodeKey : string) : JSObject bool :=
  setProp prev nodeKey
    (match getProp prev nodeKey with
     | Own b => negb b
     | Inherited => false
     | Undefined => true
     end).

End App.

(** ** [src/HierarchyTree.jsx] *)

Module HierarchyTree.
Import JS App.

(** What one run of the expansion effect does: the [onToggleExpanded]
    calls it makes, in order, and the value it leaves in
    [originalExpandedState]. *)
Record EffectResult := {
  toggles : list string;
  savedState : JSObject bool
}.

(** The component together with the [expandedNodes] state of its parent. *)
Record State := {
  expandedNodes : JSObject bool;
  searchQuery : string;
  originalExpandedState : JSObject bool
}.

(** [!o[k]] *)
Definition falsyProp (o : JSObject bool) (k : string) : bool :=
  match getProp o k with
  | Own b => negb b
  | Inherited => false
  | Undefined => true
  end.

(** What [levelAliases[levelName] || levelName] evaluates to: a text, or
    a member of [Object.prototype] when the name is one of its keys and no
    alias is set for it. *)
Inductive DisplayLabel :=
  | LabelText (text : string)
  | LabelPrototypeMember.

Definition getDisplayLabel (levelAliases : JSObject string) (levelName : string)
    : DisplayLabel :=
  match getProp levelAliases levelName with
  | Own alias => LabelText (if truthyString alias then alias else levelName)
  | Inherited => LabelPrototypeMember
  | Undefined => LabelText levelName
  end.

(** [isExpanded]: the truth value of [expandedNodes[nodeKey] || false]. *)
Definition isExpanded (expandedNodes : JSObject bool) (nodeKey : string) : bool :=
  negb (falsyProp expandedNodes nodeKey).

(** [a[k] !== b[k]] *)
Definition strictNe (a b : Property bool) : bool :=
  match a, b with
  | Own x, Own y => negb (Bool.eqb x y)
  | Inherited, Inherited => false
  | Undefined, Undefined => false
  | _, _ => true
  end.

(** [Object.keys(o).sort()]: the default order compares code units. *)
Definition sortedKeys (o : JSObject bool) : list string :=
  stableSort String.leb (keys o).

Definition isDifferent (current target : JSObject bool) : bool :=
  let currentKeys := sortedKeys current in
  let newKeys := sortedKeys target in
  negb (length currentKeys =? length newKeys)
  || existsb (λ '(index, key), negb (bool_decide (newKeys !! index = Some key)))
             (imap pair currentKeys)
  || existsb (λ key, strictNe (getProp current key) (getProp target key)) currentKeys.

(** The two [forEach] loops that follow the difference test; the toggles
    are computed against the [expandedNodes] of the current render. *)
Definition reconcile (current target : JSObject bool) : list string :=
  filter (λ nodeKey, falsyProp current nodeKey = true) (keys target)
  ++ filter (λ nodeKey, falsyProp target nodeKey = true) (keys current).

(** [path ? `${path}-${index}` : `root-${index}`] *)
Definition childKey (path : string) (index : nat) : string :=
  if truthyString path then path +:+ "-" +:+ numberToString index
  else "root-" +:+ numberToString index.

Section WithRuntime.
Context `{RT : StringRuntime}.

Fixpoint nodeMatchesSearch (node : Node) (query : string) : bool :=
  if negb (truthyString (trim query)) then true
  else
    let lowerQuery := toLowerCase query in
    if includes (toLowerCase (name node)) lowerQuery then true
    else
      match node with
      | Leaf _ mids _ => existsb (λ mid, includes (toLowerCase mid) lowerQuery) mids
      | Group _ children _ => existsb (λ child, nodeMatchesSearch child query) children
      end.

(** The two callbacks of [filterHierarchy]: [keptByFilter] is the argument
    of [nodes.filter], [rebuilt] the argument of [.map]; both call
    [filterHierarchy] on the children. *)
Fixpoint keptByFilter (query : string) (node : Node) {struct node} : bool :=
  if nodeMatchesSearch node query then true
  else
    match node with
    | Group _ children _ =>
        let filteredChildren :=
          if negb (truthyString (trim query)) then children
          else filterThenMap (keptByFilter query) (rebuilt query) children in
        0 <? length filteredChildren
    | Leaf _ _ _ => false
    end
with rebuilt (query : string) (node : Node) {struct node} : Node :=
  match node with
  | Group nm children cnt =>
      Group nm
        (if negb (truthyString (trim query)) then children
         else filterThenMap (keptByFilter query) (rebuilt query) children)
        cnt
  | Leaf _ _ _ => node
  end.

Definition filterHierarchy (nodes : list Node) (query : string) : list Node :=
  if negb (truthyString (trim query)) then nodes
  else filterThenMap (keptByFilter query) (rebuilt query) nodes.

(** [hierarchyData?.children ? filterHierarchy(hierarchyData.children, searchQuery) : []] *)
Definition filteredHierarchy (hierarchyData : option Node) (query : string) : list Node :=
  match hierarchyData with
  | Some (Group _ children _) => filterHierarchy children query
  | _ => []
  end.

(** [expandMatchingNodes]: the keys it sets to [true], in order. *)
Fixpoint expandMatchingNode (query : string) (node : Node) (nodeKey : string) : list string :=
  match node with
  | Group _ children _ =>
      if 0 <? length children then
        (if nodeMatchesSearch node query then [nodeKey] else [])
        ++ (fix forEach (nodes : list Node) (index : nat) : list string :=
              match nodes with
              | [] => []
              | child :: rest =>
                  expandMatchingNode query child (childKey nodeKey index)
                  ++ forEach rest (S index)
              end) children 0
      else []
  | Leaf _ _ _ => []
  end.

Fixpoint expandMatchingNodesFrom (query : string) (nodes : list Node) (path : string)
    (index : nat) : list string :=
  match nodes with
  | [] => []
  | node :: rest =>
      expandMatchingNode query node (childKey path index)
      ++ expandMatchingNodesFrom query rest path (S index)
  end.

Definition expandMatchingNodes (query : string) (nodes : list Node) (path : string)
    : JSObject bool :=
  fold_left (λ newExpandedNodes nodeKey, setProp newExpandedNodes nodeKey true)
            (expandMatchingNodesFrom query nodes path 0) [].

(** The body of the [useEffect] on [searchQuery], [filteredHierarchy] and
    [onToggleExpanded]. *)
Definition expansionEffect (hierarchyData : option Node) (query : string)
    (expanded original : JSObject bool) (onToggleExpanded : bool) : EffectResult :=
  if truthyString (trim query) then
    let saved := if length (keys original) =? 0 then expanded else original in
    let newExpandedNodes :=
      expandMatchingNodes query (filteredHierarchy hierarchyData query) "" in
    {| toggles :=
         if isDifferent expanded newExpandedNodes && onToggleExpanded
         then reconcile expanded newExpandedNodes else [];
       savedState := saved |}
  else
    {| toggles :=
         if (0 <? length (keys original)) && onToggleExpanded
         then if isDifferent expanded original then reconcile expanded original else []
         else [];
       savedState := [] |}.

(** The search box changes the query: the component renders again and the
    effect runs, its toggles being applied by the parent in order. A query
    equal to the current one causes no render. *)
Definition setSearchQuery (hierarchyData : option Node) (query : string) (st : State) : State :=
  if String.eqb query (searchQuery st) then st
  else
    let r := expansionEffect hierarchyData query (expandedNodes st)
                             (originalExpandedState st) true in
    {| expandedNodes := fold_left toggleExpanded (toggles r) (expandedNodes st);
       searchQuery := query;
       originalExpandedState := savedState r |}.

End WithRuntime.

(** A click on the header of a node that has children: [handleToggle]. *)
Definition handleToggle (nodeKey : string) (st : State) : State :=
  {| expandedNodes := toggleExpanded (expandedNodes st) nodeKey;
     searchQuery := searchQuery st;
     originalExpandedState := originalExpandedState st |}.

(** The state after mounting. *)
Definition initialState : State :=
  {| expandedNodes := []; searchQuery := ""; originalExpandedState := [] |}.

(** [TreeNode]: [const nodeKey = path || `root-${node.name}`]. *)
Definition treeNodeKey (node : Node) (path : string) : string :=
  if truthyString path then path else "root-" +:+ name node.

(** The [TreeNode] reached from the one rendered for [node] with the prop
    [path] by descending through the child indices: the node it shows and
    its [nodeKey]. The component of child [index] gets the path
    [`${nodeKey}-${index}`]; it is on screen when its parents are
    expanded. *)
Fixpoint treeNodeBelow (node : Node) (path : string) (indices : list nat)
    : option (Node * string) :=
  let nodeKey := treeNodeKey node path in
  match indices with
  | [] => Some (node, nodeKey)
  | index :: rest =>
      match node with
      | Group _ children _ =>
          match children !! index with
          | Some child =>
              treeNodeBelow child (nodeKey +:+ "-" +:+ numberToString index) rest
          | None => None
          end
      | Leaf _ _ _ => None
      end
  end.

(** The components rendered for the filtered hierarchy: the node at
    [index] gets the path [`root-${index}`]. *)
Definition renderedTreeNode (nodes : list Node) (indices : list nat)
    : option (Node * string) :=
  match indices with
  | [] => None
  | index :: rest =>
      match nodes !! index with
      | Some node => treeNodeBelow node ("root-" +:+ numberToString index) rest
      | None => None
      end
  end.

End HierarchyTree.

(** ** A runtime for ASCII text

    [trim] and [toLowerCase] restricted to ASCII, where they are
    independent of the locale, and a comparison by code units in the
    place of [localeCompare]: it is total and transitive, but it is not
    the collation of a locale (it puts [Banana] before [apple], and the
    sentinel after every letter). It is used to run the program on
    concrete tables whose names are capitalised English words, which
    both orders sort alike; the general theorems take [localeCompare] as
    a parameter. *)

Module AsciiRuntime.
Import JS.

Definition isSpace (c : ascii) : bool :=
  let n := N_of_ascii c in
  ((n =? 32) || ((9 <=? n) && (n <=? 13)))%N.

Fixpoint trimStart (s : string) : string :=
  match s with
  | EmptyString => EmptyString
  | String c s' => if isSpace c then trimStart s' else s
  end.

Fixpoint trimEnd (s : string) : string :=
  match s with
  | EmptyString => EmptyString
  | String c s' =>
      let t := trimEnd s' in
      if isSpace c && negb (truthyString t) then EmptyString else String c t
  end.

Definition lowerChar (c : ascii) : ascii :=
  let n := N_of_ascii c in
  if ((65 <=? n) && (n <=? 90))%N then ascii_of_N (n + 32) else c.

Fixpoint lowerString (s : string) : string :=
  match s with
  | EmptyString => EmptyString
  | String c s' => String (lowerChar c) (lowerString s')
  end.

Definition compareStrings (a b : string) : Z :=
  match String.compare a b with
  | Lt => (-1)%Z
  | Eq => 0%Z
  | Gt => 1%Z
  end.

Definition runtime : StringRuntime :=
  {| trim := λ s, trimEnd (trimStart s);
     toLowerCase := lowerString;
     localeCompare := compareStrings |}.

End AsciiRuntime.

(** ** The tables of the scenarios *)

Module Scenario.
Import JS App HierarchyTree.

Definition record (region tier mid : string) : Row :=
  {[ "Region" := region; "Tier" := tier; "MID" := mid ]}.

Definition rowsA : list Row :=
  [record "East" "Gold" "m1"; record "East" "Gold" "m2"; record "West" "" "m3"].

Definition mappingA : ColumnMappings :=
  {| levels := ["Region"; "Tier"]; midColumn := Some "MID"; levelAliases := [] |}.

Definition rootA : Node :=
  Group "All Accounts"
    [Group "East" [Leaf "Gold" ["m1"; "m2"] 2] 2;
     Group "West" [Leaf "—" ["m3"] 1] 1] 3.

Definition treeA : option Node := Some rootA.

(** Two regions sharing one identifier value. *)
Definition rowsShared : list Row :=
  [record "East" "Gold" "m1"; record "West" "Gold" "m1"].

Definition treeShared : Node :=
  Group "All Accounts"
    [Group "East" [Leaf "Gold" ["m1"] 1] 1;
     Group "West" [Leaf "Gold" ["m1"] 1] 1] 2.

(** A mapping that gives two levels one alias. *)
Definition mappingSameAlias : ColumnMappings :=
  {| levels := ["Region"; "Tier"];
     midColumn := None;
     levelAliases := [("Region", "Area"); ("Tier", "Area")] |}.

(** A mapping record that selects a column twice. *)
Definition mappingTwice : ColumnMappings :=
  {| levels := ["Region"; "Region"]; midColumn := None; levelAliases := [] |}.

(** Rows whose identifier cells are blank in one group. *)
Definition rowsBlank : list Row :=
  [record "East" "Gold" "  "; record "East" "Gold" ""; record "West" "Silver" "m9"].

(** A group whose leaves do not all match a query for "gol". *)
Definition nodesTwoTiers : list Node :=
  [Group "East" [Leaf "Gold" ["m1"; "m2"] 2; Leaf "Silver" ["m3"] 1] 3].

End Scenario.

(** ** Vocabulary of the specification *)

Module Spec.
Import JS App HierarchyTree.

Definition children (n : Node) : list Node :=
  match n with
  | Group _ cs _ => cs
  | Leaf _ _ _ => []
  end.

Definition isGroup (n : Node) : bool :=
  match n with
  | Group _ _ _ => true
  | Leaf _ _ _ => false
  end.

(** A node and all its descendants. *)
Fixpoint subnodes (n : Node) : list Node :=
  n :: match n with
       | Group _ cs _ => cs ≫= subnodes
       | Leaf _ _ _ => []
       end.

(** The identifier values occurring in a subtree, leaf after leaf. *)
Fixpoint subtreeIdentifiers (n : Node) : list string :=
  match n with
  | Leaf _ mids _ => mids
  | Group _ cs _ => cs ≫= subtreeIdentifiers
  end.

(** The number of distinct identifier values in a subtree. *)
Definition distinctIdentifiers (n : Node) : nat :=
  length (remove_dups (subtreeIdentifiers n)).

(** The sum, over the leaves of a subtree, of the number of distinct
    identifier values of the leaf. *)
Fixpoint leafIdentifierCounts (n : Node) : nat :=
  match n with
  | Leaf _ mids _ => length (remove_dups mids)
  | Group _ cs _ => sum_list_with leafIdentifierCounts cs
  end.

(** Every count in a subtree is the sum of the leaves below it. *)
Definition countsLeaves (n : Node) : Prop :=
  ∀ d, d ∈ subnodes n → count d = leafIdentifierCounts d.

(** A non-empty array, or nothing. *)
Definition nonEmpty {A} (l : list A) : option (list A) :=
  match l with
  | [] => None
  | _ :: _ => Some l
  end.

(** [LeafAt nodes path leaf]: following the group names of [path] down
    from the siblings [nodes] ends at the leaf [leaf]. *)
Inductive LeafAt : list Node → list string → Node → Prop :=
  | leafAt_last nodes nm mids c :
      Leaf nm mids c ∈ nodes → LeafAt nodes [nm] (Leaf nm mids c)
  | leafAt_below nodes nm cs c path leaf :
      Group nm cs c ∈ nodes → LeafAt cs path leaf → LeafAt nodes (nm :: path) leaf.

(** The distinct values of a list, in order of first occurrence. *)
Fixpoint firstSeen (l : list string) : list string :=
  match l with
  | [] => []
  | x :: l' => x :: filter (λ y, y ≠ x) (firstSeen l')
  end.

Section WithRuntime.
Context `{RT : StringRuntime}.

(** The key a row is grouped under at a level: its trimmed cell, or the
    sentinel when the cell is missing or blank. *)
Definition groupKey (level : string) (row : Row) : string :=
  match row !! level with
  | Some v => if truthyString (trim v) then trim v else emDash
  | None => emDash
  end.

(** The rows of the group [key]. *)
Definition groupOf (level : string) (rows : list Row) (key : string) : list Row :=
  filter (λ row, groupKey level row = key) rows.

(** The trimmed non-empty values of a column across rows. *)
Definition idValues (column : string) (rows : list Row) : list string :=
  filter (λ v, truthyString v = true) (omap (λ row : Row, trim <$> row !! column) rows).

(** The identifiers of the leaf of group [key] at the last level: the
    distinct trimmed non-empty values of the id column across the rows of
    the group, first seen first, or the key alone without an id column. *)
Definition leafIdentifiers (level : string) (rows : list Row) (mid : option string)
    (key : string) : list string :=
  match mid with
  | Some column =>
      if truthyString column then firstSeen (idValues column (groupOf level rows key))
      else [key]
  | None => [key]
  end.

Definition leafFor (level : string) (rows : list Row) (mid : option string)
    (key : string) : Node :=
  Leaf key (leafIdentifiers level rows mid key)
       (length (leafIdentifiers level rows mid key)).

(** The rows that have the keys of [row] at all of [levels]: the group
    [row] falls in once these levels are consumed. *)
Definition sameKeys (levels : list string) (rows : list Row) (row : Row) : list Row :=
  filter (λ r, Forall (λ level, groupKey level r = groupKey level row) levels) rows.

(** The group names from the top of the tree down to the leaf of [row]. *)
Definition keyPath (levels : list string) (row : Row) : list string :=
  (λ level, groupKey level row) <$> levels.

(** The last-level groups of a table: the key paths that occur, each
    once, and the rows of a key path. *)
Definition keyPaths (levels : list string) (rows : list Row) : list (list string) :=
  remove_dups (keyPath levels <$> rows).

Definition rowsAt (levels : list string) (rows : list Row) (path : list string)
    : list Row :=
  filter (λ row, keyPath levels row = path) rows.

(** What a last-level group adds to the counts: the number of distinct
    trimmed non-empty values of the id column across its rows, or 1
    without an id column. *)
Definition identifierCount (mid : option string) (group : list Row) : nat :=
  match mid with
  | Some column =>
      if truthyString column then length (remove_dups (idValues column group))
      else 1
  | None => 1
  end.

(** The sum of [identifierCount] over the last-level groups of a table. *)
Definition tableCount (levels : list string) (mid : option string) (rows : list Row)
    : nat :=
  sum_list_with (λ path, identifierCount mid (rowsAt levels rows path))
                (keyPaths levels rows).

(** Inputs on which no property lookup of the builder lands on
    [Object.prototype]: every selected column missing from a row is not
    the name of a prototype member, and neither is any group key. *)
Definition buildable (rows : list Row) (levels : list string) (mid : option string) : Prop :=
  levels ≠ [] ∧
  ∀ row, row ∈ rows →
    (∀ column, column ∈ levels ++ option_list mid →
               row !! column = None → inherited column = false)
    ∧ (∀ level, level ∈ levels → inherited (groupKey level row) = false).

(** The number of rows with a blank or missing cell in a column, and the
    columns the missing-value scan visits. *)
Definition blankRows (column : string) (rows : list Row) : nat :=
  length (filter (λ row : Row, truthyOpt (trim <$> row !! column) = false) rows).

Definition scannedColumns (m : ColumnMappings) : list string :=
  levels m ++ (if truthyOpt (midColumn m) then [default "" (midColumn m)] else []).

(** What the scan leaves in [emptyValueCounts] under a key. *)
Definition scanned (rows : list Row) (columns : list string) (k : string) : option nat :=
  if decide (k ∈ columns ∧ k ≠ "__proto__" ∧ 0 < blankRows k rows)
  then Some (blankRows k rows) else None.

(** A blank or missing cell. *)
Definition blankCell (column : string) (row : Row) : Prop :=
  truthyOpt (trim <$> row !! column) = false.

(** The order of sibling names. *)
Definition nameLe (a b : Node) : Prop :=
  (localeCompare (name a) (name b) ≤ 0)%Z.

(** Sorted siblings, at one level and in every subtree below it. *)
Definition sortedBelow (n : Node) : Prop :=
  ∀ d, d ∈ subnodes n → StronglySorted nameLe (children d).

Definition sortedLevel (nodes : list Node) : Prop :=
  StronglySorted nameLe nodes ∧ Forall sortedBelow nodes.

(** The matching predicate, in the words of the specification: every
    node matches a blank query; otherwise a node matches by a
    case-insensitive substring match of the query against its own name,
    against an identifier of a leaf, or, for a group, by a match of a
    child (and so of any descendant). A text contains a query when the
    lower-cased query occurs in the lower-cased text, between some
    characters before it and some after it. *)
Definition contains (text query : string) : Prop :=
  ∃ before after, toLowerCase text = before +:+ toLowerCase query +:+ after.

Inductive Matches (query : string) : Node → Prop :=
  | matches_blank n :
      trim query = "" → Matches query n
  | matches_name n :
      contains (name n) query → Matches query n
  | matches_identifier nm mids c mid :
      mid ∈ mids → contains mid query → Matches query (Leaf nm mids c)
  | matches_descendant nm cs c child :
      child ∈ cs → Matches query child → Matches query (Group nm cs c).

End WithRuntime.

(** A tree whose leaves all sit [depth] levels down and whose groups all
    have a child. *)
#[warnings="-register-all"]
Inductive Uniform : nat → Node → Prop :=
  | uniform_leaf nm mids c : Uniform 1 (Leaf nm mids c)
  | uniform_group depth nm cs c :
      cs ≠ [] → Forall (Uniform (S depth)) cs → Uniform (S (S depth)) (Group nm cs c).

(** Number of occurrences of a value in an array. *)
Definition occurrences (x : string) (l : list string) : nat :=
  length (filter (λ y, y = x) l).

(** The selections the duplicate-selection rule looks at, and the aliases
    the duplicate-alias rule looks at. *)
Definition selections (m : ColumnMappings) : list string :=
  filter (λ s, s ≠ "") (levels m ++ option_list (midColumn m)).

Definition aliases (m : ColumnMappings) : list string :=
  filter (λ s, s ≠ "") (values (levelAliases m)).

(** The node reached from a list of nodes by a list of child indices. *)
Fixpoint nodeAt (nodes : list Node) (indices : list nat) : option Node :=
  match indices with
  | [] => None
  | index :: rest =>
      match nodes !! index with
      | Some node =>
          match rest with
          | [] => Some node
          | _ :: _ => nodeAt (children node) rest
          end
      | None => None
      end
  end.

End Spec.

(** * Properties *)

Import JS App HierarchyTree Spec.
#[local] Set Warnings "-clear-no-such-hyp".

(** ** The runtime *)

Lemma bind_Ok {A B} (m : Result A) (f : A → Result B) (b : B) :
  m ≫= f = Ok b ↔ ∃ a, m = Ok a ∧ f a = Ok b.
Proof.
  destruct m as [a|e]; simpl; split.
  - intros H. by exists a.
  - by intros (a' & [= <-] & H).
  - discriminate.
  - by intros (a' & [=] & _).
Qed.

Section ResultFacts.
Context {A B : Type}.

Lemma mapM_Ok (f : A → Result B) (l : list A) (r : list B) :
  mapM f l = Ok r ↔ Forall2 (λ x y, f x = Ok y) l r.
Proof.
  revert r. induction l as [|x l IH]; intros r.
  - split; [intros [= <-]; constructor | by inversion 1].
  - change (mapM f (x :: l)) with (f x ≫= λ y, mapM f l ≫= λ k, Ok (y :: k)).
    rewrite bind_Ok. split.
    + intros (y & Hy & H). apply bind_Ok in H as (k & Hk & [= <-]).
      constructor; [done | by apply IH].
    + inversion 1 as [|? y ? k Hy Hk]; subst.
      exists y. split; [done|]. apply bind_Ok. exists k. split; [by apply IH | done].
Qed.

Lemma forEachM_snoc {S} (f : S → A → Result S) (l : list A) (x : A) (s : S) :
  forEachM f (l ++ [x]) s = forEachM f l s ≫= λ s', f s' x.
Proof.
  revert s. induction l as [|y l IH]; intros s; simpl.
  - by destruct (f s x).
  - destruct (f s y); simpl; [apply IH | done].
Qed.

End ResultFacts.

Section SortFacts.
Context {A : Type} (leb : A → A → bool).

Lemma insertSorted_Permutation (x : A) (l : list A) : insertSorted leb x l ≡ₚ x :: l.
Proof.
  induction l as [|y l IH]; simpl; [done|].
  destruct (leb x y); [done|]. rewrite IH. apply Permutation_swap.
Qed.

Lemma stableSort_Permutation (l : list A) : stableSort leb l ≡ₚ l.
Proof.
  induction l as [|x l IH]; simpl; [done|].
  by rewrite insertSorted_Permutation, IH.
Qed.

Lemma elem_of_stableSort (x : A) (l : list A) : x ∈ stableSort leb l ↔ x ∈ l.
Proof. by rewrite stableSort_Permutation. Qed.

Context (R : relation A).
Hypothesis leb_spec : ∀ a b, leb a b = true ↔ R a b.
Hypothesis R_total : ∀ a b, R a b ∨ R b a.

Lemma insertSorted_HdRel (z x : A) (l : list A) :
  R z x → HdRel R z l → HdRel R z (insertSorted leb x l).
Proof.
  intros Hzx Hl. destruct l as [|y l]; simpl; [by constructor|].
  destruct (leb x y); constructor; [done|]. by inversion Hl.
Qed.

Lemma insertSorted_Sorted (x : A) (l : list A) :
  Sorted R l → Sorted R (insertSorted leb x l).
Proof.
  induction 1 as [|y l Hl IH Hhd]; simpl; [by repeat constructor|].
  destruct (leb x y) eqn:Hxy.
  - constructor; [by constructor|]. constructor. by apply leb_spec.
  - constructor; [done|]. apply insertSorted_HdRel; [|done].
    destruct (R_total x y) as [H|H]; [|done].
    apply leb_spec in H. congruence.
Qed.

Lemma stableSort_Sorted (l : list A) : Sorted R (stableSort leb l).
Proof.
  induction l as [|x l IH]; simpl; [constructor|]. by apply insertSorted_Sorted.
Qed.

Lemma stableSort_StronglySorted `{!Transitive R} (l : list A) :
  StronglySorted R (stableSort leb l).
Proof. apply Sorted_StronglySorted; [done | apply stableSort_Sorted]. Qed.

End SortFacts.

Section ArrayFacts.

Lemma filterThenMap_eq {A B} (p : A → bool) (f : A → B) (l : list A) :
  filterThenMap p f l = f <$> filter (λ x, p x = true) l.
Proof.
  induction l as [|x l IH]; simpl; [done|].
  rewrite filter_cons. destruct (p x) eqn:Hp.
  - rewrite decide_True by done. simpl. by f_equal.
  - rewrite decide_False by congruence. done.
Qed.

Lemma filter_all {A} (P : A → Prop) `{!∀ x, Decision (P x)} (l : list A) :
  (∀ x, x ∈ l → P x) → filter P l = l.
Proof.
  induction l as [|x l IH]; intros Hall; [done|].
  rewrite filter_cons_True by (apply Hall; left). f_equal. apply IH.
  intros y Hy. apply Hall. by right.
Qed.

Lemma filter_length_all {A} (P : A → Prop) `{!∀ x, Decision (P x)} (l : list A) :
  length (filter P l) = length l → filter P l = l.
Proof.
  induction l as [|x l IH]; [done|]. rewrite filter_cons.
  pose proof (length_filter P l). case_decide; simpl; intros Hlen.
  - f_equal. apply IH. lia.
  - lia.
Qed.

Lemma firstSeen_filter_notin (acc : list string) (x : string) (l : list string) :
  x ∈ acc →
  filter (λ y, y ∉ acc) (filter (λ y, y ≠ x) l) = filter (λ y, y ∉ acc) l.
Proof.
  intros Hx. induction l as [|y l IH]; [done|].
  rewrite !filter_cons. destruct (decide (y ≠ x)) as [Hne|Heq].
  - rewrite filter_cons. destruct (decide (y ∉ acc)); by rewrite IH.
  - apply dec_stable in Heq as ->. by rewrite decide_False by (intros H; by apply H).
Qed.

Lemma setFromArray_acc (acc l : list string) :
  fold_left setAdd l acc = acc ++ filter (λ y, y ∉ acc) (firstSeen l).
Proof.
  revert acc. induction l as [|x l IH]; intros acc; simpl.
  - by rewrite filter_nil, app_nil_r.
  - rewrite IH. unfold setAdd. rewrite filter_cons. case_bool_decide as Hx.
    + rewrite decide_False by (intros H; by apply H).
      by rewrite firstSeen_filter_notin.
    + rewrite decide_True by done. rewrite <- app_assoc. simpl. do 2 f_equal.
      rewrite list_filter_filter. apply list_filter_iff.
      intros y. rewrite not_elem_of_app, not_elem_of_cons. set_solver.
Qed.

(** [[...new Set(arr)]] lists the distinct values in first-seen order. *)
Lemma setFromArray_firstSeen (l : list string) : setFromArray l = firstSeen l.
Proof.
  unfold setFromArray. rewrite setFromArray_acc. simpl.
  apply filter_all. intros y _. set_solver.
Qed.

Lemma elem_of_firstSeen (x : string) (l : list string) : x ∈ firstSeen l ↔ x ∈ l.
Proof.
  induction l as [|y l IH]; simpl; [done|].
  rewrite !elem_of_cons, list_elem_of_filter, IH.
  destruct (decide (x = y)); naive_solver.
Qed.

Lemma NoDup_firstSeen (l : list string) : NoDup (firstSeen l).
Proof.
  induction l as [|y l IH]; simpl; constructor.
  - rewrite list_elem_of_filter. naive_solver.
  - by apply NoDup_filter.
Qed.

Lemma firstSeen_NoDup_id (l : list string) : NoDup l → firstSeen l = l.
Proof.
  induction 1 as [|x l Hx Hl IH]; simpl; [done|]. rewrite IH. f_equal.
  apply filter_all. intros y Hy ->. done.
Qed.

Lemma firstSeen_length_NoDup (l : list string) :
  length (firstSeen l) = length l ↔ NoDup l.
Proof.
  split; [|by intros ->%firstSeen_NoDup_id].
  induction l as [|x l IH]; simpl; [constructor|].
  intros [= Hlen].
  pose proof (length_filter (λ y, y ≠ x) (firstSeen l)) as H1.
  assert (length (firstSeen l) ≤ length l) as H2.
  { clear. induction l as [|z l IH]; simpl; [done|].
    pose proof (length_filter (λ y, y ≠ z) (firstSeen l)). lia. }
  assert (length (firstSeen l) = length l) as Hl by lia.
  constructor; [|by apply IH].
  intros Hx. apply elem_of_firstSeen in Hx.
  assert (filter (λ y, y ≠ x) (firstSeen l) = firstSeen l) as Hf.
  { apply filter_length_all. lia. }
  rewrite <- Hf in Hx. apply list_elem_of_filter in Hx. naive_solver.
Qed.

End ArrayFacts.

Section ObjectFacts.
Context {V : Type}.
Implicit Types (o : JSObject V) (k : string) (v : V).

Lemma getOwn_setProp o k v k' :
  getOwn (setProp o k v) k' = if decide (k' = k) then Some v else getOwn o k'.
Proof.
  induction o as [|[k0 v0] o IH]; simpl.
  - destruct (String.eqb_spec k' k); by case_decide.
  - destruct (String.eqb_spec k k0) as [->|Hne]; simpl.
    + destruct (String.eqb_spec k' k0); by case_decide.
    + rewrite IH. destruct (String.eqb_spec k' k0) as [->|]; [|done].
      by rewrite decide_False by done.
Qed.

Lemma getOwn_Some_elem_of o k v : getOwn o k = Some v → (k, v) ∈ o.
Proof.
  induction o as [|[k0 v0] o IH]; simpl; [done|].
  destruct (String.eqb_spec k k0) as [->|]; [intros [= ->]; left | right; auto].
Qed.

Lemma elem_of_getOwn o k v : NoDup o.*1 → (k, v) ∈ o → getOwn o k = Some v.
Proof.
  induction o as [|[k0 v0] o IH]; simpl; [by intros _ ?%elem_of_nil|].
  intros [Hk0 Hnd]%NoDup_cons [[= -> ->]|Hin]%elem_of_cons.
  - by rewrite String.eqb_refl.
  - destruct (String.eqb_spec k k0) as [->|]; [|auto].
    destruct Hk0. apply list_elem_of_fmap. by exists (k0, v).
Qed.

Lemma setProp_keys o k v :
  (setProp o k v).*1 = if decide (k ∈ o.*1) then o.*1 else o.*1 ++ [k].
Proof.
  induction o as [|[k0 v0] o IH]; csimpl.
  - done.
  - destruct (String.eqb_spec k k0) as [->|Hne]; csimpl.
    + clear IH. case_decide as Hk; [done|]. set_solver.
    + rewrite IH. clear IH. repeat case_decide; try done.
      * exfalso. rewrite elem_of_cons in *. naive_solver.
      * exfalso. rewrite elem_of_cons in *. naive_solver.
Qed.

Lemma setProp_NoDup o k v : NoDup o.*1 → NoDup (setProp o k v).*1.
Proof.
  intros Hnd. rewrite setProp_keys. case_decide; [done|].
  apply NoDup_app. split_and!; [done| |apply NoDup_singleton].
  intros x Hx ->%list_elem_of_singleton. done.
Qed.

Lemma entries_Permutation o : entries o ≡ₚ o.
Proof.
  unfold entries. rewrite stableSort_Permutation.
  apply (filter_app_complement (λ kv : string * V, isArrayIndex kv.1 = true)).
Qed.

Lemma elem_of_entries o kv : kv ∈ entries o ↔ kv ∈ o.
Proof. by rewrite entries_Permutation. Qed.

End ObjectFacts.

(** ** Grouping *)

Section GroupingFacts.
Context `{RT : StringRuntime}.

Lemma trimmedCell_Ok (row : Row) (column : string) (c : option string) :
  trimmedCell row column = Ok c → c = trim <$> row !! column.
Proof.
  unfold trimmedCell. destruct (row !! column); simpl; [by intros [= <-]|].
  destruct (inherited column); [done | by intros [= <-]].
Qed.

Lemma firstLevelValue_Ok (level : string) (row : Row) (key : string) :
  firstLevelValue level row = Ok key → key = groupKey level row.
Proof.
  unfold firstLevelValue. intros (c & Hc & [= <-])%bind_Ok.
  apply trimmedCell_Ok in Hc as ->. unfold groupKey.
  destruct (row !! level) as [v|]; simpl; [|done].
  by destruct (truthyString (trim v)).
Qed.

Lemma groupOf_snoc (level : string) (rows : list Row) (row : Row) (key : string) :
  groupOf level (rows ++ [row]) key =
  groupOf level rows key ++ (if decide (groupKey level row = key) then [row] else []).
Proof. unfold groupOf. by rewrite filter_app. Qed.

(** After the [forEach], [groups] holds under each key the rows of that
    key, in upload order, and no key is empty. *)
Lemma groupRowsBy_spec (level : string) (rows : list Row) (groups : JSObject (list Row)) :
  groupRowsBy level rows = Ok groups →
  NoDup groups.*1 ∧ ∀ key, getOwn groups key = nonEmpty (groupOf level rows key).
Proof.
  unfold groupRowsBy. revert groups.
  induction rows as [|row rows IH] using rev_ind; intros groups.
  - intros [= <-]. split; [constructor | done].
  - rewrite forEachM_snoc. intros (groups0 & H0 & Hpush)%bind_Ok.
    destruct (IH _ H0) as [Hnd Hget]. clear IH H0.
    unfold pushRow in Hpush. apply bind_Ok in Hpush as (key0 & Hkey & Hpush).
    apply firstLevelValue_Ok in Hkey.
    assert (∃ rs, groups = setProp groups0 key0 (rs ++ [row]) ∧
                  rs = groupOf level rows key0) as (rs & -> & Hrs).
    { unfold getProp in Hpush. rewrite Hget in Hpush.
      destruct (groupOf level rows key0) as [|r0 rs0] eqn:Hg; simpl in Hpush.
      - destruct (inherited key0); [done|]. injection Hpush as <-. by exists [].
      - injection Hpush as <-. by exists (r0 :: rs0). }
    split; [by apply setProp_NoDup|]. intros key.
    rewrite getOwn_setProp, groupOf_snoc, <- Hkey. case_decide as Hk.
    + subst key. rewrite decide_True by done. subst rs.
      by destruct (groupOf level rows key0).
    + rewrite decide_False by done. by rewrite app_nil_r.
Qed.

Lemma groupRowsBy_all_keyed (level : string) (rows : list Row) (groups : JSObject (list Row)) :
  groupRowsBy level rows = Ok groups →
  ∀ key groupRows, (key, groupRows) ∈ entries groups ↔
    groupRows = groupOf level rows key ∧ ∃ row, row ∈ rows ∧ groupKey level row = key.
Proof.
  intros [Hnd Hget]%groupRowsBy_spec key groupRows.
  rewrite elem_of_entries. split.
  - intros Hin%(elem_of_getOwn _ _ _ Hnd). rewrite Hget in Hin.
    destruct (groupOf level rows key) as [|r rs] eqn:Hg; [done|].
    injection Hin as <-. split; [done|]. exists r.
    assert (r ∈ groupOf level rows key) as Hr by (rewrite Hg; left).
    unfold groupOf in Hr. apply list_elem_of_filter in Hr. naive_solver.
  - intros [-> (row & Hrow & Hkey)]. apply getOwn_Some_elem_of. rewrite Hget.
    assert (row ∈ groupOf level rows key) as Hr.
    { unfold groupOf. apply list_elem_of_filter. done. }
    by destruct (groupOf level rows key); [apply elem_of_nil in Hr|].
Qed.

End GroupingFacts.

(** ** The hierarchy builder *)

Section BuilderFacts.
Context `{RT : StringRuntime}.

Lemma buildHierarchy_cons (row : Row) (rows : list Row) (level : string)
    (rest : list string) (mid : option string) :
  buildHierarchy (row :: rows) (level :: rest) mid =
  groupRowsBy level (row :: rows) ≫= λ groups,
    mapM (nodeOfGroup rest mid) (entries groups) ≫= λ nodes,
      Ok (stableSort byName nodes).
Proof. reflexivity. Qed.

Lemma buildHierarchy_no_levels (row : Row) (rows : list Row) (mid : option string)
    (nodes : list Node) :
  buildHierarchy (row :: rows) [] mid ≠ Ok nodes.
Proof.
  change (buildHierarchy (row :: rows) [] mid)
    with (groupRowsBy "undefined" (row :: rows) ≫= λ _, @Throw (list Node) RangeError).
  by destruct (groupRowsBy "undefined" (row :: rows)).
Qed.

Lemma totalCount_sum (nodes : list Node) : totalCount nodes = sum_list_with count nodes.
Proof.
  unfold totalCount.
  assert (∀ acc, fold_left (λ sum child, sum + count child) nodes acc
                 = acc + sum_list_with count nodes) as H; [|by rewrite H].
  induction nodes as [|n nodes IH]; intros acc; simpl; [lia|]. rewrite IH. lia.
Qed.

Lemma collectMids_Ok (mid : string) (groupRows : list Row) (mids : list string) :
  collectMids mid groupRows = Ok mids → mids = firstSeen (idValues mid groupRows).
Proof.
  unfold collectMids. intros (cells & Hcells & [= <-])%bind_Ok.
  rewrite setFromArray_firstSeen. f_equal. unfold idValues.
  apply mapM_Ok in Hcells.
  induction Hcells as [|row c rows cells Hc _ IH]; [done|].
  apply trimmedCell_Ok in Hc as ->. rewrite filter_cons. csimpl.
  destruct (row !! mid) as [v|]; csimpl.
  - rewrite filter_cons. case_decide; csimpl; by f_equal.
  - done.
Qed.

(** Induction over the levels the builder consumes: [P] of every level of
    siblings follows from [Q] of the nodes sorted into it, every leaf
    carries a duplicate-free array and its length, and every group the sum
    of its children's counts. *)
Lemma buildHierarchy_ind (P : list Node → Prop) (Q : Node → Prop) :
  P [] →
  (∀ raw, Forall Q raw → P (stableSort byName raw)) →
  (∀ g mids, NoDup mids → Q (Leaf g mids (length mids))) →
  (∀ g childNodes, P childNodes → Q (Group g childNodes (totalCount childNodes))) →
  ∀ levels rows mid nodes, buildHierarchy rows levels mid = Ok nodes → P nodes.
Proof.
  intros Hnil Hsort Hleaf Hgroup levels.
  induction levels as [|level rest IH]; intros [|row rows] mid nodes Hb.
  - by injection Hb as <-.
  - by apply buildHierarchy_no_levels in Hb.
  - by injection Hb as <-.
  - rewrite buildHierarchy_cons in Hb.
    apply bind_Ok in Hb as (groups & _ & Hb).
    apply bind_Ok in Hb as (raw & Hraw & [= <-]).
    apply Hsort. apply mapM_Ok in Hraw.
    induction Hraw as [|[g groupRows] n es ns Hn _ IHns]; constructor; [|done].
    unfold nodeOfGroup in Hn. destruct (length rest =? 0).
    + destruct (truthyOpt mid).
      * apply bind_Ok in Hn as (mids & Hmids & [= <-]). apply Hleaf.
        apply collectMids_Ok in Hmids as ->. apply NoDup_firstSeen.
      * injection Hn as <-. apply (Hleaf g [g]), NoDup_singleton.
    + apply bind_Ok in Hn as (childNodes & Hc & [= <-]). apply Hgroup. eauto.
Qed.

Lemma memoizedHierarchyData_Some (rows : list Row) (m : ColumnMappings) (root : Node) :
  memoizedHierarchyData rows m = Ok (Some root) →
  ∃ nodes, buildHierarchy rows (levels m) (midColumn m) = Ok nodes ∧
           root = Group "All Accounts" nodes (totalCount nodes).
Proof.
  unfold memoizedHierarchyData.
  destruct ((length rows =? 0) || (length (levels m) =? 0)); [done|].
  intros (nodes & Hb & [= <-])%bind_Ok. eauto.
Qed.

End BuilderFacts.

(** ** Trees *)

Lemma Node_nested_ind (P : Node → Prop) :
  (∀ nm mids c, P (Leaf nm mids c)) →
  (∀ nm cs c, Forall P cs → P (Group nm cs c)) →
  ∀ n, P n.
Proof.
  intros Hleaf Hgroup. fix IH 1. intros [nm mids c|nm cs c]; [apply Hleaf|].
  apply Hgroup. induction cs as [|n cs IHcs]; constructor; [apply IH | apply IHcs].
Qed.

Lemma subnodes_self (n : Node) : n ∈ subnodes n.
Proof. destruct n; simpl; apply elem_of_cons; by left. Qed.

Lemma elem_of_subnodes_Group (d : Node) nm cs c :
  d ∈ subnodes (Group nm cs c) ↔
  d = Group nm cs c ∨ ∃ child, child ∈ cs ∧ d ∈ subnodes child.
Proof.
  simpl. rewrite elem_of_cons, list_elem_of_bind. naive_solver.
Qed.

Lemma elem_of_subnodes_Leaf (d : Node) nm mids c :
  d ∈ subnodes (Leaf nm mids c) ↔ d = Leaf nm mids c.
Proof. simpl. apply list_elem_of_singleton. Qed.

Lemma remove_dups_NoDup (l : list string) : NoDup l → remove_dups l = l.
Proof.
  induction 1 as [|x l Hx _ IH]; simpl; [done|].
  rewrite IH. by destruct (decide_rel elem_of x l).
Qed.

(** ** Counts (claim C1) *)

Section CountFacts.
Context `{RT : StringRuntime}.

Lemma countsLeaves_Group (g : string) (cs : list Node) :
  Forall countsLeaves cs → countsLeaves (Group g cs (totalCount cs)).
Proof.
  intros Hcs d [->|(child & Hchild & Hd)]%elem_of_subnodes_Group.
  - simpl. rewrite totalCount_sum.
    induction Hcs as [|n cs Hn _ IH]; simpl; [done|].
    rewrite IH. f_equal. apply Hn, subnodes_self.
  - rewrite Forall_forall in Hcs. by apply (Hcs child).
Qed.

Lemma buildHierarchy_countsLeaves (rows : list Row) (levels : list string)
    (mid : option string) (nodes : list Node) :
  buildHierarchy rows levels mid = Ok nodes → Forall countsLeaves nodes.
Proof.
  apply (buildHierarchy_ind (Forall countsLeaves) countsLeaves).
  - constructor.
  - intros raw Hraw. by rewrite stableSort_Permutation.
  - intros g mids Hnd d ->%elem_of_subnodes_Leaf. simpl.
    by rewrite remove_dups_NoDup.
  - intros g cs. apply countsLeaves_Group.
Qed.

Lemma length_firstSeen_remove_dups (l : list string) :
  length (firstSeen l) = length (remove_dups l).
Proof.
  apply Permutation_length, NoDup_Permutation;
    [apply NoDup_firstSeen | apply NoDup_remove_dups|].
  intros x. by rewrite elem_of_firstSeen, elem_of_remove_dups.
Qed.

Lemma sum_list_with_ext_in {A} (f g : A → nat) (l : list A) :
  (∀ x, x ∈ l → f x = g x) → sum_list_with f l = sum_list_with g l.
Proof.
  induction l as [|x l IH]; intros Hfg; simpl; [done|].
  rewrite Hfg, IH; [done| |apply elem_of_cons; by left].
  intros y Hy. apply Hfg, elem_of_cons. by right.
Qed.

Lemma sum_list_with_bind {A B} (f : B → nat) (h : A → list B) (l : list A) :
  sum_list_with f (l ≫= h) = sum_list_with (λ x, sum_list_with f (h x)) l.
Proof.
  induction l as [|x l IH]; csimpl; [done|]. by rewrite sum_list_with_app, IH.
Qed.

Lemma sum_list_with_map {A B} (f : B → nat) (g : A → B) (l : list A) :
  sum_list_with f (g <$> l) = sum_list_with (λ x, f (g x)) l.
Proof. induction l as [|x l IH]; csimpl; [done|]. by rewrite IH. Qed.

(** The key paths of a table are the keys of the first level, each
    followed by the key paths of its group under the remaining levels. *)
Lemma keyPaths_cons (level : string) (rest : list string) (rows : list Row) :
  keyPaths (level :: rest) rows ≡ₚ
  remove_dups ((λ row, groupKey level row) <$> rows) ≫= λ key,
    (key ::.) <$> keyPaths rest (groupOf level rows key).
Proof.
  apply NoDup_Permutation.
  - apply NoDup_remove_dups.
  - apply NoDup_bind; [| |apply NoDup_remove_dups].
    + intros key1 key2 path _ _ (p1 & -> & _)%list_elem_of_fmap
        (p2 & [= -> _] & _)%list_elem_of_fmap. done.
    + intros key _. apply (NoDup_fmap_2 _), NoDup_remove_dups.
  - intros path. unfold keyPaths.
    rewrite elem_of_remove_dups, list_elem_of_fmap, list_elem_of_bind. split.
    + intros (row & -> & Hrow). exists (groupKey level row). split.
      * apply list_elem_of_fmap. exists (keyPath rest row). split; [done|].
        apply elem_of_remove_dups, list_elem_of_fmap. exists row. split; [done|].
        unfold groupOf. by apply list_elem_of_filter.
      * apply elem_of_remove_dups, list_elem_of_fmap. eauto.
    + intros (key & (p & -> & Hp)%list_elem_of_fmap & _).
      apply elem_of_remove_dups, list_elem_of_fmap in Hp as (row & -> & Hrow).
      unfold groupOf in Hrow. apply list_elem_of_filter in Hrow as [<- Hrow].
      by exists row.
Qed.

Lemma rowsAt_cons (level : string) (rest : list string) (rows : list Row)
    (key : string) (path : list string) :
  rowsAt (level :: rest) rows (key :: path) = rowsAt rest (groupOf level rows key) path.
Proof.
  unfold rowsAt, groupOf. rewrite list_filter_filter. apply list_filter_iff.
  intros row. unfold keyPath. rewrite fmap_cons. split.
  - by intros [= -> ->].
  - by intros [-> ->].
Qed.

Lemma tableCount_cons (level : string) (rest : list string) (mid : option string)
    (rows : list Row) :
  tableCount (level :: rest) mid rows
  = sum_list_with (λ key, tableCount rest mid (groupOf level rows key))
      (remove_dups ((λ row, groupKey level row) <$> rows)).
Proof.
  unfold tableCount at 1. rewrite keyPaths_cons, sum_list_with_bind.
  apply sum_list_with_ext_in. intros key _. rewrite sum_list_with_map.
  unfold tableCount. apply sum_list_with_ext_in. intros path _.
  by rewrite rowsAt_cons.
Qed.

Lemma tableCount_nil (mid : option string) (rows : list Row) :
  rows ≠ [] → tableCount [] mid rows = identifierCount mid rows.
Proof.
  intros Hne. unfold tableCount.
  assert (keyPaths [] rows ≡ₚ [[]]) as ->.
  { apply NoDup_Permutation; [apply NoDup_remove_dups | apply NoDup_singleton|].
    intros path. unfold keyPaths.
    rewrite elem_of_remove_dups, list_elem_of_fmap, list_elem_of_singleton. split.
    - by intros (row & -> & _).
    - intros ->. destruct rows as [|row rows]; [done|].
      exists row. split; [done | apply elem_of_cons; by left]. }
  simpl. rewrite Nat.add_0_r. f_equal. unfold rowsAt. by apply filter_all.
Qed.

(** The counts of a level of siblings add up to the count of the table
    they were built from. *)
Lemma buildHierarchy_tableCount (levels : list string) (rows : list Row)
    (mid : option string) (nodes : list Node) :
  buildHierarchy rows levels mid = Ok nodes →
  totalCount nodes = tableCount levels mid rows.
Proof.
  revert rows nodes. induction levels as [|level rest IH]; intros [|row0 rows0] nodes Hb.
  - by injection Hb as <-.
  - by apply buildHierarchy_no_levels in Hb.
  - by injection Hb as <-.
  - rewrite buildHierarchy_cons in Hb. set (rows := row0 :: rows0) in *.
    apply bind_Ok in Hb as (groups & Hgroups & Hb).
    apply bind_Ok in Hb as (raw & Hraw & [= <-]). apply mapM_Ok in Hraw.
    pose proof (groupRowsBy_all_keyed _ _ _ Hgroups) as Hentries.
    destruct (groupRowsBy_spec _ _ _ Hgroups) as [Hnd _].
    rewrite totalCount_sum, stableSort_Permutation, tableCount_cons.
    assert ((entries groups).*1
            ≡ₚ remove_dups ((λ row, groupKey level row) <$> rows)) as <-.
    { apply NoDup_Permutation;
        [by rewrite entries_Permutation | apply NoDup_remove_dups|].
      intros key. rewrite elem_of_remove_dups, !list_elem_of_fmap. split.
      - intros ([key' grs] & -> & [_ (row & Hrow & <-)]%Hentries). eauto.
      - intros (row & -> & Hrow).
        exists (groupKey level row, groupOf level rows (groupKey level row)).
        split; [done|]. apply Hentries. eauto. }
    rewrite sum_list_with_map.
    assert (∀ e, e ∈ entries groups → e.2 = groupOf level rows e.1 ∧ e.2 ≠ []) as Hgrs.
    { intros [key grs] [-> (r & Hr & <-)]%Hentries. split; [done|]. simpl.
      intros Hg.
      assert (r ∈ groupOf level rows (groupKey level r)) as Hin
        by (unfold groupOf; by apply list_elem_of_filter).
      rewrite Hg in Hin. by apply elem_of_nil in Hin. }
    clear Hentries Hgroups Hnd.
    induction Hraw as [|[key grs] n es ns Hn _ IHr]; simpl; [done|].
    rewrite IHr by (intros e He; apply Hgrs, elem_of_cons; by right). f_equal.
    destruct (Hgrs (key, grs)) as [Hgroup Hne]; [apply elem_of_cons; by left|].
    simpl in Hgroup, Hne. rewrite <- Hgroup. clear Hgroup IHr Hgrs.
    unfold nodeOfGroup in Hn. destruct rest as [|next rest].
    + rewrite tableCount_nil by done. simpl in Hn. unfold identifierCount.
      destruct mid as [column|]; simpl in Hn; [|by injection Hn as <-].
      destruct (truthyString column); [|by injection Hn as <-].
      apply bind_Ok in Hn as (mids & Hmids & [= <-]). simpl.
      rewrite (collectMids_Ok _ _ _ Hmids). apply length_firstSeen_remove_dups.
    + change (length (next :: rest) =? 0) with false in Hn. cbv iota in Hn.
      apply bind_Ok in Hn as (cs & Hcs & [= <-]). simpl. by apply IH.
Qed.

(** C1, as amended: the count of the "All Accounts" root is the sum,
    over the last-level groups of the table (the rows sharing their keys
    at all levels), of the number of distinct trimmed non-empty values of
    the id column across the rows of the group, or the number of these
    groups without an id column; and every node's [count] is the sum,
    over the leaves of its subtree, of the number of distinct identifier
    values of the leaf. A value occurring in several groups is counted
    once for each of them. *)
Theorem count_is_sum_of_leaf_identifier_counts (rows : list Row) (m : ColumnMappings)
    (root : Node) :
  memoizedHierarchyData rows m = Ok (Some root) →
  count root = tableCount (levels m) (midColumn m) rows
  ∧ ∀ n, n ∈ subnodes root → count n = leafIdentifierCounts n.
Proof.
  intros (nodes & Hb & ->)%memoizedHierarchyData_Some. split.
  - simpl. by apply buildHierarchy_tableCount.
  - apply countsLeaves_Group. by eapply buildHierarchy_countsLeaves.
Qed.

End CountFacts.

Lemma count_is_sum_of_leaf_identifier_counts_witness :
  count Scenario.treeShared
    = tableCount (RT := AsciiRuntime.runtime) ["Region"; "Tier"] (Some "MID")
        Scenario.rowsShared
  ∧ ∀ n, n ∈ subnodes Scenario.treeShared → count n = leafIdentifierCounts n.
Proof.
  apply (count_is_sum_of_leaf_identifier_counts (RT := AsciiRuntime.runtime)
           Scenario.rowsShared Scenario.mappingA Scenario.treeShared).
  vm_compute. reflexivity.
Defined.

(** The table of two regions sharing the identifier [m1] has two
    last-level groups, each with one distinct identifier value. *)
Lemma table_count_of_shared_identifier :
  keyPaths (RT := AsciiRuntime.runtime) ["Region"; "Tier"] Scenario.rowsShared
    = [["East"; "Gold"]; ["West"; "Gold"]]
  ∧ tableCount (RT := AsciiRuntime.runtime) ["Region"; "Tier"] (Some "MID")
      Scenario.rowsShared = 2.
Proof. vm_compute. split; reflexivity. Qed.

(** C1 as stated fails: two regions sharing the identifier [m1] give a
    root of count 2, while its subtree, and the id column of the whole
    table, hold a single distinct identifier value. *)
Lemma count_is_not_distinct_identifiers :
  memoizedHierarchyData (RT := AsciiRuntime.runtime) Scenario.rowsShared Scenario.mappingA
    = Ok (Some Scenario.treeShared)
  ∧ count Scenario.treeShared = 2
  ∧ distinctIdentifiers Scenario.treeShared = 1
  ∧ length (remove_dups (idValues (RT := AsciiRuntime.runtime) "MID" Scenario.rowsShared)) = 1
  ∧ count Scenario.treeShared ≠ distinctIdentifiers Scenario.treeShared.
Proof. vm_compute. repeat split; discriminate. Qed.

(** ** The ASCII runtime compares consistently *)

Lemma string_compare_le_trans (a b c : string) :
  String.compare a b ≠ Gt → String.compare b c ≠ Gt → String.compare a c ≠ Gt.
Proof.
  revert b c. induction a as [|x a IH]; intros [|y b] [|z c]; simpl; try done.
  unfold Ascii.compare.
  destruct (N.compare_spec (N_of_ascii x) (N_of_ascii y)),
           (N.compare_spec (N_of_ascii y) (N_of_ascii z)),
           (N.compare_spec (N_of_ascii x) (N_of_ascii z));
    try done; try lia; eauto.
Qed.

Lemma compareStrings_le (a b : string) :
  (AsciiRuntime.compareStrings a b ≤ 0)%Z ↔ String.compare a b ≠ Gt.
Proof. unfold AsciiRuntime.compareStrings. destruct (String.compare a b); split; done. Qed.

#[local] Instance ascii_consistent : ConsistentCompare AsciiRuntime.runtime.
Proof.
  split; simpl; intros a b.
  - rewrite !compareStrings_le, (String.compare_antisym a b).
    destruct (String.compare b a); simpl; auto.
  - intros c. rewrite !compareStrings_le. apply string_compare_le_trans.
Qed.

(** ** Sibling order (claim C7) *)

Section OrderFacts.
Context `{RT : StringRuntime} `{!ConsistentCompare RT}.

Lemma byName_nameLe (a b : Node) : byName a b = true ↔ nameLe a b.
Proof. apply Z.leb_le. Qed.

Lemma nameLe_total (a b : Node) : nameLe a b ∨ nameLe b a.
Proof. apply localeCompare_total. Qed.

#[local] Instance nameLe_trans : Transitive nameLe.
Proof. intros a b c. apply localeCompare_trans. Qed.

Lemma sortedBelow_Group (g : string) (cs : list Node) (c : nat) :
  sortedLevel cs → sortedBelow (Group g cs c).
Proof.
  intros [Hcs Hbelow] d [->|(child & Hchild & Hd)]%elem_of_subnodes_Group; [done|].
  rewrite Forall_forall in Hbelow. by apply (Hbelow child).
Qed.

Lemma buildHierarchy_sortedLevel (rows : list Row) (levels : list string)
    (mid : option string) (nodes : list Node) :
  buildHierarchy rows levels mid = Ok nodes → sortedLevel nodes.
Proof.
  apply (buildHierarchy_ind sortedLevel sortedBelow).
  - split; constructor.
  - intros raw Hraw. split.
    + apply (stableSort_StronglySorted byName nameLe byName_nameLe nameLe_total).
    + by rewrite stableSort_Permutation.
  - by intros g mids _ d ->%elem_of_subnodes_Leaf; constructor.
  - intros g cs. apply sortedBelow_Group.
Qed.

(** C7: in the tree returned by [buildHierarchy] the siblings at every
    depth are in non-decreasing order of their names under
    [localeCompare] (the top level, and the children of every group in
    every subtree). *)
Theorem siblings_sorted_at_every_depth (rows : list Row) (levels : list string)
    (mid : option string) (nodes : list Node) :
  buildHierarchy rows levels mid = Ok nodes →
  StronglySorted nameLe nodes ∧
  ∀ n d, n ∈ nodes → d ∈ subnodes n → StronglySorted nameLe (children d).
Proof.
  intros [Htop Hbelow]%buildHierarchy_sortedLevel. split; [done|].
  intros n d Hn Hd. rewrite Forall_forall in Hbelow. by apply (Hbelow n).
Qed.

End OrderFacts.

Lemma siblings_sorted_at_every_depth_witness :
  StronglySorted (nameLe (RT := AsciiRuntime.runtime)) (children Scenario.treeShared).
Proof.
  refine (proj1 (siblings_sorted_at_every_depth (RT := AsciiRuntime.runtime)
                   Scenario.rowsShared ["Region"; "Tier"] (Some "MID")
                   (children Scenario.treeShared) _)).
  vm_compute. reflexivity.
Defined.

(** ** Leaves of the last level (claims C8 and C9) *)

Lemma Forall2_elem_of_r {A B} (R : A → B → Prop) (l : list A) (k : list B) (y : B) :
  Forall2 R l k → y ∈ k → ∃ x, x ∈ l ∧ R x y.
Proof.
  induction 1 as [|x y' l k Hxy _ IH]; [by intros ?%elem_of_nil|].
  intros [->|Hy]%elem_of_cons.
  - exists x. split; [apply elem_of_cons; by left | done].
  - destruct (IH Hy) as (x' & Hx' & HR). exists x'.
    split; [apply elem_of_cons; by right | done].
Qed.

Lemma Forall2_elem_of_l {A B} (R : A → B → Prop) (l : list A) (k : list B) (x : A) :
  Forall2 R l k → x ∈ l → ∃ y, y ∈ k ∧ R x y.
Proof.
  induction 1 as [|x' y l k Hxy _ IH]; [by intros ?%elem_of_nil|].
  intros [->|Hx]%elem_of_cons.
  - exists y. split; [apply elem_of_cons; by left | done].
  - destruct (IH Hx) as (y' & Hy' & HR). exists y'.
    split; [apply elem_of_cons; by right | done].
Qed.

Section LeafFacts.
Context `{RT : StringRuntime}.


Lemma nodeOfGroup_last (level : string) (rows : list Row) (mid : option string)
    (key : string) (node : Node) :
  nodeOfGroup [] mid (key, groupOf level rows key) = Ok node →
  node = leafFor level rows mid key.
Proof.
  unfold nodeOfGroup, leafFor, leafIdentifiers. simpl.
  destruct mid as [column|]; simpl; [|by intros [= <-]].
  destruct (truthyString column); [|by intros [= <-]].
  intros (mids & Hmids & [= <-])%bind_Ok. by apply collectMids_Ok in Hmids as ->.
Qed.

(** The nodes of a single remaining level are the leaves of the groups of
    the rows, one for each key that occurs. *)
Lemma buildHierarchy_last_level (rows : list Row) (level : string)
    (mid : option string) (nodes : list Node) :
  buildHierarchy rows [level] mid = Ok nodes →
  ∀ node, node ∈ nodes ↔
    ∃ row, row ∈ rows ∧ node = leafFor level rows mid (groupKey level row).
Proof.
  destruct rows as [|row0 rows0].
  { intros [= <-] node. split; [by intros ?%elem_of_nil|].
    by intros (row & ?%elem_of_nil & _). }
  rewrite buildHierarchy_cons. set (rows := row0 :: rows0).
  intros (groups & Hgroups & Hb)%bind_Ok.
  apply bind_Ok in Hb as (raw & Hraw & [= <-]). apply mapM_Ok in Hraw.
  pose proof (groupRowsBy_all_keyed _ _ _ Hgroups) as Hentries.
  intros node. rewrite elem_of_stableSort. split.
  - intros Hnode. destruct (Forall2_elem_of_r _ _ _ _ Hraw Hnode) as ([key grs] & He & Hn).
    apply Hentries in He as [-> (row & Hrow & <-)].
    exists row. split; [done|]. by apply nodeOfGroup_last.
  - intros (row & Hrow & ->).
    assert ((groupKey level row, groupOf level rows (groupKey level row))
              ∈ entries groups) as He by (apply Hentries; eauto).
    destruct (Forall2_elem_of_l _ _ _ _ Hraw He) as (n & Hn & Hnode).
    by apply nodeOfGroup_last in Hnode as <-.
Qed.

(** When the builder returns, it has built the subtree of every group. *)
Lemma buildHierarchy_nonempty_returns (rows : list Row) (level next : string)
    (rest : list string) (mid : option string) (nodes : list Node) :
  buildHierarchy rows (level :: next :: rest) mid = Ok nodes →
  ∀ row, row ∈ rows →
    ∃ childNodes,
      buildHierarchy (groupOf level rows (groupKey level row)) (next :: rest) mid
      = Ok childNodes.
Proof.
  destruct rows as [|row0 rows0]; [by intros _ row ?%elem_of_nil|].
  rewrite buildHierarchy_cons. set (rows := row0 :: rows0).
  intros (groups & Hgroups & Hb)%bind_Ok row Hrow.
  apply bind_Ok in Hb as (raw & Hraw & _). apply mapM_Ok in Hraw.
  pose proof (groupRowsBy_all_keyed _ _ _ Hgroups) as Hentries.
  assert ((groupKey level row, groupOf level rows (groupKey level row))
            ∈ entries groups) as He by (apply Hentries; eauto).
  destruct (Forall2_elem_of_l _ _ _ _ Hraw He) as (n & _ & Hnode).
  apply bind_Ok in Hnode as (childNodes & Hc & _). eauto.
Qed.

(** With levels remaining below the first, the nodes are the groups of
    the rows, one for each key that occurs, each holding the tree built
    from its rows and the remaining levels. *)
Lemma buildHierarchy_group_level (rows : list Row) (level next : string)
    (rest : list string) (mid : option string) (nodes : list Node) :
  buildHierarchy rows (level :: next :: rest) mid = Ok nodes →
  ∀ node, node ∈ nodes ↔
    ∃ row childNodes, row ∈ rows
      ∧ buildHierarchy (groupOf level rows (groupKey level row)) (next :: rest) mid
        = Ok childNodes
      ∧ node = Group (groupKey level row) childNodes (totalCount childNodes).
Proof.
  destruct rows as [|row0 rows0].
  { intros [= <-] node. split; [by intros ?%elem_of_nil|].
    by intros (row & cs & ?%elem_of_nil & _). }
  rewrite buildHierarchy_cons. set (rows := row0 :: rows0).
  intros (groups & Hgroups & Hb)%bind_Ok.
  apply bind_Ok in Hb as (raw & Hraw & [= <-]). apply mapM_Ok in Hraw.
  pose proof (groupRowsBy_all_keyed _ _ _ Hgroups) as Hentries.
  intros node. rewrite elem_of_stableSort. split.
  - intros Hnode. destruct (Forall2_elem_of_r _ _ _ _ Hraw Hnode) as ([key grs] & He & Hn).
    apply Hentries in He as [-> (row & Hrow & <-)].
    apply bind_Ok in Hn as (childNodes & Hc & [= <-]). eauto.
  - intros (row & childNodes & Hrow & Hc & ->).
    assert ((groupKey level row, groupOf level rows (groupKey level row))
              ∈ entries groups) as He by (apply Hentries; eauto).
    destruct (Forall2_elem_of_l _ _ _ _ Hraw He) as (n & Hn & Hnode).
    apply bind_Ok in Hnode as (childNodes' & Hc' & [= <-]).
    rewrite Hc in Hc'. by injection Hc' as <-.
Qed.

Lemma sameKeys_nil (rows : list Row) (row : Row) : sameKeys [] rows row = rows.
Proof. unfold sameKeys. apply filter_all. by constructor. Qed.

Lemma sameKeys_cons (level : string) (levels : list string) (rows : list Row) (row : Row) :
  sameKeys (level :: levels) rows row
  = sameKeys levels (groupOf level rows (groupKey level row)) row.
Proof.
  unfold sameKeys, groupOf. rewrite list_filter_filter. apply list_filter_iff.
  intros r. rewrite Forall_cons. tauto.
Qed.

Lemma sameKeys_snoc (levels : list string) (level : string) (rows : list Row) (row : Row) :
  sameKeys (levels ++ [level]) rows row
  = groupOf level (sameKeys levels rows row) (groupKey level row).
Proof.
  unfold sameKeys, groupOf. rewrite list_filter_filter. apply list_filter_iff.
  intros r. rewrite Forall_app, Forall_singleton. tauto.
Qed.

(** In the tree built from any levels, the key path of a row leads to the
    leaf of the last level built from the rows that share its keys at the
    levels above. *)
Lemma leaf_on_key_path (init : list string) (last : string) (rows : list Row)
    (mid : option string) (nodes : list Node) (row : Row) :
  buildHierarchy rows (init ++ [last]) mid = Ok nodes →
  row ∈ rows →
  LeafAt nodes (keyPath (init ++ [last]) row)
         (leafFor last (sameKeys init rows row) mid (groupKey last row)).
Proof.
  revert rows nodes. induction init as [|level init IH]; intros rows nodes Hb Hrow.
  - rewrite sameKeys_nil. apply leafAt_last.
    apply (buildHierarchy_last_level _ _ _ _ Hb). eauto.
  - rewrite sameKeys_cons.
    assert (∃ next rest, init ++ [last] = next :: rest) as (next & rest & Hrest).
    { destruct init; simpl; eauto. }
    simpl in Hb. rewrite Hrest in Hb.
    pose proof (buildHierarchy_group_level _ _ _ _ _ _ Hb) as Hlevel.
    assert (row ∈ groupOf level rows (groupKey level row)) as Hin.
    { unfold groupOf. by apply list_elem_of_filter. }
    destruct (buildHierarchy_nonempty_returns rows level next rest mid nodes Hb row Hrow)
      as (childNodes & Hc).
    unfold keyPath. csimpl. apply (leafAt_below _ _ childNodes (totalCount childNodes)).
    + apply Hlevel. eauto.
    + rewrite <- Hrest in Hc. by apply IH.
Qed.

Lemma LeafAt_subnodes (nodes : list Node) (path : list string) (leaf : Node) :
  LeafAt nodes path leaf → leaf ∈ nodes ≫= subnodes.
Proof.
  induction 1 as [nodes nm mids c Hin|nodes nm cs c path leaf Hin _ IH];
    apply list_elem_of_bind.
  - eexists. split; [apply subnodes_self | done].
  - exists (Group nm cs c). split; [|done].
    apply list_elem_of_bind in IH as (child & Hleaf & Hchild).
    apply elem_of_subnodes_Group. eauto.
Qed.




Lemma idValues_blank (column : string) (rows : list Row) :
  Forall (blankCell column) rows → idValues column rows = [].
Proof.
  unfold idValues, blankCell. induction 1 as [|row rows Hrow _ IH]; [done|].
  csimpl. destruct (row !! column) as [v|]; csimpl; [|done].
  simpl in Hrow. rewrite filter_cons_False by congruence. done.
Qed.

(** C9: with an id column set, a last-level group all of whose rows have
    a blank or missing id cell still yields its leaf, at the end of its
    key path in the tree, with no identifiers and count 0: blank values
    are dropped (not turned into the sentinel) and the empty leaf stays
    in the tree. *)
Theorem blank_identifiers_give_empty_leaf (init : list string) (last column : string)
    (rows : list Row) (nodes : list Node) (row : Row) :
  buildHierarchy rows (init ++ [last]) (Some column) = Ok nodes →
  truthyString column = true →
  row ∈ rows →
  (∀ r, r ∈ sameKeys (init ++ [last]) rows row → blankCell column r) →
  LeafAt nodes (keyPath (init ++ [last]) row) (Leaf (groupKey last row) [] 0)
  ∧ Leaf (groupKey last row) [] 0 ∈ nodes ≫= subnodes.
Proof.
  intros Hb Hcol Hrow Hblank.
  assert (LeafAt nodes (keyPath (init ++ [last]) row) (Leaf (groupKey last row) [] 0))
    as Hleaf; [|split; [done | by eapply LeafAt_subnodes]].
  pose proof (leaf_on_key_path _ _ _ _ _ _ Hb Hrow) as Hat.
  unfold leafFor, leafIdentifiers in Hat.
  rewrite Hcol, <- sameKeys_snoc, idValues_blank in Hat; [done|].
  by apply Forall_forall.
Qed.

End LeafFacts.


Lemma blank_identifiers_give_empty_leaf_witness :
  LeafAt [Group "East" [Leaf "Gold" [] 0] 0; Group "West" [Leaf "Silver" ["m9"] 1] 1]
         ["East"; "Gold"] (Leaf "Gold" [] 0)
  ∧ Leaf "Gold" [] 0
    ∈ [Group "East" [Leaf "Gold" [] 0] 0; Group "West" [Leaf "Silver" ["m9"] 1] 1]
      ≫= subnodes.
Proof.
  apply (blank_identifiers_give_empty_leaf (RT := AsciiRuntime.runtime)
           ["Region"] "Tier" "MID" Scenario.rowsBlank _
           (Scenario.record "East" "Gold" "  ")).
  - vm_compute. reflexivity.
  - reflexivity.
  - apply elem_of_cons. by left.
  - apply (proj1 (Forall_forall _ _)). vm_compute. repeat constructor.
Defined.

(** ** The builder returns on buildable inputs *)

Lemma mapM_returns {A B} (f : A → Result B) (l : list A) :
  (∀ x, x ∈ l → ∃ y, f x = Ok y) → ∃ r, mapM f l = Ok r.
Proof.
  induction l as [|x l IH]; intros Hf; [by exists []|].
  destruct (Hf x) as (y & Hy); [apply elem_of_cons; by left|].
  destruct IH as (r & Hr); [intros z Hz; apply Hf, elem_of_cons; by right|].
  exists (y :: r). apply mapM_Ok. constructor; [done | by apply mapM_Ok].
Qed.

Section ReturnFacts.
Context `{RT : StringRuntime}.

Lemma nodeOfGroup_cons (next : string) (rest : list string) (mid : option string)
    (key : string) (groupRows : list Row) :
  nodeOfGroup (next :: rest) mid (key, groupRows) =
  buildHierarchy groupRows (next :: rest) mid ≫= λ childNodes,
    Ok (Group key childNodes (totalCount childNodes)).
Proof. reflexivity. Qed.

Lemma trimmedCell_returns (row : Row) (column : string) :
  (row !! column = None → inherited column = false) →
  trimmedCell row column = Ok (trim <$> row !! column).
Proof.
  unfold trimmedCell. destruct (row !! column); [done|]. by intros ->.
Qed.

Lemma firstLevelValue_returns (level : string) (row : Row) :
  (row !! level = None → inherited level = false) →
  firstLevelValue level row = Ok (groupKey level row).
Proof.
  intros Hcol. unfold firstLevelValue, groupKey. rewrite trimmedCell_returns by done.
  destruct (row !! level) as [v|]; simpl; [|done]. by destruct (truthyString (trim v)).
Qed.

Lemma groupRowsBy_returns (level : string) (rows : list Row) :
  (∀ row, row ∈ rows →
     (row !! level = None → inherited level = false)
     ∧ inherited (groupKey level row) = false) →
  ∃ groups, groupRowsBy level rows = Ok groups.
Proof.
  unfold groupRowsBy. induction rows as [|row rows IH] using rev_ind; intros Hrows.
  - by exists [].
  - destruct IH as (groups & Hgroups).
    { intros r Hr. apply Hrows, elem_of_app. by left. }
    destruct (Hrows row) as [Hcol Hkey].
    { apply elem_of_app. right. by apply list_elem_of_singleton. }
    rewrite forEachM_snoc, Hgroups. simpl. unfold pushRow.
    rewrite firstLevelValue_returns by done. simpl. unfold getProp. rewrite Hkey.
    destruct (getOwn groups (groupKey level row)); eauto.
Qed.

Lemma collectMids_returns (column : string) (groupRows : list Row) :
  (∀ row, row ∈ groupRows → row !! column = None → inherited column = false) →
  ∃ mids, collectMids column groupRows = Ok mids.
Proof.
  intros Hrows. unfold collectMids.
  destruct (mapM_returns (λ row, trimmedCell row column) groupRows) as (cells & ->).
  - intros row Hrow. rewrite trimmedCell_returns by eauto. eauto.
  - simpl. eauto.
Qed.

(** On a buildable input the builder returns a tree: the properties of
    the returned tree are not about an empty set of runs. *)
Lemma buildHierarchy_returns (rows : list Row) (levels : list string)
    (mid : option string) :
  buildable rows levels mid → ∃ nodes, buildHierarchy rows levels mid = Ok nodes.
Proof.
  revert rows. induction levels as [|level rest IH]; intros rows [Hne Hrows]; [done|].
  destruct rows as [|row0 rows0]; [by exists []|].
  rewrite buildHierarchy_cons. set (rows := row0 :: rows0) in *.
  destruct (groupRowsBy_returns level rows) as (groups & Hgroups).
  { intros row Hrow. destruct (Hrows row Hrow) as [Hcols Hkeys]. split.
    - apply Hcols. apply elem_of_app. left. apply elem_of_cons. by left.
    - apply Hkeys. apply elem_of_cons. by left. }
  rewrite Hgroups. simpl.
  pose proof (groupRowsBy_all_keyed _ _ _ Hgroups) as Hentries.
  destruct (mapM_returns (nodeOfGroup rest mid) (entries groups)) as (raw & ->);
    [|simpl; eauto].
  intros [key grs] [-> _]%Hentries.
  assert (∀ row, row ∈ groupOf level rows key → row ∈ rows) as Hsub.
  { intros row [_ ?]%list_elem_of_filter. done. }
  destruct rest as [|next rest].
  - unfold nodeOfGroup. simpl. destruct mid as [column|]; simpl; [|eauto].
    destruct (truthyString column); [|eauto].
    destruct (collectMids_returns column (groupOf level rows key)) as (mids & ->);
      [|simpl; eauto].
    intros row Hrow%Hsub. destruct (Hrows row Hrow) as [Hcols _].
    apply Hcols. apply elem_of_app. right. simpl. apply elem_of_cons. by left.
  - rewrite nodeOfGroup_cons.
    destruct (IH (groupOf level rows key)) as (childNodes & ->); [|simpl; eauto].
    split; [done|]. intros row Hrow%Hsub. destruct (Hrows row Hrow) as [Hcols Hkeys].
    split.
    + intros column Hcolumn. apply Hcols.
      apply elem_of_app in Hcolumn as [Hc|Hc]; apply elem_of_app; [left | by right].
      apply elem_of_cons. by right.
    + intros l Hl. apply Hkeys. apply elem_of_cons. by right.
Qed.

End ReturnFacts.

(** ** The tree filter (claims C6 and C10) *)

Lemma existsb_elem_of {A} (f : A → bool) (l : list A) :
  existsb f l = true ↔ ∃ x, x ∈ l ∧ f x = true.
Proof.
  rewrite existsb_exists. by setoid_rewrite list_elem_of_In.
Qed.

Lemma append_String (a : ascii) (s t : string) :
  String a s +:+ t = String a (s +:+ t).
Proof. reflexivity. Qed.

Lemma append_empty (t : string) : "" +:+ t = t.
Proof. reflexivity. Qed.

Lemma prefix_spec (sub s : string) :
  String.prefix sub s = true ↔ ∃ after, s = sub +:+ after.
Proof.
  revert s. induction sub as [|a sub IH]; intros s.
  - split; [intros _; by exists s | intros _; by destruct s].
  - destruct s as [|b s].
    + split; [done | by intros (after & [=])].
    + change (String.prefix (String a sub) (String b s))
        with (if ascii_dec a b then String.prefix sub s else false).
      destruct (ascii_dec a b) as [->|Hne].
      * rewrite IH. split; intros (after & Heq); exists after.
        -- by rewrite append_String, Heq.
        -- rewrite append_String in Heq. by injection Heq.
      * split; [done|]. intros (after & Heq).
        rewrite append_String in Heq. by injection Heq as -> _.
Qed.

(** [includes] finds the occurrences of a substring. *)
Lemma includes_spec (s sub : string) :
  includes s sub = true ↔ ∃ before after, s = before +:+ sub +:+ after.
Proof.
  induction s as [|c s IH].
  - change (includes "" sub) with (String.prefix sub "" || false).
    rewrite orb_false_r, prefix_spec. split.
    + intros (after & Heq). by exists "", after.
    + intros ([|? ?] & after & Heq); [|done]. by exists after.
  - change (includes (String c s) sub)
      with (String.prefix sub (String c s) || includes s sub).
    rewrite orb_true_iff, prefix_spec, IH. split.
    + intros [(after & Heq)|(before & after & ->)]; [by exists "", after|].
      by exists (String c before), after.
    + intros ([|c' before] & after & Heq); [left; by exists after|].
      right. rewrite append_String in Heq. injection Heq as -> ->.
      by exists before, after.
Qed.

Section FilterFacts.
Context `{RT : StringRuntime}.
Variable query : string.

Lemma nodeMatchesSearch_unfold (node : Node) :
  nodeMatchesSearch node query =
  negb (truthyString (trim query))
  || includes (toLowerCase (name node)) (toLowerCase query)
  || match node with
     | Leaf _ mids _ =>
         existsb (λ mid, includes (toLowerCase mid) (toLowerCase query)) mids
     | Group _ cs _ => existsb (λ child, nodeMatchesSearch child query) cs
     end.
Proof.
  destruct node; simpl; destruct (negb _); simpl; try done;
    by destruct (includes _ _).
Qed.

(** [nodeMatchesSearch] decides the matching predicate. *)
Lemma nodeMatchesSearch_Matches (node : Node) :
  nodeMatchesSearch node query = true ↔ Matches query node.
Proof.
  induction node as [nm mids c|nm cs c IH] using Node_nested_ind;
    rewrite nodeMatchesSearch_unfold, !orb_true_iff, negb_true_iff, existsb_elem_of.
  - split.
    + intros [[Hblank|Hname]|(mid & Hmid & Hin)].
      * apply matches_blank. by destruct (trim query).
      * by apply matches_name, includes_spec.
      * apply (matches_identifier _ _ _ _ mid); [done|]. by apply includes_spec.
    + inversion 1 as [? Hblank|? Hname|? ? ? mid Hmid Hin|]; subst.
      * left; left. by rewrite Hblank.
      * left; right. by apply includes_spec.
      * right. exists mid. split; [done|]. by apply includes_spec.
  - rewrite Forall_forall in IH. split.
    + intros [[Hblank|Hname]|(child & Hchild & Hm)].
      * apply matches_blank. by destruct (trim query).
      * by apply matches_name, includes_spec.
      * apply (matches_descendant _ _ _ _ child); [done|]. by apply IH.
    + inversion 1 as [? Hblank|? Hname| |? ? ? child Hchild Hm]; subst.
      * left; left. by rewrite Hblank.
      * left; right. by apply includes_spec.
      * right. eexists. split; [done|]. by apply IH.
Qed.

Lemma keptByFilter_unfold (node : Node) :
  keptByFilter query node =
  nodeMatchesSearch node query
  || isGroup node && (0 <? length (filterHierarchy (children node) query)).
Proof.
  destruct node as [nm mids c|nm cs c].
  - change (keptByFilter query (Leaf nm mids c))
      with (if nodeMatchesSearch (Leaf nm mids c) query then true else false).
    by destruct (nodeMatchesSearch _ _).
  - change (keptByFilter query (Group nm cs c))
      with (if nodeMatchesSearch (Group nm cs c) query then true
            else 0 <? length (filterHierarchy cs query)).
    by destruct (nodeMatchesSearch _ _).
Qed.

Lemma rebuilt_Group (nm : string) (cs : list Node) (c : nat) :
  rebuilt query (Group nm cs c) = Group nm (filterHierarchy cs query) c.
Proof. reflexivity. Qed.

Lemma rebuilt_Leaf (nm : string) (mids : list string) (c : nat) :
  rebuilt query (Leaf nm mids c) = Leaf nm mids c.
Proof. reflexivity. Qed.

(** A blank query makes the filter the identity. *)
Lemma filterHierarchy_blank (nodes : list Node) :
  truthyString (trim query) = false → filterHierarchy nodes query = nodes.
Proof. unfold filterHierarchy. by intros ->. Qed.

Lemma rebuilt_blank (node : Node) :
  truthyString (trim query) = false → rebuilt query node = node.
Proof.
  intros Hblank. destruct node as [nm mids c|nm cs c]; [done|].
  by rewrite rebuilt_Group, filterHierarchy_blank.
Qed.

Lemma keptByFilter_blank (node : Node) :
  truthyString (trim query) = false → keptByFilter query node = true.
Proof.
  intros Hblank. rewrite keptByFilter_unfold, nodeMatchesSearch_unfold, Hblank. done.
Qed.

Lemma filterHierarchy_eq (nodes : list Node) :
  filterHierarchy nodes query =
  rebuilt query <$> filter (λ n, keptByFilter query n = true) nodes.
Proof.
  destruct (truthyString (trim query)) eqn:Hq.
  - unfold filterHierarchy. rewrite Hq. simpl. apply filterThenMap_eq.
  - rewrite filterHierarchy_blank by done.
    rewrite filter_all by (intros n _; by apply keptByFilter_blank).
    induction nodes as [|n nodes IH]; csimpl; [done|].
    by rewrite rebuilt_blank, <- IH.
Qed.

Lemma rebuilt_frame (node : Node) :
  name (rebuilt query node) = name node
  ∧ count (rebuilt query node) = count node
  ∧ isGroup (rebuilt query node) = isGroup node
  ∧ children (rebuilt query node) = filterHierarchy (children node) query.
Proof.
  destruct node as [nm mids c|nm cs c]; [|done].
  simpl. by rewrite filterHierarchy_eq.
Qed.

(** A child survives the filter exactly when the filtered child list is
    not empty. *)
Lemma filterHierarchy_survivor (nodes : list Node) :
  (0 <? length (filterHierarchy nodes query)) = true ↔
  ∃ child, child ∈ nodes ∧ keptByFilter query child = true.
Proof.
  rewrite filterHierarchy_eq, length_fmap, Nat.ltb_lt. split.
  - intros Hlen. destruct (filter _ nodes) as [|child l] eqn:Hf; [simpl in Hlen; lia|].
    assert (child ∈ filter (λ n, keptByFilter query n = true) nodes) as Hin.
    { rewrite Hf. apply elem_of_cons. by left. }
    apply list_elem_of_filter in Hin as [? ?]. eauto.
  - intros (child & Hin & Hkept).
    assert (child ∈ filter (λ n, keptByFilter query n = true) nodes) as Hc.
    { by apply list_elem_of_filter. }
    destruct (filter _ nodes); [by apply elem_of_nil in Hc | simpl; lia].
Qed.

Lemma keptByFilter_spec (node : Node) :
  keptByFilter query node = true ↔
  Matches query node ∨
  ∃ child, child ∈ children node ∧ keptByFilter query child = true.
Proof.
  rewrite keptByFilter_unfold, orb_true_iff, andb_true_iff,
    nodeMatchesSearch_Matches, filterHierarchy_survivor.
  destruct node as [nm mids c|nm cs c]; simpl.
  - split; (intros [Hm|Hc]; [by left|]).
    + by destruct Hc as [[=] _].
    + by destruct Hc as (child & ?%elem_of_nil & _).
  - split; (intros [Hm|Hc]; [by left | right]); [by destruct Hc | done].
Qed.

(** C6: for every query, the filter keeps, in order, exactly the nodes
    that match or have a child that survives the filter, where a node
    matches when the query is blank or is, case-insensitively, a substring
    of the node's own name, of an identifier of a leaf, or matches a
    descendant of a group; a kept group carries the recursively filtered
    children and a kept leaf is passed through as it is. *)
Theorem filter_retains_matching_or_surviving :
  (∀ node, nodeMatchesSearch node query = true ↔ Matches query node)
  ∧ (∀ nodes, filterHierarchy nodes query =
              rebuilt query <$> filter (λ n, keptByFilter query n = true) nodes)
  ∧ (∀ node, keptByFilter query node = true ↔
       Matches query node ∨
       ∃ child, child ∈ children node ∧ keptByFilter query child = true)
  ∧ (∀ nm cs c, rebuilt query (Group nm cs c) = Group nm (filterHierarchy cs query) c)
  ∧ (∀ nm mids c, rebuilt query (Leaf nm mids c) = Leaf nm mids c).
Proof.
  split_and!; [apply nodeMatchesSearch_Matches | apply filterHierarchy_eq
              | apply keptByFilter_spec | apply rebuilt_Group | apply rebuilt_Leaf].
Qed.

Lemma subnodes_rebuilt (node g : Node) :
  g ∈ subnodes (rebuilt query node) →
  ∃ d, d ∈ subnodes node ∧ g = rebuilt query d.
Proof.
  revert g. induction node as [nm mids c|nm cs c IH] using Node_nested_ind; intros g.
  - intros ->%elem_of_subnodes_Leaf. eexists. split; [apply subnodes_self | done].
  - rewrite rebuilt_Group, filterHierarchy_eq.
    intros [->|(child' & Hchild' & Hg)]%elem_of_subnodes_Group.
    + exists (Group nm cs c). split; [apply subnodes_self|].
      by rewrite rebuilt_Group, filterHierarchy_eq.
    + apply list_elem_of_fmap in Hchild' as (child & -> & [_ Hchild]%list_elem_of_filter).
      rewrite Forall_forall in IH. destruct (IH child Hchild g Hg) as (d & Hd & ->).
      exists d. split; [|done]. apply elem_of_subnodes_Group. eauto.
Qed.

Lemma filtered_nodes_frame (nodes : list Node) (g : Node) :
  g ∈ filterHierarchy nodes query ≫= subnodes →
  ∃ n, n ∈ nodes ≫= subnodes
       ∧ name g = name n ∧ count g = count n ∧ isGroup g = isGroup n
       ∧ children g = filterHierarchy (children n) query.
Proof.
  rewrite filterHierarchy_eq.
  intros (n' & Hg & Hn')%list_elem_of_bind.
  apply list_elem_of_fmap in Hn' as (n & -> & [_ Hn]%list_elem_of_filter).
  apply subnodes_rebuilt in Hg as (d & Hd & ->).
  exists d. split; [apply list_elem_of_bind; eauto | apply rebuilt_frame].
Qed.

End FilterFacts.

Lemma filter_retains_matching_or_surviving_witness :
  Matches (RT := AsciiRuntime.runtime) "GOL" (Leaf "Gold" ["m1"; "m2"] 2)
  ∧ ¬ Matches (RT := AsciiRuntime.runtime) "GOL" (Leaf "Silver" ["m3"] 1)
  ∧ filterHierarchy (RT := AsciiRuntime.runtime) Scenario.nodesTwoTiers "GOL"
    = [Group "East" [Leaf "Gold" ["m1"; "m2"] 2] 3].
Proof.
  destruct (filter_retains_matching_or_surviving (RT := AsciiRuntime.runtime) "GOL")
    as (Hmatches & _).
  split_and!.
  - apply Hmatches. reflexivity.
  - intros Hm. apply Hmatches in Hm. discriminate Hm.
  - reflexivity.
Defined.

(** C10: for every query, every node of the filtered tree, at any depth,
    has the name and count of a node of the original tree and, as
    children, the filtered children of that node;
    since the count is not recomputed, a filtered group's count may exceed
    the sum of the counts of the children it still shows. *)
Theorem filtered_group_keeps_name_and_count :
  (∀ (RT : StringRuntime) (query : string) (nodes : list Node) (g : Node),
     g ∈ filterHierarchy nodes query ≫= subnodes →
     ∃ n, n ∈ nodes ≫= subnodes
          ∧ name g = name n ∧ count g = count n ∧ isGroup g = isGroup n
          ∧ children g = filterHierarchy (children n) query)
  ∧ (∃ g, g ∈ filterHierarchy (RT := AsciiRuntime.runtime) Scenario.nodesTwoTiers "gol"
          ∧ isGroup g = true ∧ totalCount (children g) < count g).
Proof.
  split.
  - intros RT query nodes g. apply filtered_nodes_frame.
  - exists (Group "East" [Leaf "Gold" ["m1"; "m2"] 2] 3).
    vm_compute. split_and!; [apply elem_of_cons; by left | done | lia].
Qed.

Lemma filtered_group_keeps_name_and_count_witness :
  ∃ n, n ∈ Scenario.nodesTwoTiers ≫= subnodes
       ∧ "East" = name n ∧ 3 = count n ∧ true = isGroup n
       ∧ [Leaf "Gold" ["m1"; "m2"] 2]
         = filterHierarchy (RT := AsciiRuntime.runtime) (children n) "gol".
Proof.
  apply (proj1 filtered_group_keeps_name_and_count AsciiRuntime.runtime "gol"
           Scenario.nodesTwoTiers (Group "East" [Leaf "Gold" ["m1"; "m2"] 2] 3)).
  vm_compute. apply elem_of_cons. by left.
Defined.

(** ** The validator (claim C3) *)

Lemma truthyString_ne (s : string) : truthyString s = true ↔ s ≠ "".
Proof. by destruct s. Qed.

Lemma laterOccurrences_nil (seen l : list string) :
  laterOccurrences seen l = [] ↔ NoDup l ∧ ∀ x, x ∈ l → x ∉ seen.
Proof.
  revert seen. induction l as [|x l IH]; intros seen; simpl.
  - split; [intros _; split; [constructor | by intros ? ?%elem_of_nil] | done].
  - rewrite NoDup_cons. case_bool_decide as Hx; simpl.
    + split; [done|]. intros [_ Hall]. destruct (Hall x); [apply elem_of_cons; by left | done].
    + rewrite IH. split.
      * intros [Hnd Hall]. split_and!; [|done|].
        -- intros Hin. apply (Hall x Hin). apply elem_of_app. right.
           by apply list_elem_of_singleton.
        -- intros y [->|Hy]%elem_of_cons; [done|].
           intros Hs. apply (Hall y Hy). apply elem_of_app. by left.
      * intros [[Hxl Hnd] Hall]. split; [done|].
        intros y Hy [Hs| ->%list_elem_of_singleton]%elem_of_app; [|done].
        apply (Hall y); [apply elem_of_cons; by right | done].
Qed.

Lemma firstSeen_nil (l : list string) : firstSeen l = [] ↔ l = [].
Proof. by destruct l. Qed.

Lemma hasDuplicateSelections_spec (m : ColumnMappings) :
  hasDuplicateSelections m = true ↔ ¬ NoDup (selections m).
Proof.
  unfold hasDuplicateSelections.
  assert (filter (λ s, truthyString s = true)
            (filter (λ s, truthyString s = true) (levels m) ++ option_list (midColumn m))
          = selections m) as ->.
  { unfold selections. rewrite !filter_app, list_filter_filter.
    f_equal; apply list_filter_iff; intros s; rewrite truthyString_ne; tauto. }
  rewrite setFromArray_firstSeen, negb_true_iff, Nat.eqb_neq,
    <- firstSeen_length_NoDup.
  split; intros H1 H2; by apply H1.
Qed.

Lemma getDuplicateAliases_spec (m : ColumnMappings) :
  getDuplicateAliases m = [] ↔ NoDup (aliases m).
Proof.
  unfold getDuplicateAliases.
  assert (filter (λ s, truthyString s = true) (values (levelAliases m)) = aliases m) as ->.
  { apply list_filter_iff. intros s. apply truthyString_ne. }
  rewrite setFromArray_firstSeen, firstSeen_nil, laterOccurrences_nil.
  split; [by intros [? _] | intros Hnd; split; [done | by intros ? _ ?%elem_of_nil]].
Qed.

Section ValidatorFacts.
Context `{RT : StringRuntime}.

(** C3, as amended: validating a mapping against an empty table returns
    (it does not throw) and gives no missing-value warning. Its only
    possible warning is the duplicate-alias warning, given exactly when
    two columns have the same non-empty alias; its errors are non-empty
    exactly when no level is selected or a column is selected more than
    once among the levels and the id column. *)
Theorem validate_empty_table (m : ColumnMappings) :
  ∃ v, validateMapping [] m = Ok v
       ∧ (errors v ≠ [] ↔ levels m = [] ∨ ¬ NoDup (selections m))
       ∧ (warnings v ≠ [] ↔ ¬ NoDup (aliases m))
       ∧ (warnings v = [] ∨
          warnings v = [duplicateAliasWarning (getDuplicateAliases m)]).
Proof.
  unfold validateMapping. simpl. eexists. split; [done|]. simpl.
  pose proof (hasDuplicateSelections_spec m) as Hsel.
  pose proof (getDuplicateAliases_spec m) as Hal.
  split_and!.
  - destruct (hasDuplicateSelections m); destruct (levels m) as [|l ls]; simpl;
      split; try done; try (intros _; right; by apply Hsel);
      try (intros _; by left).
    intros [?|Hdup]; [done|]. by apply Hsel in Hdup.
  - destruct (getDuplicateAliases m) as [|a l]; simpl.
    + split; [done|]. intros Hnd. destruct Hnd. by apply Hal.
    + split; [|done]. intros _ Hnd. by apply Hal in Hnd.
  - destruct (getDuplicateAliases m); simpl; auto.
Qed.

End ValidatorFacts.

(** C3 as stated fails: on an empty table a mapping with two different
    levels, no id column and the same alias for both levels gets the
    duplicate-alias warning (and no error). *)
Lemma validate_empty_table_warns_on_aliases :
  validateMapping (RT := AsciiRuntime.runtime) [] Scenario.mappingSameAlias
    = Ok {| errors := [];
            warnings :=
              ["Duplicate alias names may cause confusion in preview: Area."] |}
  ∧ NoDup (selections Scenario.mappingSameAlias).
Proof.
  split; [vm_compute; reflexivity|].
  vm_compute. repeat constructor; set_solver.
Qed.

(** The duplicate-selection rule is not gated on the rows either: a
    mapping record that selects [Region] twice gets its error on an empty
    table although its levels are not empty. *)
Lemma validate_empty_table_duplicate_selection :
  validateMapping (RT := AsciiRuntime.runtime) [] Scenario.mappingTwice
    = Ok {| errors := ["Duplicate headers across levels or with MID."];
            warnings := [] |}.
Proof. vm_compute. reflexivity. Qed.

(** ** The expansion controller (claims C2, C4 and C5) *)

Section ControllerFacts.
Context `{RT : StringRuntime}.

(** Clearing the query with a snapshot that holds no key emits no toggle:
    an empty snapshot is taken for no snapshot. *)
Lemma clearing_with_empty_snapshot (hierarchyData : option Node) (query : string)
    (expanded : JSObject bool) (onToggleExpanded : bool) :
  truthyString (trim query) = false →
  expansionEffect hierarchyData query expanded [] onToggleExpanded
  = {| toggles := []; savedState := [] |}.
Proof. unfold expansionEffect. by intros ->. Qed.

(** While searching, a snapshot that holds a key is kept, and one that
    holds none is replaced by the current expansion state. *)
Lemma snapshot_while_searching (hierarchyData : option Node) (query : string)
    (expanded original : JSObject bool) (onToggleExpanded : bool) :
  truthyString (trim query) = true →
  savedState (expansionEffect hierarchyData query expanded original onToggleExpanded)
  = if decide (original = []) then expanded else original.
Proof.
  unfold expansionEffect. intros ->. simpl.
  case_decide as Horig; [by subst|].
  assert (keys original ≠ []) as Hkeys.
  { unfold keys. intros Hnil%fmap_nil_inv.
    apply Horig, Permutation_nil_r. by rewrite <- Hnil, entries_Permutation. }
  by destruct (keys original).
Qed.

(** A toggle of the second loop goes to every key of the current state
    that the target lacks, whatever its current value. *)
Lemma reconcile_second_loop (current target : JSObject bool) (nodeKey : string) :
  nodeKey ∈ keys current → falsyProp target nodeKey = true →
  nodeKey ∈ reconcile current target.
Proof.
  intros Hk Hf. unfold reconcile. apply elem_of_app. right.
  by apply list_elem_of_filter.
Qed.

End ControllerFacts.

(** C2 fails on the code: from the state after mounting (no toggle, no
    query), searching "gol" in the tree of scenario A expands [root-0];
    clearing the query finds a snapshot without keys, restores nothing and
    leaves [root-0] expanded, so the expansion state is not the one from
    before the search. *)
Theorem clearing_search_keeps_auto_expansion :
  let before := initialState in
  let searching := setSearchQuery (RT := AsciiRuntime.runtime) Scenario.treeA "gol" before in
  let cleared := setSearchQuery (RT := AsciiRuntime.runtime) Scenario.treeA "" searching in
  expandedNodes before = []
  ∧ expandedNodes cleared = [("root-0", true)]
  ∧ isExpanded (expandedNodes before) "root-0" = false
  ∧ isExpanded (expandedNodes cleared) "root-0" = true.
Proof. vm_compute. done. Qed.

(** C4 fails on the code: when the state before the search holds no key,
    the snapshot taken on entering the search holds none either, and the
    next edit of the query replaces it by the expansion state of the
    search. *)
Theorem snapshot_overwritten_on_edit :
  let before := initialState in
  let searching := setSearchQuery (RT := AsciiRuntime.runtime) Scenario.treeA "gol" before in
  let edited := setSearchQuery (RT := AsciiRuntime.runtime) Scenario.treeA "gold" searching in
  originalExpandedState searching = expandedNodes before
  ∧ originalExpandedState edited = [("root-0", true)]
  ∧ originalExpandedState edited ≠ expandedNodes before.
Proof. vm_compute. done. Qed.

(** C5 fails on the code: after [root-1] was opened and closed again,
    entering the search "gol" toggles [root-1], which is collapsed and is
    not in the target, and so expands it. *)
Theorem reconciliation_toggles_collapsed_path :
  let idle := handleToggle "root-1" (handleToggle "root-1" initialState) in
  let target :=
    expandMatchingNodes (RT := AsciiRuntime.runtime) "gol"
      (filteredHierarchy (RT := AsciiRuntime.runtime) Scenario.treeA "gol") "" in
  let effect :=
    expansionEffect (RT := AsciiRuntime.runtime) Scenario.treeA "gol"
      (expandedNodes idle) (originalExpandedState idle) true in
  expandedNodes idle = [("root-1", false)]
  ∧ target = [("root-0", true)]
  ∧ isExpanded (expandedNodes idle) "root-1" = false
  ∧ isExpanded target "root-1" = false
  ∧ toggles effect = ["root-0"; "root-1"]
  ∧ isExpanded
      (expandedNodes (setSearchQuery (RT := AsciiRuntime.runtime) Scenario.treeA "gol" idle))
      "root-1" = true.
Proof. vm_compute. done. Qed.

(** The same slip without any click: on a fresh state, a search with a
    match followed by two edits without match toggles [root-0] closed and
    then open again, although its target stays collapsed. *)
Lemma reconciliation_flips_on_every_edit :
  let s1 := setSearchQuery (RT := AsciiRuntime.runtime) Scenario.treeA "gol" initialState in
  let s2 := setSearchQuery (RT := AsciiRuntime.runtime) Scenario.treeA "zzz" s1 in
  let s3 := setSearchQuery (RT := AsciiRuntime.runtime) Scenario.treeA "zzzz" s2 in
  expandedNodes s2 = [("root-0", false)] ∧ expandedNodes s3 = [("root-0", true)].
Proof. vm_compute. done. Qed.

(** The restore also fails with a snapshot that holds a key: with
    [root-1] expanded before the search, the session "gol", "zzz", clear
    ends with [root-0] expanded as well. *)
Lemma restore_misses_with_snapshot :
  let before := handleToggle "root-1" initialState in
  let s1 := setSearchQuery (RT := AsciiRuntime.runtime) Scenario.treeA "gol" before in
  let s2 := setSearchQuery (RT := AsciiRuntime.runtime) Scenario.treeA "zzz" s1 in
  let cleared := setSearchQuery (RT := AsciiRuntime.runtime) Scenario.treeA "" s2 in
  expandedNodes before = [("root-1", true)]
  ∧ originalExpandedState s2 = [("root-1", true)]
  ∧ expandedNodes cleared = [("root-1", true); ("root-0", true)]
  ∧ isExpanded (expandedNodes before) "root-0" = false
  ∧ isExpanded (expandedNodes cleared) "root-0" = true.
Proof. vm_compute. done. Qed.

(** * Further properties of the code *)

(** ** When the builder throws *)

Lemma bind_Throw {A B} (m : Result A) (f : A → Result B) (e : JSError) :
  m ≫= f = Throw e ↔ m = Throw e ∨ ∃ a, m = Ok a ∧ f a = Throw e.
Proof.
  destruct m as [a|e']; simpl; split.
  - intros H. right. eauto.
  - intros [[=]|(a' & [= <-] & H)]. done.
  - intros [= <-]. by left.
  - intros [[= <-]|(a' & [=] & _)]. done.
Qed.

Lemma mapM_Throw {A B} (f : A → Result B) (l : list A) (e : JSError) :
  mapM f l = Throw e → ∃ x, x ∈ l ∧ f x = Throw e.
Proof.
  induction l as [|x l IH]; [done|].
  change (mapM f (x :: l)) with (f x ≫= λ y, mapM f l ≫= λ k, Ok (y :: k)).
  intros [Hx|(y & _ & [Hl|(k & _ & [=])]%bind_Throw)]%bind_Throw.
  - exists x. split; [apply elem_of_cons; by left | done].
  - destruct (IH Hl) as (z & Hz & Hf). exists z.
    split; [apply elem_of_cons; by right | done].
Qed.

Lemma forEachM_Throw {A S} (f : S → A → Result S) (l : list A) (s : S) (e : JSError) :
  forEachM f l s = Throw e → ∃ s' x, x ∈ l ∧ f s' x = Throw e.
Proof.
  revert s. induction l as [|x l IH]; intros s; [done|]. simpl.
  intros [Hx|(s' & _ & Hl)]%bind_Throw.
  - exists s, x. split; [apply elem_of_cons; by left | done].
  - destruct (IH _ Hl) as (s'' & z & Hz & Hf). exists s'', z.
    split; [apply elem_of_cons; by right | done].
Qed.

Section ThrowFacts.
Context `{RT : StringRuntime}.

Lemma trimmedCell_Throw (row : Row) (column : string) (e : JSError) :
  trimmedCell row column = Throw e →
  e = TypeError ∧ row !! column = None ∧ inherited column = true.
Proof.
  unfold trimmedCell. destruct (row !! column); [done|].
  destruct (inherited column); [by intros [= <-] | done].
Qed.

Lemma pushRow_Throw (level : string) (groups : JSObject (list Row)) (row : Row)
    (e : JSError) :
  pushRow level groups row = Throw e → e = TypeError.
Proof.
  unfold pushRow, firstLevelValue.
  intros [[H|(c & _ & [=])]%bind_Throw|(key & _ & H)]%bind_Throw.
  - by apply trimmedCell_Throw in H as [-> _].
  - destruct (getProp groups key); [done | by injection H as <- | done].
Qed.

Lemma groupRowsBy_Throw (level : string) (rows : list Row) (e : JSError) :
  groupRowsBy level rows = Throw e → e = TypeError.
Proof.
  intros (groups & row & _ & H)%forEachM_Throw. by apply pushRow_Throw in H.
Qed.

Lemma collectMids_Throw (column : string) (groupRows : list Row) (e : JSError) :
  collectMids column groupRows = Throw e → e = TypeError.
Proof.
  unfold collectMids. intros [H|(cells & _ & [=])]%bind_Throw.
  apply mapM_Throw in H as (row & _ & H). by apply trimmedCell_Throw in H as [-> _].
Qed.

(** With a level to consume, the only exception of the builder is the
    [TypeError] of a lookup that lands on [Object.prototype]. *)
Lemma buildHierarchy_Throw (rows : list Row) (levels : list string)
    (mid : option string) (e : JSError) :
  levels ≠ [] → buildHierarchy rows levels mid = Throw e → e = TypeError.
Proof.
  revert rows. induction levels as [|level rest IH]; intros rows Hne; [done|].
  destruct rows as [|row rows]; [done|]. rewrite buildHierarchy_cons.
  intros [H|(groups & _ & [H|(raw & _ & [=])]%bind_Throw)]%bind_Throw.
  - by apply groupRowsBy_Throw in H.
  - apply mapM_Throw in H as ([key grs] & _ & H).
    destruct rest as [|next rest].
    + unfold nodeOfGroup in H. simpl in H. destruct (truthyOpt mid); [|done].
      apply bind_Throw in H as [H|(mids & _ & [=])]. by apply collectMids_Throw in H.
    + rewrite nodeOfGroup_cons in H.
      apply bind_Throw in H as [H|(cs & _ & [=])]. by apply (IH grs).
Qed.

(** A grouping that returns has met no key that names a member of
    [Object.prototype], and no missing cell in a column so named. *)
Lemma groupRowsBy_Ok_clean (level : string) (rows : list Row)
    (groups : JSObject (list Row)) :
  groupRowsBy level rows = Ok groups →
  ∀ row, row ∈ rows →
    (row !! level = None → inherited level = false)
    ∧ inherited (groupKey level row) = false.
Proof.
  unfold groupRowsBy. revert groups.
  induction rows as [|x rows IH] using rev_ind; intros groups;
    [by intros _ row ?%elem_of_nil|].
  rewrite forEachM_snoc. intros (groups0 & H0 & Hpush)%bind_Ok.
  pose proof (IH _ H0) as Hclean.
  destruct (groupRowsBy_spec level rows groups0 H0) as [_ Hget].
  assert ((x !! level = None → inherited level = false)
          ∧ inherited (groupKey level x) = false) as Hx.
  { unfold pushRow in Hpush. apply bind_Ok in Hpush as (key & Hkey & Hpush).
    split.
    - unfold firstLevelValue, trimmedCell in Hkey. intros Hnone. rewrite Hnone in Hkey.
      by destruct (inherited level).
    - apply firstLevelValue_Ok in Hkey as ->.
      unfold getProp in Hpush. rewrite Hget in Hpush.
      destruct (groupOf level rows (groupKey level x)) as [|r rs] eqn:Hg; simpl in Hpush.
      + by destruct (inherited (groupKey level x)).
      + assert (r ∈ groupOf level rows (groupKey level x)) as Hr
          by (rewrite Hg; apply elem_of_cons; by left).
        apply list_elem_of_filter in Hr as [Hkey Hr].
        rewrite <- Hkey. by apply Hclean. }
  intros row [Hrow| ->%list_elem_of_singleton]%elem_of_app; [by apply Hclean | done].
Qed.

Lemma collectMids_Ok_clean (column : string) (groupRows : list Row) (mids : list string) :
  collectMids column groupRows = Ok mids →
  ∀ row, row ∈ groupRows → row !! column = None → inherited column = false.
Proof.
  unfold collectMids. intros (cells & Hcells & _)%bind_Ok row Hrow Hnone.
  apply mapM_Ok in Hcells.
  destruct (Forall2_elem_of_l _ _ _ _ Hcells Hrow) as (c & _ & Hc).
  unfold trimmedCell in Hc. rewrite Hnone in Hc. by destruct (inherited column).
Qed.

Lemma buildHierarchy_Ok_buildable (rows : list Row) (levels : list string)
    (mid : option string) (nodes : list Node) :
  rows ≠ [] → buildHierarchy rows levels mid = Ok nodes →
  levels ≠ [] ∧
  ∀ row, row ∈ rows →
    (∀ column, column ∈ levels → row !! column = None → inherited column = false)
    ∧ (truthyOpt mid = true → row !! default "" mid = None →
       inherited (default "" mid) = false)
    ∧ (∀ level, level ∈ levels → inherited (groupKey level row) = false).
Proof.
  revert rows nodes. induction levels as [|level rest IH]; intros rows nodes Hne Hb.
  { destruct rows as [|row rows]; [done|]. by apply buildHierarchy_no_levels in Hb. }
  split; [done|]. destruct rows as [|row0 rows0]; [done|].
  rewrite buildHierarchy_cons in Hb. set (rows := row0 :: rows0) in *.
  apply bind_Ok in Hb as (groups & Hgroups & Hb).
  apply bind_Ok in Hb as (raw & Hraw & _). apply mapM_Ok in Hraw.
  pose proof (groupRowsBy_Ok_clean _ _ _ Hgroups) as Hclean.
  pose proof (groupRowsBy_all_keyed _ _ _ Hgroups) as Hentries.
  intros row Hrow. destruct (Hclean row Hrow) as [Hcol Hkey].
  assert ((groupKey level row, groupOf level rows (groupKey level row))
            ∈ entries groups) as He by (apply Hentries; eauto).
  destruct (Forall2_elem_of_l _ _ _ _ Hraw He) as (n & _ & Hn).
  assert (row ∈ groupOf level rows (groupKey level row)) as Hin.
  { unfold groupOf. by apply list_elem_of_filter. }
  destruct rest as [|next rest].
  - split_and!.
    + by intros column ->%list_elem_of_singleton.
    + intros Hmid. unfold nodeOfGroup in Hn. simpl in Hn. rewrite Hmid in Hn.
      apply bind_Ok in Hn as (mids & Hmids & _).
      by apply (collectMids_Ok_clean _ _ _ Hmids).
    + by intros l ->%list_elem_of_singleton.
  - rewrite nodeOfGroup_cons in Hn. apply bind_Ok in Hn as (cs & Hcs & _).
    assert (groupOf level rows (groupKey level row) ≠ []) as Hgne.
    { intros Hnil. rewrite Hnil in Hin. by apply elem_of_nil in Hin. }
    destruct (IH _ _ Hgne Hcs) as [_ Hrest].
    destruct (Hrest row Hin) as (Hcols & Hmid & Hkeys). split_and!.
    + intros column [->|Hc]%elem_of_cons; [done | by apply Hcols].
    + done.
    + intros l [->|Hl]%elem_of_cons; [done | by apply Hkeys].
Qed.

End ThrowFacts.

(** X1: the builder returns exactly on empty tables and on buildable
    inputs: with rows, it needs a level, and no lookup of a selected
    column or of a group key may land on [Object.prototype]. *)
Theorem builder_returns_iff_buildable `{RT : StringRuntime} (rows : list Row)
    (levels : list string) (mid : option string) :
  (∃ nodes, buildHierarchy rows levels mid = Ok nodes)
  ↔ rows = [] ∨ buildable rows levels mid.
Proof.
  split.
  - intros (nodes & Hb). destruct rows as [|row0 rows0]; [by left | right].
    assert (row0 :: rows0 ≠ []) as Hrows0 by done.
    destruct (buildHierarchy_Ok_buildable _ _ _ _ Hrows0 Hb) as [Hne Hrows].
    split; [done|]. intros row Hrow. destruct (Hrows row Hrow) as (Hcols & Hmid & Hkeys).
    split; [|done]. intros column [Hc|Hc]%elem_of_app; [by apply Hcols|].
    destruct mid as [m|]; [|by apply elem_of_nil in Hc].
    apply list_elem_of_singleton in Hc as ->.
    destruct m as [|a m]; [done|]. by apply Hmid.
  - intros [->|Hbuildable]; [by exists []; destruct levels|].
    by apply buildHierarchy_returns.
Qed.

Lemma memoizedHierarchyData_cons `{RT : StringRuntime} (row : Row) (rows : list Row)
    (m : ColumnMappings) (l : string) (ls : list string) :
  levels m = l :: ls →
  memoizedHierarchyData (row :: rows) m =
  buildHierarchy (row :: rows) (levels m) (midColumn m) ≫= λ hierarchyNodes,
    Ok (Some (Group "All Accounts" hierarchyNodes (totalCount hierarchyNodes))).
Proof. unfold memoizedHierarchyData. by intros ->. Qed.

(** X2: the guard of [memoizedHierarchyData] keeps the builder away from
    its unbounded recursion: with rows and no level [buildHierarchy] never
    returns a tree, while [memoizedHierarchyData] never overflows the
    stack, and gives no tree exactly when rows or levels are missing. *)
Theorem memoized_hierarchy_never_overflows `{RT : StringRuntime} (rows : list Row)
    (m : ColumnMappings) :
  (∀ mid nodes, rows ≠ [] → buildHierarchy rows [] mid ≠ Ok nodes)
  ∧ memoizedHierarchyData rows m ≠ Throw RangeError
  ∧ (memoizedHierarchyData rows m = Ok None ↔ rows = [] ∨ levels m = []).
Proof.
  split_and!.
  - intros mid nodes Hne. destruct rows as [|row rows0]; [done|].
    apply buildHierarchy_no_levels.
  - destruct rows as [|row rows0]; [done|].
    destruct (levels m) as [|l ls] eqn:Hl; [by unfold memoizedHierarchyData; rewrite Hl|].
    rewrite (memoizedHierarchyData_cons row rows0 m l ls Hl).
    intros [H|(nodes & _ & [=])]%bind_Throw.
    apply buildHierarchy_Throw in H; [done | by rewrite Hl].
  - destruct rows as [|row rows0]; [by split; [left|]|].
    destruct (levels m) as [|l ls] eqn:Hl.
    { unfold memoizedHierarchyData. rewrite Hl. by split; [right|]. }
    rewrite (memoizedHierarchyData_cons row rows0 m l ls Hl). split.
    + by intros (nodes & _ & [=])%bind_Ok.
    + by intros [|].
Qed.

(** X3: a row whose trimmed cell at a selected level is the name of a
    member of [Object.prototype] (such as [constructor]) makes the
    builder throw a [TypeError]. *)
Theorem prototype_named_cell_throws `{RT : StringRuntime} (rows : list Row)
    (levels : list string) (mid : option string) (row : Row) (level : string) :
  row ∈ rows → level ∈ levels → inherited (groupKey level row) = true →
  buildHierarchy rows levels mid = Throw TypeError.
Proof.
  intros Hrow Hlevel Hkey.
  destruct (buildHierarchy rows levels mid) as [nodes|e] eqn:Hb.
  - destruct rows as [|row0 rows0]; [by apply elem_of_nil in Hrow|].
    assert (row0 :: rows0 ≠ []) as Hrows0 by done.
    destruct (buildHierarchy_Ok_buildable _ _ _ _ Hrows0 Hb) as [_ Hrows].
    destruct (Hrows row Hrow) as (_ & _ & Hkeys). rewrite (Hkeys level Hlevel) in Hkey.
    done.
  - f_equal. apply (buildHierarchy_Throw rows levels mid); [|done].
    intros ->. by apply elem_of_nil in Hlevel.
Qed.

Lemma prototype_named_cell_throws_witness :
  buildHierarchy (RT := AsciiRuntime.runtime)
    [Scenario.record "East" "Gold" "m1"; Scenario.record "West" "constructor" "m2"]
    ["Region"; "Tier"] (Some "MID")
  = Throw TypeError.
Proof.
  apply (prototype_named_cell_throws (RT := AsciiRuntime.runtime) _ _ _
           (Scenario.record "West" "constructor" "m2") "Tier").
  - apply elem_of_cons. right. apply elem_of_cons. by left.
  - apply elem_of_cons. right. apply elem_of_cons. by left.
  - vm_compute. reflexivity.
Defined.

(** ** The shape of the built tree *)

Section ShapeFacts.
Context `{RT : StringRuntime}.

Lemma buildHierarchy_level_inv (row : Row) (rows : list Row) (level : string)
    (rest : list string) (mid : option string) (nodes : list Node) :
  buildHierarchy (row :: rows) (level :: rest) mid = Ok nodes →
  ∃ groups raw,
    groupRowsBy level (row :: rows) = Ok groups
    ∧ Forall2 (λ entry node, nodeOfGroup rest mid entry = Ok node) (entries groups) raw
    ∧ nodes = stableSort byName raw.
Proof.
  rewrite buildHierarchy_cons. intros (groups & Hgroups & Hb)%bind_Ok.
  apply bind_Ok in Hb as (raw & Hraw & [= <-]). apply mapM_Ok in Hraw. eauto.
Qed.

Lemma nodeOfGroup_name (rest : list string) (mid : option string)
    (entry : string * list Row) (node : Node) :
  nodeOfGroup rest mid entry = Ok node → name node = entry.1.
Proof.
  destruct entry as [key grs]. unfold nodeOfGroup.
  destruct (length rest =? 0).
  - destruct (truthyOpt mid); [|by intros [= <-]].
    by intros (mids & _ & [= <-])%bind_Ok.
  - by intros (cs & _ & [= <-])%bind_Ok.
Qed.

Lemma groupKey_not_empty (level : string) (row : Row) : groupKey level row ≠ "".
Proof.
  unfold groupKey. destruct (row !! level) as [v|]; [|done].
  destruct (truthyString (trim v)) eqn:Hv; [|done]. by intros Heq; rewrite Heq in Hv.
Qed.

Lemma collectMids_not_empty (column : string) (groupRows : list Row)
    (mids : list string) (id : string) :
  collectMids column groupRows = Ok mids → id ∈ mids → id ≠ "".
Proof.
  intros Hmids Hid. apply collectMids_Ok in Hmids. subst mids.
  rewrite elem_of_firstSeen in Hid.
  unfold idValues in Hid. apply list_elem_of_filter in Hid as [Hid _].
  by intros ->.
Qed.

Lemma buildHierarchy_nonempty (rows : list Row) (levels : list string)
    (mid : option string) (nodes : list Node) :
  rows ≠ [] → buildHierarchy rows levels mid = Ok nodes → nodes ≠ [].
Proof.
  intros Hne Hb. destruct rows as [|row rows]; [done|].
  destruct levels as [|level rest]; [by apply buildHierarchy_no_levels in Hb|].
  apply buildHierarchy_level_inv in Hb as (groups & raw & Hgroups & Hraw & ->).
  assert ((groupKey level row, groupOf level (row :: rows) (groupKey level row))
            ∈ entries groups) as He.
  { apply (groupRowsBy_all_keyed _ _ _ Hgroups). split; [done|].
    exists row. split; [apply elem_of_cons; by left | done]. }
  destruct (Forall2_elem_of_l _ _ _ _ Hraw He) as (n & Hn & _).
  intros Hnil. apply (elem_of_stableSort byName) in Hn. rewrite Hnil in Hn.
  by apply elem_of_nil in Hn.
Qed.

(** Induction over the levels with what the grouping gives: the nodes
    sorted into a level are at least one, with distinct non-empty names;
    a leaf has distinct non-empty identifiers, a group a non-empty level
    of children. [P] and [Q] see how many levels remain. *)
Lemma buildHierarchy_depth_ind (P : nat → list Node → Prop) (Q : nat → Node → Prop) :
  (∀ depth, P depth []) →
  (∀ depth raw, raw ≠ [] → NoDup (name <$> raw) → Forall (Q depth) raw →
     P depth (stableSort byName raw)) →
  (∀ g mids, g ≠ "" → NoDup mids → (∀ id, id ∈ mids → id ≠ "") →
     Q 1 (Leaf g mids (length mids))) →
  (∀ depth g cs, g ≠ "" → cs ≠ [] → P (S depth) cs →
     Q (S (S depth)) (Group g cs (totalCount cs))) →
  ∀ levels rows mid nodes,
    buildHierarchy rows levels mid = Ok nodes → P (length levels) nodes.
Proof.
  intros Hnil Hsort Hleaf Hgroup levels.
  induction levels as [|level rest IH]; intros [|row rows] mid nodes Hb.
  - injection Hb as <-. apply Hnil.
  - by apply buildHierarchy_no_levels in Hb.
  - injection Hb as <-. apply Hnil.
  - apply buildHierarchy_level_inv in Hb as (groups & raw & Hgroups & Hraw & ->).
    pose proof (groupRowsBy_all_keyed _ _ _ Hgroups) as Hentries.
    destruct (groupRowsBy_spec _ _ _ Hgroups) as [Hnd _].
    assert (name <$> raw = (entries groups).*1) as Hnames.
    { clear -Hraw. induction Hraw as [|e n es ns Hn _ IHr]; [done|].
      csimpl. f_equal; [by apply nodeOfGroup_name in Hn | done]. }
    apply Hsort.
    + assert ((groupKey level row, groupOf level (row :: rows) (groupKey level row))
                ∈ entries groups) as He.
      { apply Hentries. split; [done|].
        exists row. split; [apply elem_of_cons; by left | done]. }
      destruct (Forall2_elem_of_l _ _ _ _ Hraw He) as (n & Hn & _).
      intros Hnil'. rewrite Hnil' in Hn. by apply elem_of_nil in Hn.
    + rewrite Hnames. by rewrite entries_Permutation.
    + assert (∀ e, e ∈ entries groups →
                e.1 ≠ "" ∧ e.2 ≠ []) as Hkeys.
      { intros [key grs] [-> (r & Hr & <-)]%Hentries. split.
        - apply groupKey_not_empty.
        - simpl. intros Hg.
          assert (r ∈ groupOf level (row :: rows) (groupKey level r)) as Hin
            by (unfold groupOf; by apply list_elem_of_filter).
          rewrite Hg in Hin. by apply elem_of_nil in Hin. }
      clear Hnames Hentries Hnd.
      induction Hraw as [|[key grs] n es ns Hn _ IHr]; constructor.
      * destruct (Hkeys (key, grs)) as [Hkey Hgrs]; [apply elem_of_cons; by left|].
        simpl in Hkey, Hgrs. destruct rest as [|next rest].
        -- unfold nodeOfGroup in Hn. simpl in Hn. destruct (truthyOpt mid).
           ++ apply bind_Ok in Hn as (mids & Hmids & [= <-]). apply Hleaf; [done| |].
              ** rewrite (collectMids_Ok _ _ _ Hmids). apply NoDup_firstSeen.
              ** intros id. by apply (collectMids_not_empty _ _ _ _ Hmids).
           ++ injection Hn as <-. apply (Hleaf key [key]); [done|apply NoDup_singleton|].
              by intros id ->%list_elem_of_singleton.
        -- rewrite nodeOfGroup_cons in Hn. apply bind_Ok in Hn as (cs & Hcs & [= <-]).
           apply (Hgroup (length rest)); [done| |by apply (IH grs mid)].
           by apply (buildHierarchy_nonempty grs (next :: rest) mid).
      * apply IHr. intros e He. apply Hkeys. apply elem_of_cons. by right.
Qed.

End ShapeFacts.

(** X4: in the tree returned by [buildHierarchy] the names of siblings
    are pairwise distinct, at the top level and among the children of
    every group. *)
Theorem sibling_names_distinct `{RT : StringRuntime} (rows : list Row)
    (levels : list string) (mid : option string) (nodes : list Node) :
  buildHierarchy rows levels mid = Ok nodes →
  NoDup (name <$> nodes)
  ∧ ∀ n d, n ∈ nodes → d ∈ subnodes n → NoDup (name <$> children d).
Proof.
  intros Hb.
  cut (NoDup (name <$> nodes)
       ∧ Forall (λ n, ∀ d, d ∈ subnodes n → NoDup (name <$> children d)) nodes).
  { intros [Htop Hbelow]. split; [done|]. intros n d Hn Hd.
    rewrite Forall_forall in Hbelow. by apply (Hbelow n). }
  revert Hb.
  apply (buildHierarchy_depth_ind
           (λ _ ns, NoDup (name <$> ns)
                    ∧ Forall (λ n, ∀ d, d ∈ subnodes n → NoDup (name <$> children d)) ns)
           (λ _ n, ∀ d, d ∈ subnodes n → NoDup (name <$> children d))).
  - intros _. split; constructor.
  - intros _ raw _ Hnd Hraw. by rewrite !stableSort_Permutation.
  - intros g mids _ _ _ d ->%elem_of_subnodes_Leaf. constructor.
  - intros _ g cs _ _ [Hnd Hcs] d [->|(child & Hchild & Hd)]%elem_of_subnodes_Group;
      [done|].
    rewrite Forall_forall in Hcs. by apply (Hcs child).
Qed.

Lemma sibling_names_distinct_witness :
  NoDup (name <$> children Scenario.rootA).
Proof.
  refine (proj1 (sibling_names_distinct (RT := AsciiRuntime.runtime)
                   Scenario.rowsA ["Region"; "Tier"] (Some "MID")
                   (children Scenario.rootA) _)).
  vm_compute. reflexivity.
Defined.

(** X5: the tree returned for [n] levels is uniform: every leaf sits
    exactly [n] levels down, every node above the leaves is a group, and
    every group has at least one child; with rows, the tree is not
    empty. *)
Theorem leaves_at_uniform_depth `{RT : StringRuntime} (rows : list Row)
    (levels : list string) (mid : option string) (nodes : list Node) :
  buildHierarchy rows levels mid = Ok nodes →
  Forall (Uniform (length levels)) nodes ∧ (rows ≠ [] → nodes ≠ []).
Proof.
  intros Hb. split; [|intros Hne; by eapply buildHierarchy_nonempty].
  revert Hb.
  apply (buildHierarchy_depth_ind (λ depth ns, Forall (Uniform depth) ns) Uniform).
  - constructor.
  - intros depth raw _ _ Hraw. by rewrite stableSort_Permutation.
  - intros g mids _ _ _. constructor.
  - intros depth g cs _ Hne Hcs. by constructor.
Qed.

Lemma leaves_at_uniform_depth_witness :
  Forall (Uniform 2) (children Scenario.rootA)
  ∧ (Scenario.rowsA ≠ [] → children Scenario.rootA ≠ []).
Proof.
  apply (leaves_at_uniform_depth (RT := AsciiRuntime.runtime)
           Scenario.rowsA ["Region"; "Tier"] (Some "MID")).
  vm_compute. reflexivity.
Defined.

(** X6: no node of the returned tree has an empty name (a blank cell is
    named by the sentinel) and no leaf holds an empty identifier. *)
Theorem names_and_identifiers_not_empty `{RT : StringRuntime} (rows : list Row)
    (levels : list string) (mid : option string) (nodes : list Node) :
  buildHierarchy rows levels mid = Ok nodes →
  ∀ n, n ∈ nodes →
    (∀ d, d ∈ subnodes n → name d ≠ "")
    ∧ (∀ id, id ∈ subtreeIdentifiers n → id ≠ "").
Proof.
  intros Hb. apply Forall_forall. revert Hb.
  apply (buildHierarchy_depth_ind
           (λ _ ns, Forall (λ n, (∀ d, d ∈ subnodes n → name d ≠ "")
                                 ∧ (∀ id, id ∈ subtreeIdentifiers n → id ≠ "")) ns)
           (λ _ n, (∀ d, d ∈ subnodes n → name d ≠ "")
                   ∧ (∀ id, id ∈ subtreeIdentifiers n → id ≠ ""))).
  - constructor.
  - intros _ raw _ _ Hraw. by rewrite stableSort_Permutation.
  - intros g mids Hg _ Hids. split; [|done].
    by intros d ->%elem_of_subnodes_Leaf.
  - intros _ g cs Hg _ Hcs. rewrite Forall_forall in Hcs. split.
    + intros d [->|(child & Hchild & Hd)]%elem_of_subnodes_Group; [done|].
      by apply (proj1 (Hcs child Hchild)).
    + simpl. intros id (child & Hid & Hchild)%list_elem_of_bind.
      by apply (proj2 (Hcs child Hchild)).
Qed.

Lemma names_and_identifiers_not_empty_witness :
  (∀ d, d ∈ subnodes (Group "West" [Leaf "—" ["m3"] 1] 1) → name d ≠ "")
  ∧ (∀ id, id ∈ subtreeIdentifiers (Group "West" [Leaf "—" ["m3"] 1] 1) → id ≠ "").
Proof.
  apply (names_and_identifiers_not_empty (RT := AsciiRuntime.runtime)
           Scenario.rowsA ["Region"; "Tier"] (Some "MID") (children Scenario.rootA)).
  - vm_compute. reflexivity.
  - apply elem_of_cons. right. apply elem_of_cons. by left.
Defined.

(** ** Counts against the table *)

Lemma setProp_sum {V} (f : V → nat) (o : JSObject V) (k : string) (v : V) :
  sum_list_with (λ e, f e.2) (setProp o k v) + default 0 (f <$> getOwn o k)
  = sum_list_with (λ e, f e.2) o + f v.
Proof.
  induction o as [|[k0 v0] o IH]; simpl; [lia|].
  destruct (String.eqb_spec k k0) as [->|Hne]; simpl; lia.
Qed.

Lemma length_firstSeen (l : list string) : length (firstSeen l) ≤ length l.
Proof.
  induction l as [|x l IH]; simpl; [done|].
  pose proof (length_filter (λ y, y ≠ x) (firstSeen l)). lia.
Qed.

Lemma length_omap_le {A B} (f : A → option B) (l : list A) :
  length (omap f l) ≤ length l.
Proof. induction l as [|x l IH]; csimpl; [done|]. destruct (f x); simpl; lia. Qed.

Section CountBound.
Context `{RT : StringRuntime}.

(** The groups partition the rows. *)
Lemma groupRowsBy_partition (level : string) (rows : list Row)
    (groups : JSObject (list Row)) :
  groupRowsBy level rows = Ok groups →
  sum_list_with (λ e, length e.2) groups = length rows.
Proof.
  unfold groupRowsBy. revert groups.
  induction rows as [|row rows IH] using rev_ind; intros groups; [by intros [= <-]|].
  rewrite forEachM_snoc, length_app. simpl.
  intros (groups0 & H0 & Hpush)%bind_Ok. rewrite <- (IH _ H0).
  unfold pushRow in Hpush. apply bind_Ok in Hpush as (key & _ & Hpush).
  unfold getProp in Hpush.
  destruct (getOwn groups0 key) as [old|] eqn:Hget.
  - injection Hpush as <-.
    pose proof (setProp_sum (@length Row) groups0 key (old ++ [row])) as Hsum.
    rewrite Hget, length_app in Hsum. simpl in Hsum. lia.
  - destruct (inherited key); [done|]. injection Hpush as <-.
    pose proof (setProp_sum (@length Row) groups0 key [row]) as Hsum.
    rewrite Hget in Hsum. simpl in Hsum. lia.
Qed.

Lemma buildHierarchy_count_le (rows : list Row) (levels : list string)
    (mid : option string) (nodes : list Node) :
  buildHierarchy rows levels mid = Ok nodes → totalCount nodes ≤ length rows.
Proof.
  revert rows nodes. induction levels as [|level rest IH]; intros [|row rows] nodes Hb.
  - by injection Hb as <-.
  - by apply buildHierarchy_no_levels in Hb.
  - by injection Hb as <-.
  - apply buildHierarchy_level_inv in Hb as (groups & raw & Hgroups & Hraw & ->).
    rewrite totalCount_sum, stableSort_Permutation.
    rewrite <- (groupRowsBy_partition _ _ _ Hgroups), <- (entries_Permutation groups).
    pose proof (groupRowsBy_all_keyed _ _ _ Hgroups) as Hentries.
    assert (∀ e, e ∈ entries groups → e.2 ≠ []) as Hne.
    { intros [key grs] [-> (r & Hr & <-)]%Hentries. simpl. intros Hg.
      assert (r ∈ groupOf level (row :: rows) (groupKey level r)) as Hin
        by (unfold groupOf; by apply list_elem_of_filter).
      rewrite Hg in Hin. by apply elem_of_nil in Hin. }
    clear Hentries Hgroups.
    induction Hraw as [|[key grs] n es ns Hn _ IHr]; simpl; [done|].
    assert (count n ≤ length grs) as Hcount.
    { destruct rest as [|next rest].
      - unfold nodeOfGroup in Hn. simpl in Hn. destruct (truthyOpt mid).
        + apply bind_Ok in Hn as (mids & Hmids & [= <-]). simpl.
          rewrite (collectMids_Ok _ _ _ Hmids). unfold idValues.
          pose proof (length_firstSeen
            (filter (λ v, truthyString v = true)
               (omap (λ r : Row, trim <$> r !! default "" mid) grs))).
          pose proof (length_filter (λ v, truthyString v = true)
               (omap (λ r : Row, trim <$> r !! default "" mid) grs)).
          pose proof (length_omap_le (λ r : Row, trim <$> r !! default "" mid) grs).
          lia.
        + injection Hn as <-. simpl.
          specialize (Hne (key, grs) ltac:(apply elem_of_cons; by left)).
          simpl in Hne. destruct grs; [done | simpl; lia].
      - rewrite nodeOfGroup_cons in Hn. apply bind_Ok in Hn as (cs & Hcs & [= <-]).
        simpl. by apply IH. }
    assert (sum_list_with count ns ≤ sum_list_with (λ e, length e.2) es) as Hrest.
    { apply IHr. intros e He. apply Hne. apply elem_of_cons. by right. }
    lia.
Qed.

End CountBound.

(** X7: the count of the "All Accounts" root never exceeds the number of
    rows of the table, whatever the mapping. *)
Theorem root_count_at_most_rows `{RT : StringRuntime} (rows : list Row)
    (m : ColumnMappings) (root : Node) :
  memoizedHierarchyData rows m = Ok (Some root) → count root ≤ length rows.
Proof.
  intros (nodes & Hb & ->)%memoizedHierarchyData_Some.
  by apply (buildHierarchy_count_le rows (levels m) (midColumn m)).
Qed.

Lemma root_count_at_most_rows_witness : count Scenario.rootA ≤ length Scenario.rowsA.
Proof.
  apply (root_count_at_most_rows (RT := AsciiRuntime.runtime) Scenario.rowsA Scenario.mappingA).
  vm_compute. reflexivity.
Defined.

(** ** The validator on any table *)

Section ScanFacts.
Context `{RT : StringRuntime}.

Lemma countEmpty_Ok (rows : list Row) (column : string) (n : nat) :
  countEmpty rows column = Ok n → n = blankRows column rows.
Proof.
  unfold countEmpty, blankRows. intros (cells & Hcells & [= <-])%bind_Ok.
  apply mapM_Ok in Hcells.
  induction Hcells as [|row c rs cells Hc _ IH]; [done|].
  apply trimmedCell_Ok in Hc as ->. rewrite !filter_cons.
  destruct (truthyOpt (trim <$> row !! column)) eqn:Hv.
  - rewrite decide_False by (intros H; by apply H).
    rewrite decide_False by done. done.
  - rewrite !decide_True by done. simpl. by f_equal.
Qed.

Lemma scan_spec (rows : list Row) (columns : list string) (counts : JSObject nat) :
  forEachM (recordEmpty rows) columns [] = Ok counts →
  NoDup counts.*1 ∧ ∀ k, getOwn counts k = scanned rows columns k.
Proof.
  revert counts. induction columns as [|column columns IH] using rev_ind; intros counts.
  - intros [= <-]. split; [constructor|]. intros k. unfold scanned.
    rewrite decide_False; [done|]. by intros [?%elem_of_nil _].
  - rewrite forEachM_snoc. intros (counts0 & H0 & Hrec)%bind_Ok.
    destruct (IH _ H0) as [Hnd Hget]. clear IH H0.
    unfold recordEmpty in Hrec. apply bind_Ok in Hrec as (n & Hn & [= <-]).
    apply countEmpty_Ok in Hn as ->.
    assert (∀ k, k ≠ column → scanned rows (columns ++ [column]) k = scanned rows columns k)
      as Hother.
    { intros k Hk. unfold scanned. apply decide_ext.
      rewrite elem_of_app, list_elem_of_singleton. tauto. }
    destruct (0 <? blankRows column rows) eqn:Hpos.
    + apply Nat.ltb_lt in Hpos. unfold assignCount.
      destruct (String.eqb_spec column "__proto__") as [->|Hproto].
      * split; [done|]. intros k. rewrite Hget. unfold scanned. apply decide_ext.
        rewrite elem_of_app, list_elem_of_singleton. tauto.
      * split; [by apply setProp_NoDup|]. intros k. rewrite getOwn_setProp.
        case_decide as Hk; [|by rewrite Hget, Hother].
        subst k. unfold scanned. rewrite decide_True; [done|].
        split_and!; [|done..]. apply elem_of_app. right. by apply list_elem_of_singleton.
    + apply Nat.ltb_ge in Hpos. split; [done|]. intros k. rewrite Hget.
      destruct (decide (k = column)) as [->|Hk]; [|by rewrite Hother].
      unfold scanned. rewrite !decide_False; [done|intros (_&_&?); lia..].
Qed.

Lemma validateMapping_Ok_inv (rows : list Row) (m : ColumnMappings) (v : Validation) :
  validateMapping rows m = Ok v →
  errors v =
    (if decide (levels m = []) then ["Select at least one level."] else [])
    ++ (if hasDuplicateSelections m
        then ["Duplicate headers across levels or with MID."] else [])
  ∧ ∃ counts : JSObject nat,
      warnings v =
        (if decide (getDuplicateAliases m = []) then []
         else [duplicateAliasWarning (getDuplicateAliases m)])
        ++ (missingWarning <$> entries counts)
      ∧ NoDup counts.*1
      ∧ ∀ k, getOwn counts k =
             if decide (rows ≠ [] ∧ levels m ≠ [])
             then scanned rows (scannedColumns m) k else None.
Proof.
  unfold validateMapping.
  assert ((if length (levels m) =? 0 then ["Select at least one level."] else [])
          = if decide (levels m = []) then ["Select at least one level."] else [])
    as -> by (by destruct (levels m)).
  assert (∀ E : list string,
            (if hasDuplicateSelections m
             then E ++ ["Duplicate headers across levels or with MID."] else E)
            = E ++ (if hasDuplicateSelections m
                    then ["Duplicate headers across levels or with MID."] else []))
    as -> by (intros E; destruct (hasDuplicateSelections m); by rewrite ?app_nil_r).
  assert ((if 0 <? length (getDuplicateAliases m)
           then [duplicateAliasWarning (getDuplicateAliases m)] else [])
          = if decide (getDuplicateAliases m = []) then []
            else [duplicateAliasWarning (getDuplicateAliases m)])
    as -> by (by destruct (getDuplicateAliases m)).
  destruct rows as [|row rows0]; [|destruct (levels m) as [|l ls] eqn:Hl].
  - simpl. intros [= <-]. split; [done|]. exists []. simpl.
    split_and!; [by rewrite app_nil_r | constructor | done].
  - simpl. intros [= <-]. split; [done|]. exists []. simpl.
    split_and!; [by rewrite app_nil_r | constructor | done].
  - set (rows := row :: rows0) in *.
    change ((0 <? length rows) && (0 <? length (l :: ls))) with true. cbv iota.
    intros (counts1 & H1 & Hb)%bind_Ok. apply bind_Ok in Hb as (counts2 & H2 & [= <-]).
    split; [done|]. exists counts2. split; [done|].
    assert (forEachM (recordEmpty rows) (scannedColumns m) [] = Ok counts2) as Hscan.
    { unfold scannedColumns. rewrite Hl. destruct (truthyOpt (midColumn m)).
      - rewrite forEachM_snoc, H1. done.
      - rewrite app_nil_r. by injection H2 as <-. }
    destruct (scan_spec _ _ _ Hscan) as [Hnd Hget]. split; [done|].
    intros k. by rewrite decide_True.
Qed.

End ScanFacts.

(** X8: whatever the table, the errors of a validation that returns
    depend on the mapping alone: they are non-empty exactly when no level
    is selected or a non-empty column name is selected more than once
    among the levels and the id column. *)
Theorem validation_errors_depend_on_mapping `{RT : StringRuntime} (rows rows' : list Row)
    (m : ColumnMappings) (v v' : Validation) :
  validateMapping rows m = Ok v → validateMapping rows' m = Ok v' →
  errors v = errors v'
  ∧ (errors v ≠ [] ↔ levels m = [] ∨ ¬ NoDup (selections m)).
Proof.
  intros [He _]%validateMapping_Ok_inv [He' _]%validateMapping_Ok_inv.
  split; [by rewrite He, He'|]. rewrite He.
  pose proof (hasDuplicateSelections_spec m) as Hsel.
  destruct (hasDuplicateSelections m); case_decide as Hl; simpl; split;
    try done; try (intros _; by left); try (intros _; right; by apply Hsel).
  intros [?|Hdup]; [done|]. by apply Hsel in Hdup.
Qed.

Lemma validation_errors_depend_on_mapping_witness :
  [] = ([] : list string)
  ∧ (([] : list string) ≠ [] ↔
     levels Scenario.mappingA = [] ∨ ¬ NoDup (selections Scenario.mappingA)).
Proof.
  apply (validation_errors_depend_on_mapping (RT := AsciiRuntime.runtime)
           Scenario.rowsA [] Scenario.mappingA
           {| errors := []; warnings := ["1 rows missing Tier; grouped under '—'."] |}
           {| errors := []; warnings := [] |});
    vm_compute; reflexivity.
Defined.

(** X9: on a table with rows and a mapping with levels, a validation
    that returns gives, after the duplicate-alias warning if any, one
    missing-value warning for each scanned column (the levels and the id
    column) that has a blank or missing cell, and it reports exactly the
    number of rows with such a cell; a column without blank cell gets no
    warning, and neither does a column named [__proto__]. *)
Theorem missing_value_warnings_count_blank_rows `{RT : StringRuntime} (rows : list Row)
    (m : ColumnMappings) (v : Validation) :
  validateMapping rows m = Ok v → rows ≠ [] → levels m ≠ [] →
  ∃ missing : list (string * nat),
    warnings v =
      (if decide (getDuplicateAliases m = []) then []
       else [duplicateAliasWarning (getDuplicateAliases m)])
      ++ (missingWarning <$> missing)
    ∧ NoDup missing.*1
    ∧ ∀ column n, (column, n) ∈ missing ↔
        column ∈ scannedColumns m ∧ column ≠ "__proto__"
        ∧ n = blankRows column rows ∧ 0 < n.
Proof.
  intros (_ & counts & Hw & Hnd & Hget)%validateMapping_Ok_inv Hrows Hlevels.
  exists (entries counts). split; [done|].
  split; [by rewrite entries_Permutation|].
  intros column n. rewrite elem_of_entries. split.
  - intros Hin%(elem_of_getOwn _ _ _ Hnd). rewrite Hget, decide_True in Hin by done.
    unfold scanned in Hin. case_decide as Hc; [|done]. injection Hin as <-. tauto.
  - intros (Hc & Hp & -> & Hpos). apply getOwn_Some_elem_of.
    rewrite Hget, decide_True by done. unfold scanned. by rewrite decide_True.
Qed.

Lemma missing_value_warnings_count_blank_rows_witness :
  ∃ missing : list (string * nat),
    ["1 rows missing Tier; grouped under '—'."] =
      (if decide (getDuplicateAliases Scenario.mappingA = []) then []
       else [duplicateAliasWarning (getDuplicateAliases Scenario.mappingA)])
      ++ (missingWarning <$> missing)
    ∧ NoDup missing.*1
    ∧ ∀ column n, (column, n) ∈ missing ↔
        column ∈ scannedColumns Scenario.mappingA ∧ column ≠ "__proto__"
        ∧ n = blankRows (RT := AsciiRuntime.runtime) column Scenario.rowsA ∧ 0 < n.
Proof.
  apply (missing_value_warnings_count_blank_rows (RT := AsciiRuntime.runtime)
           Scenario.rowsA Scenario.mappingA
           {| errors := []; warnings := ["1 rows missing Tier; grouped under '—'."] |}).
  - vm_compute. reflexivity.
  - discriminate.
  - discriminate.
Defined.

(** ** The selection and alias rules *)

Lemma occurrences_cons (x y : string) (l : list string) :
  occurrences x (y :: l) = (if decide (y = x) then 1 else 0) + occurrences x l.
Proof. unfold occurrences. rewrite filter_cons. by case_decide. Qed.

Lemma occurrences_app (x : string) (l k : list string) :
  occurrences x (l ++ k) = occurrences x l + occurrences x k.
Proof. unfold occurrences. by rewrite filter_app, length_app. Qed.

Lemma occurrences_pos (x : string) (l : list string) : 0 < occurrences x l ↔ x ∈ l.
Proof.
  induction l as [|y l IH].
  { split; [unfold occurrences; simpl; lia | by intros ?%elem_of_nil]. }
  rewrite occurrences_cons, elem_of_cons. case_decide; [subst|]; split.
  - by left.
  - lia.
  - intros Hpos. right. apply IH. lia.
  - intros [?|?]; [by subst|]. assert (0 < occurrences x l) by (by apply IH). lia.
Qed.

Lemma NoDup_occurrences (l : list string) : NoDup l ↔ ∀ x, occurrences x l ≤ 1.
Proof.
  induction l as [|y l IH].
  - split; [intros _ x; unfold occurrences; simpl; lia | constructor].
  - rewrite NoDup_cons, IH. split.
    + intros [Hy Hl] x. rewrite occurrences_cons. case_decide; [subst|by rewrite Hl].
      assert (¬ 0 < occurrences x l) by (by rewrite occurrences_pos). lia.
    + intros Hocc. split.
      * intros Hy%occurrences_pos. specialize (Hocc y).
        rewrite occurrences_cons, decide_True in Hocc by done. lia.
      * intros x. specialize (Hocc x). rewrite occurrences_cons in Hocc. lia.
Qed.

Lemma not_NoDup_occurrences (l : list string) :
  ¬ NoDup l ↔ ∃ x, 2 ≤ occurrences x l.
Proof.
  split.
  - induction l as [|y l IH]; [intros H; destruct H; constructor|].
    intros Hnd. destruct (decide (y ∈ l)) as [Hy|Hy].
    + exists y. apply occurrences_pos in Hy.
      rewrite occurrences_cons, decide_True by done. lia.
    + destruct IH as (x & Hx); [by intros Hl; apply Hnd; constructor|].
      exists x. rewrite occurrences_cons. lia.
  - intros (x & Hx) Hnd. pose proof (proj1 (NoDup_occurrences l) Hnd x). lia.
Qed.

Lemma occurrences_filter_ne (x : string) (l : list string) :
  x ≠ "" → occurrences x (filter (λ s, s ≠ "") l) = occurrences x l.
Proof.
  intros Hx. unfold occurrences. rewrite list_filter_filter. f_equal.
  apply list_filter_iff. intros y. split; [tauto|]. by intros ->.
Qed.

Lemma elem_of_filter_ne (x : string) (l : list string) :
  0 < occurrences x (filter (λ s, s ≠ "") l) → x ≠ "".
Proof. intros [? _]%occurrences_pos%list_elem_of_filter. done. Qed.

Lemma duplicate_iff_occurs_twice (l : list string) :
  ¬ NoDup (filter (λ s, s ≠ "") l) ↔ ∃ x, x ≠ "" ∧ 2 ≤ occurrences x l.
Proof.
  rewrite not_NoDup_occurrences. split.
  - intros (x & Hx). assert (x ≠ "") by (apply (elem_of_filter_ne x l); lia).
    exists x. split; [done|]. by rewrite <- occurrences_filter_ne.
  - intros (x & Hne & Hx). exists x. by rewrite occurrences_filter_ne.
Qed.

(** X10: [hasDuplicateSelections] holds exactly when some non-empty
    column name occurs at least twice among the levels and the id column
    (levels still unselected never count), and it holds whenever
    [isMidColumnInLevels] does. *)
Theorem duplicate_selection_rule (m : ColumnMappings) :
  (hasDuplicateSelections m = true ↔
   ∃ column, column ≠ ""
             ∧ 2 ≤ occurrences column (levels m ++ option_list (midColumn m)))
  ∧ (isMidColumnInLevels m = true → hasDuplicateSelections m = true).
Proof.
  assert (hasDuplicateSelections m = true ↔
          ∃ column, column ≠ ""
             ∧ 2 ≤ occurrences column (levels m ++ option_list (midColumn m))) as Hdup.
  { rewrite hasDuplicateSelections_spec. apply duplicate_iff_occurs_twice. }
  split; [done|]. unfold isMidColumnInLevels.
  intros [Hmid Hin%bool_decide_eq_true]%andb_true_iff. apply Hdup.
  destruct (midColumn m) as [column|]; [|done]. simpl in *.
  exists column. split; [by apply truthyString_ne|].
  rewrite occurrences_app. apply occurrences_pos in Hin.
  assert (occurrences column [column] = 1) as ->; [|lia].
  by rewrite occurrences_cons, decide_True.
Qed.

Lemma laterOccurrences_elem_of (x : string) (seen l : list string) :
  x ∈ laterOccurrences seen l ↔ x ∈ l ∧ (x ∈ seen ∨ 2 ≤ occurrences x l).
Proof.
  revert seen. induction l as [|y l IH]; intros seen; simpl.
  - split; [by intros ?%elem_of_nil | by intros [?%elem_of_nil _]].
  - rewrite elem_of_app, IH, elem_of_app, list_elem_of_singleton, elem_of_cons,
      occurrences_cons.
    pose proof (occurrences_pos x l) as Hpos.
    destruct (decide (y = x)) as [->|Hne].
    + case_bool_decide as Hseen.
      * rewrite list_elem_of_singleton. split; [tauto|]. intros _. by left.
      * split.
        -- intros [?%elem_of_nil|[Hl _]]; [done|]. split; [by right|].
           right. apply Hpos in Hl. lia.
        -- intros [_ [?|Htwice]]; [done|]. right. split; [|by left; right].
           apply Hpos. lia.
    + assert (x ∈ (if bool_decide (y ∈ seen) then [y] else []) ↔ False) as ->.
      { case_bool_decide; [rewrite list_elem_of_singleton | rewrite elem_of_nil];
          naive_solver. }
      simpl. split.
      * intros [[]|[Hl [[?|?]|?]]]; [tauto| congruence | tauto].
      * intros [[?|Hl] Hor]; [congruence|]. right. tauto.
Qed.

(** X11: [getDuplicateAliases] lists, each once, exactly the non-empty
    aliases carried by at least two entries of [levelAliases]. *)
Theorem duplicate_aliases_listed_once (m : ColumnMappings) :
  NoDup (getDuplicateAliases m)
  ∧ ∀ alias, alias ∈ getDuplicateAliases m ↔
      alias ≠ "" ∧ 2 ≤ occurrences alias (values (levelAliases m)).
Proof.
  unfold getDuplicateAliases.
  assert (filter (λ s, truthyString s = true) (values (levelAliases m)) = aliases m) as ->.
  { apply list_filter_iff. intros s. apply truthyString_ne. }
  rewrite setFromArray_firstSeen. split; [apply NoDup_firstSeen|].
  intros alias. rewrite elem_of_firstSeen, laterOccurrences_elem_of. unfold aliases.
  split.
  - intros [[Hne _]%list_elem_of_filter [?%elem_of_nil|Htwice]]; [done|].
    split; [done|]. by rewrite <- occurrences_filter_ne.
  - intros [Hne Htwice]. rewrite occurrences_filter_ne by done. split; [|by right].
    apply list_elem_of_filter. split; [done|]. apply occurrences_pos. lia.
Qed.

(** ** The mapping setters *)

Lemma imap_replace (index : nat) (value : string) (l : list string) :
  imap (λ i level, if i =? index then value else level) l = <[index:=value]> l.
Proof.
  apply list_eq. intros j. rewrite list_lookup_imap.
  destruct (decide (j = index)) as [->|Hne].
  - destruct (decide (index < length l)) as [Hlt|Hge].
    + rewrite list_lookup_insert_eq by done.
      destruct (lookup_lt_is_Some_2 l index Hlt) as (x & ->). simpl.
      by rewrite Nat.eqb_refl.
    + rewrite list_insert_ge by lia. by rewrite lookup_ge_None_2 by lia.
  - rewrite list_lookup_insert_ne by done. destruct (l !! j); simpl; [|done].
    by rewrite (proj2 (Nat.eqb_neq j index)).
Qed.

Lemma imap_offset_snd (k : nat) (l : list string) :
  (imap (λ i x, (i + k, x)) l).*2 = l.
Proof.
  revert k. induction l as [|x l IH]; intros k; [done|].
  rewrite imap_cons. csimpl. f_equal.
  rewrite <- (IH (S k)) at 2. f_equal. apply imap_ext. intros i y _. simpl. f_equal. lia.
Qed.

Lemma filter_remove_index (k index : nat) (l : list string) :
  (filter (λ e : nat * string, e.1 ≠ index + k) (imap (λ i x, (i + k, x)) l)).*2
  = delete index l.
Proof.
  revert k index. induction l as [|x l IH]; intros k index; [done|].
  rewrite imap_cons, filter_cons. simpl.
  assert (imap ((λ i x0, (i + k, x0)) ∘ S) l = imap (λ i x0, (i + S k, x0)) l) as ->.
  { apply imap_ext. intros i y _. simpl. f_equal. lia. }
  destruct index as [|index].
  - rewrite decide_False by lia. simpl.
    rewrite filter_all; [apply imap_offset_snd|].
    intros [j y] (i & z & [= -> ->] & _)%elem_of_lookup_imap_1. simpl. lia.
  - rewrite decide_True by lia. csimpl. f_equal. rewrite <- (IH (S k) index). f_equal.
    apply list_filter_iff. intros e. lia.
Qed.

Lemma removeLevel_delete (index : nat) (m : ColumnMappings) :
  levels (removeLevel index m) = delete index (levels m).
Proof.
  simpl. rewrite <- (filter_remove_index 0 index (levels m)). f_equal.
  assert (imap pair (levels m) = imap (λ i x, (i + 0, x)) (levels m)) as ->.
  { apply imap_ext. intros i y _. f_equal. lia. }
  apply list_filter_iff. intros e. lia.
Qed.

(** X12: [updateLevel] replaces the level at the given position and
    [removeLevel] deletes it, the other levels keeping their order; both
    leave the mapping as it is when the position is out of range, and
    removing the level that [addLevel] appended gives the mapping back. *)
Theorem level_setters_edit_one_position (index : nat) (value : string)
    (m : ColumnMappings) :
  levels (updateLevel index value m) = <[index:=value]> (levels m)
  ∧ levels (removeLevel index m) = delete index (levels m)
  ∧ (length (levels m) ≤ index →
     updateLevel index value m = m ∧ removeLevel index m = m)
  ∧ removeLevel (length (levels m)) (addLevel m) = m.
Proof.
  split_and!.
  - apply imap_replace.
  - apply removeLevel_delete.
  - intros Hge. destruct m as [ls mid als].
    split; unfold updateLevel, removeLevel; f_equal.
    + simpl in *. rewrite imap_replace. by apply list_insert_ge.
    + change (levels (removeLevel index {| levels := ls; midColumn := mid;
                                            levelAliases := als |}) = ls).
      rewrite removeLevel_delete. simpl in *.
      rewrite delete_take_drop, take_ge, drop_ge by lia. by rewrite app_nil_r.
  - destruct m as [ls mid als]. unfold removeLevel. f_equal.
    change (levels (removeLevel (length ls)
              (addLevel {| levels := ls; midColumn := mid; levelAliases := als |})) = ls).
    rewrite removeLevel_delete. simpl. by rewrite delete_middle, app_nil_r.
Qed.

Lemma selections_occurrences (m : ColumnMappings) :
  hasDuplicateSelections m = false ↔
  ∀ column, column ≠ "" →
    occurrences column (levels m ++ option_list (midColumn m)) ≤ 1.
Proof.
  rewrite <- not_true_iff_false, hasDuplicateSelections_spec. unfold selections. split.
  - intros Hnd column Hne. rewrite <- occurrences_filter_ne by done.
    apply NoDup_occurrences. by apply dec_stable.
  - intros Hocc Hdup. apply duplicate_iff_occurs_twice in Hdup as (x & Hne & Hx).
    specialize (Hocc x Hne). lia.
Qed.

Lemma occurrences_insert (x value : string) (l : list string) (index : nat) :
  (value = x → ∀ j y, l !! j = Some y → j ≠ index → y ≠ value) →
  occurrences x (<[index:=value]> l)
  ≤ (if decide (value = x) then 1 else occurrences x l).
Proof.
  intros Hother. destruct (decide (index < length l)) as [Hlt|Hge].
  - destruct (lookup_lt_is_Some_2 l index Hlt) as (y & Hy).
    assert (occurrences x l = occurrences x (take index l)
              + ((if decide (y = x) then 1 else 0) + occurrences x (drop (S index) l)))
      as Hl.
    { rewrite <- (take_drop_middle l index y Hy) at 1.
      by rewrite occurrences_app, occurrences_cons. }
    rewrite insert_take_drop by done.
    rewrite occurrences_app, occurrences_cons, Hl. clear Hl.
    destruct (decide (value = x)) as [Hv|Hv]; [|destruct (decide (y = x)); lia].
    assert (occurrences x (take index l) = 0) as ->.
    { destruct (decide (0 < occurrences x (take index l))) as [Hpos|]; [|lia].
      apply occurrences_pos, list_elem_of_lookup in Hpos as (j & Hj).
      apply lookup_take_Some in Hj as [Hj Hlt'].
      destruct (Hother Hv j x Hj); [lia | done]. }
    assert (occurrences x (drop (S index) l) = 0) as ->.
    { destruct (decide (0 < occurrences x (drop (S index) l))) as [Hpos|]; [|lia].
      apply occurrences_pos, list_elem_of_lookup in Hpos as (j & Hj).
      rewrite lookup_drop in Hj.
      destruct (Hother Hv (S index + j) x Hj); [lia | done]. }
    lia.
  - rewrite list_insert_ge by lia. destruct (decide (value = x)) as [Hv|Hv]; [|done].
    destruct (decide (0 < occurrences x l)) as [Hpos|]; [|lia].
    apply occurrences_pos, list_elem_of_lookup in Hpos as (j & Hj).
    apply lookup_lt_Some in Hj as Hlt.
    destruct (Hother Hv j x Hj); [lia | done].
Qed.

Lemma availableColumns_spec (columns : list string) (m : ColumnMappings) (index : nat)
    (value : string) :
  value ∈ availableColumns columns m index →
  (∀ j y, levels m !! j = Some y → j ≠ index → y ≠ value)
  ∧ midColumn m ≠ Some value.
Proof.
  unfold availableColumns.
  intros [[Hother Hmid%negb_true_iff]%andb_true_iff _]%list_elem_of_filter.
  apply negb_true_iff in Hother. split.
  - intros j y Hj Hne ->.
    assert (existsb (λ entry : nat * string,
              negb (entry.1 =? index) && String.eqb entry.2 value)
              (imap pair (levels m)) = true) as Hex; [|congruence].
    apply existsb_elem_of. exists (j, value). split.
    + by apply elem_of_lookup_imap_2 with (i := j).
    + simpl. rewrite String.eqb_refl, (proj2 (Nat.eqb_neq j index)) by done. done.
  - by apply bool_decide_eq_false in Hmid.
Qed.

(** X13: the selects cannot create a duplicate selection. From a mapping
    without duplicate, choosing for a level one of the options offered
    for it ([availableColumns]) or clearing the level, and choosing as id
    column one of its options (the columns that are no level) or clearing
    it, give a mapping without duplicate; so does [addLevel]. *)
Theorem select_options_keep_selections_distinct (columns : list string)
    (m : ColumnMappings) (index : nat) (value : string) :
  hasDuplicateSelections m = false →
  (value ∈ availableColumns columns m index ∨ value = "" →
   hasDuplicateSelections (updateLevel index value m) = false)
  ∧ (value ∈ midColumnOptions columns m ∨ value = "" →
     hasDuplicateSelections (handleColumnMappingChange (ChangeMidColumn value) m) = false)
  ∧ hasDuplicateSelections (addLevel m) = false.
Proof.
  intros Hm. pose proof (proj1 (selections_occurrences m) Hm) as Hocc. split_and!.
  - intros Hvalue. apply selections_occurrences. intros column Hne. simpl.
    rewrite imap_replace, occurrences_app.
    specialize (Hocc column Hne). rewrite occurrences_app in Hocc.
    pose proof (occurrences_insert column value (levels m) index) as Hins.
    destruct (decide (value = column)) as [->|Hv]; [|specialize (Hins ltac:(done)); lia].
    destruct Hvalue as [Hav| ->]; [|done].
    apply availableColumns_spec in Hav as [Hother Hmid].
    specialize (Hins (λ _, Hother)).
    assert (occurrences column (option_list (midColumn m)) = 0) as ->; [|lia].
    destruct (midColumn m) as [c|]; [|done]. simpl.
    rewrite occurrences_cons, decide_False; [done | congruence].
  - intros Hvalue. apply selections_occurrences. intros column Hne. simpl.
    rewrite occurrences_app. specialize (Hocc column Hne).
    rewrite occurrences_app in Hocc.
    destruct (truthyString value) eqn:Htruthy; simpl; [|unfold occurrences at 2; simpl; lia].
    rewrite occurrences_cons. case_decide as Hv; [subst column|unfold occurrences at 2; simpl; lia].
    destruct Hvalue as [[Hnot _]%list_elem_of_filter| ->]; [|done].
    assert (occurrences value (levels m) = 0) as ->; [|unfold occurrences; simpl; lia].
    destruct (decide (0 < occurrences value (levels m))) as [Hpos|]; [|lia].
    by apply occurrences_pos in Hpos.
  - apply selections_occurrences. intros column Hne. simpl.
    specialize (Hocc column Hne).
    rewrite !occurrences_app in *. rewrite occurrences_cons, decide_False by done.
    unfold occurrences at 2. simpl. lia.
Qed.

Lemma select_options_keep_selections_distinct_witness :
  ("Tier" ∈ availableColumns ["Region"; "Tier"; "MID"] Scenario.mappingA 1 ∨ "Tier" = "" →
   hasDuplicateSelections (updateLevel 1 "Tier" Scenario.mappingA) = false)
  ∧ ("Tier" ∈ midColumnOptions ["Region"; "Tier"; "MID"] Scenario.mappingA ∨ "Tier" = "" →
     hasDuplicateSelections
       (handleColumnMappingChange (ChangeMidColumn "Tier") Scenario.mappingA) = false)
  ∧ hasDuplicateSelections (addLevel Scenario.mappingA) = false.
Proof.
  apply (select_options_keep_selections_distinct ["Region"; "Tier"; "MID"]
           Scenario.mappingA 1 "Tier").
  vm_compute. reflexivity.
Defined.

(** X14: setting an alias and reading the label back: after
    [updateLevelAlias] the label of that name is the alias, or the name
    itself when the alias is empty, and the label of every other name is
    what it was. *)
Theorem alias_round_trip (m : ColumnMappings) (levelName alias other : string) :
  getDisplayLabel (levelAliases (updateLevelAlias levelName alias m)) levelName
    = LabelText (if truthyString alias then alias else levelName)
  ∧ (other ≠ levelName →
     getDisplayLabel (levelAliases (updateLevelAlias levelName alias m)) other
     = getDisplayLabel (levelAliases m) other).
Proof.
  unfold getDisplayLabel, getProp. simpl. rewrite !getOwn_setProp. split.
  - by rewrite decide_True.
  - intros Hne. by rewrite decide_False.
Qed.

Lemma alias_round_trip_witness :
  getDisplayLabel (levelAliases (updateLevelAlias "Region" "Area" Scenario.mappingA))
    "Tier"
  = getDisplayLabel (levelAliases Scenario.mappingA) "Tier".
Proof.
  apply (alias_round_trip Scenario.mappingA "Region" "Area" "Tier"). discriminate.
Defined.

(** ** The expansion state *)

Lemma falsyProp_setProp (s : JSObject bool) (k k' : string) (b : bool) :
  falsyProp (setProp s k b) k' = if decide (k' = k) then negb b else falsyProp s k'.
Proof.
  unfold falsyProp, getProp. rewrite getOwn_setProp. by case_decide.
Qed.

Lemma isExpanded_toggle (s : JSObject bool) (k k' : string) :
  isExpanded (toggleExpanded s k) k'
  = if decide (k' = k) then negb (isExpanded s k) else isExpanded s k'.
Proof.
  unfold isExpanded, toggleExpanded. rewrite falsyProp_setProp.
  case_decide; [|done]. unfold falsyProp. by destruct (getProp s k) as [[]| |].
Qed.

(** X15: a toggle flips what [isExpanded] shows for its path and for no
    other path, and removes no key; two toggles of a path restore what
    every path shows, while the path stays as a key of the object. *)
Theorem toggle_flips_one_path (s : JSObject bool) (k k' : string) :
  isExpanded (toggleExpanded s k) k'
    = (if decide (k' = k) then negb (isExpanded s k) else isExpanded s k')
  ∧ isExpanded (toggleExpanded (toggleExpanded s k) k) k' = isExpanded s k'
  ∧ (k' ∈ s.*1 → k' ∈ (toggleExpanded s k).*1)
  ∧ k ∈ (toggleExpanded (toggleExpanded s k) k).*1.
Proof.
  split_and!.
  - apply isExpanded_toggle.
  - rewrite !isExpanded_toggle. destruct (decide (k' = k)) as [->|Hne]; [|done].
    rewrite decide_True by done. apply negb_involutive.
  - unfold toggleExpanded. rewrite setProp_keys. case_decide; [done|].
    intros Hk. apply elem_of_app. by left.
  - unfold toggleExpanded. rewrite !setProp_keys.
    repeat case_decide; try done; apply elem_of_app; right;
      by apply list_elem_of_singleton.
Qed.

Lemma toggle_flips_one_path_witness :
  "root-0" ∈ (toggleExpanded [("root-0", true)] "root-1").*1.
Proof.
  apply (toggle_flips_one_path [("root-0", true)] "root-1" "root-0").
  apply list_elem_of_singleton. reflexivity.
Defined.

(** ** The Generate button and the auto-detected mapping *)

(** X16: when the Generate button is enabled, the validation that
    [handleGenerateVisualization] runs finds no error: if it returns, it
    clears the error message. Without rows or levels it leaves the error
    message as it is. *)
Theorem enabled_generate_finds_no_error `{RT : StringRuntime} (rows : list Row)
    (m : ColumnMappings) (error : string) :
  (generateDisabled rows m = false →
   ∀ error', handleGenerateVisualization rows m error = Ok error' → error' = "")
  ∧ (rows = [] ∨ levels m = [] →
     handleGenerateVisualization rows m error = Ok error).
Proof.
  unfold handleGenerateVisualization, generateDisabled. split.
  - intros Henabled error'.
    apply orb_false_iff in Henabled as [Henabled _].
    apply orb_false_iff in Henabled as [Henabled Hdup].
    rewrite Henabled. apply orb_false_iff in Henabled as [_ Hlevels].
    intros (v & Hv & Hres)%bind_Ok.
    apply validateMapping_Ok_inv in Hv as [Herr _].
    rewrite Hdup, decide_False in Herr by (by destruct (levels m)).
    rewrite Herr in Hres. simpl in Hres. by injection Hres as <-.
  - intros [->| ->]; [done|]. by rewrite orb_true_r.
Qed.

Lemma enabled_generate_finds_no_error_witness :
  generateDisabled Scenario.rowsA Scenario.mappingA = false
  ∧ ∀ error',
      handleGenerateVisualization (RT := AsciiRuntime.runtime)
        Scenario.rowsA Scenario.mappingA "Please upload a CSV file" = Ok error' →
      error' = "".
Proof.
  split; [reflexivity|].
  apply (enabled_generate_finds_no_error (RT := AsciiRuntime.runtime)
           Scenario.rowsA Scenario.mappingA "Please upload a CSV file").
  reflexivity.
Defined.

Lemma buildHierarchy_names_NoDup `{RT : StringRuntime} (rows : list Row)
    (levels : list string) (mid : option string) (nodes : list Node) :
  buildHierarchy rows levels mid = Ok nodes → NoDup (name <$> nodes).
Proof.
  apply (buildHierarchy_depth_ind (λ _ ns, NoDup (name <$> ns)) (λ _ _, True)).
  - intros _. constructor.
  - intros _ raw _ Hnd _. by rewrite stableSort_Permutation.
  - done.
  - done.
Qed.

(** X17: the mapping [autoDetectColumns] sets after an upload has the
    first column as only level, no duplicate selection and no alias; the
    tree built from it is flat: exactly one leaf for each group key of
    that column (the leaves have pairwise distinct names, and there are
    as many as distinct keys), carrying the key as only identifier and
    count 1, under a root whose count is the number of these leaves. *)
Theorem auto_detected_mapping_gives_flat_tree `{RT : StringRuntime} (column : string)
    (columns : list string) (rows : list Row) (root : Node) :
  memoizedHierarchyData rows (autoDetectColumns (column :: columns) rows)
    = Ok (Some root) →
  hasDuplicateSelections (autoDetectColumns (column :: columns) rows) = false
  ∧ getDuplicateAliases (autoDetectColumns (column :: columns) rows) = []
  ∧ NoDup (name <$> children root)
  ∧ (∀ n, n ∈ children root ↔
       ∃ row, row ∈ rows
              ∧ n = Leaf (groupKey column row) [groupKey column row] 1)
  ∧ length (children root)
    = length (remove_dups ((λ row, groupKey column row) <$> rows))
  ∧ count root = length (children root).
Proof.
  intros (nodes & Hb & ->)%memoizedHierarchyData_Some.
  change (buildHierarchy rows [column] None = Ok nodes) in Hb.
  pose proof (buildHierarchy_last_level _ _ _ _ Hb) as Hleaves.
  change (∀ n, n ∈ nodes ↔
            ∃ row, row ∈ rows
                   ∧ n = Leaf (groupKey column row) [groupKey column row] 1)
    in Hleaves.
  pose proof (buildHierarchy_names_NoDup _ _ _ _ Hb) as Hnd.
  split_and!.
  - by destruct column.
  - done.
  - done.
  - done.
  - simpl. rewrite <- (length_fmap name nodes).
    apply Permutation_length, NoDup_Permutation; [done | apply NoDup_remove_dups|].
    intros nm. rewrite elem_of_remove_dups, !list_elem_of_fmap. split.
    + intros (n & -> & (row & Hrow & ->)%Hleaves). eauto.
    + intros (row & -> & Hrow).
      exists (Leaf (groupKey column row) [groupKey column row] 1).
      split; [done|]. apply Hleaves. eauto.
  - simpl. rewrite totalCount_sum.
    assert (Forall (λ n, count n = 1) nodes) as Hone.
    { apply Forall_forall. by intros n (row & _ & ->)%Hleaves. }
    clear -Hone. induction Hone as [|n ns Hn _ IH]; simpl; [done|]. lia.
Qed.

Lemma auto_detected_mapping_gives_flat_tree_witness :
  hasDuplicateSelections (autoDetectColumns ["Region"; "Tier"; "MID"] Scenario.rowsA) = false
  ∧ getDuplicateAliases (autoDetectColumns ["Region"; "Tier"; "MID"] Scenario.rowsA) = []
  ∧ NoDup (name <$> children (Group "All Accounts"
                                [Leaf "East" ["East"] 1; Leaf "West" ["West"] 1] 2))
  ∧ (∀ n, n ∈ children (Group "All Accounts"
                          [Leaf "East" ["East"] 1; Leaf "West" ["West"] 1] 2) ↔
       ∃ row, row ∈ Scenario.rowsA
              ∧ n = Leaf (groupKey (RT := AsciiRuntime.runtime) "Region" row)
                         [groupKey (RT := AsciiRuntime.runtime) "Region" row] 1)
  ∧ length (children (Group "All Accounts"
                        [Leaf "East" ["East"] 1; Leaf "West" ["West"] 1] 2))
    = length (remove_dups
                ((λ row, groupKey (RT := AsciiRuntime.runtime) "Region" row)
                   <$> Scenario.rowsA))
  ∧ count (Group "All Accounts" [Leaf "East" ["East"] 1; Leaf "West" ["West"] 1] 2)
    = length (children (Group "All Accounts"
                          [Leaf "East" ["East"] 1; Leaf "West" ["West"] 1] 2)).
Proof.
  apply (auto_detected_mapping_gives_flat_tree (RT := AsciiRuntime.runtime)
           "Region" ["Tier"; "MID"] Scenario.rowsA).
  vm_compute. reflexivity.
Defined.

(** ** The search filter *)

Section FilterMore.
Context `{RT : StringRuntime}.
Variable query : string.

Lemma keptByFilter_matches (node : Node) :
  keptByFilter query node = nodeMatchesSearch node query.
Proof.
  induction node as [nm mids c|nm cs c IH] using Node_nested_ind;
    rewrite keptByFilter_unfold.
  - change (isGroup (Leaf nm mids c)) with false.
    by rewrite andb_false_l, orb_false_r.
  - change (isGroup (Group nm cs c)) with true.
    change (children (Group nm cs c)) with cs. rewrite andb_true_l.
    destruct (nodeMatchesSearch (Group nm cs c) query) eqn:Hm; [done|].
    rewrite orb_false_l.
    destruct (0 <? length (filterHierarchy cs query)) eqn:Hlen; [|done].
    apply filterHierarchy_survivor in Hlen as (child & Hchild & Hkept).
    rewrite Forall_forall in IH. rewrite (IH child Hchild) in Hkept.
    rewrite nodeMatchesSearch_unfold in Hm.
    apply orb_false_iff in Hm as [_ Hm]. rewrite <- Hm. symmetry.
    apply existsb_elem_of. eauto.
Qed.

Lemma filterHierarchy_matching (nodes : list Node) :
  filterHierarchy nodes query =
  rebuilt query <$> filter (λ n, nodeMatchesSearch n query = true) nodes.
Proof.
  rewrite filterHierarchy_eq. f_equal. apply list_filter_iff.
  intros n. by rewrite keptByFilter_matches.
Qed.

Lemma nodeMatchesSearch_rebuilt (node : Node) :
  nodeMatchesSearch (rebuilt query node) query = nodeMatchesSearch node query.
Proof.
  induction node as [nm mids c|nm cs c IH] using Node_nested_ind; [done|].
  rewrite rebuilt_Group, !(nodeMatchesSearch_unfold _ (Group _ _ _)). simpl.
  f_equal. apply Bool.eq_iff_eq_true. rewrite !existsb_elem_of.
  rewrite Forall_forall in IH. rewrite filterHierarchy_matching. split.
  - intros (child' & Hin & Hm).
    apply list_elem_of_fmap in Hin as (child & -> & [_ Hchild]%list_elem_of_filter).
    exists child. split; [done|]. by rewrite <- IH.
  - intros (child & Hchild & Hm). exists (rebuilt query child). split.
    + apply list_elem_of_fmap. exists child. split; [done|].
      by apply list_elem_of_filter.
    + by rewrite IH.
Qed.

Lemma subnodes_rebuilt_match (node d : Node) :
  nodeMatchesSearch node query = true → d ∈ subnodes (rebuilt query node) →
  nodeMatchesSearch d query = true.
Proof.
  revert d. induction node as [nm mids c|nm cs c IH] using Node_nested_ind;
    intros d Hm.
  - by intros ->%elem_of_subnodes_Leaf.
  - rewrite rebuilt_Group.
    intros [->|(child' & Hchild' & Hd)]%elem_of_subnodes_Group.
    + by rewrite <- rebuilt_Group, nodeMatchesSearch_rebuilt.
    + rewrite filterHierarchy_matching in Hchild'.
      apply list_elem_of_fmap in Hchild'
        as (child & -> & [Hcm Hchild]%list_elem_of_filter).
      rewrite Forall_forall in IH. by apply (IH child Hchild).
Qed.

Lemma filterHierarchy_idem_list (nodes : list Node) :
  Forall (λ n, rebuilt query (rebuilt query n) = rebuilt query n) nodes →
  filterHierarchy (filterHierarchy nodes query) query = filterHierarchy nodes query.
Proof.
  rewrite !filterHierarchy_matching.
  induction 1 as [|n nodes Hn _ IH]; [done|].
  rewrite filter_cons. case_decide as Hm; [|done].
  rewrite fmap_cons, filter_cons, decide_True
    by (by rewrite nodeMatchesSearch_rebuilt).
  by rewrite fmap_cons, Hn, IH.
Qed.

Lemma rebuilt_idem (node : Node) :
  rebuilt query (rebuilt query node) = rebuilt query node.
Proof.
  induction node as [nm mids c|nm cs c IH] using Node_nested_ind; [done|].
  by rewrite !rebuilt_Group, filterHierarchy_idem_list.
Qed.

End FilterMore.

(** X18: the filter keeps exactly the nodes that [nodeMatchesSearch]
    accepts, so its test of the filtered children never adds a node;
    every node of the filtered tree, at any depth, matches the query;
    the filtered list is empty exactly when no node of the list matches. *)
Theorem filter_keeps_exactly_matching_nodes `{RT : StringRuntime} (query : string)
    (nodes : list Node) :
  (∀ node, keptByFilter query node = nodeMatchesSearch node query)
  ∧ (∀ d, d ∈ filterHierarchy nodes query ≫= subnodes →
          nodeMatchesSearch d query = true)
  ∧ (filterHierarchy nodes query = [] ↔
     ∀ n, n ∈ nodes → nodeMatchesSearch n query = false).
Proof.
  split_and!.
  - apply keptByFilter_matches.
  - intros d (n' & Hd & Hn')%list_elem_of_bind.
    rewrite filterHierarchy_matching in Hn'.
    apply list_elem_of_fmap in Hn' as (n & -> & [Hm _]%list_elem_of_filter).
    by apply (subnodes_rebuilt_match query n).
  - pose proof (filterHierarchy_survivor query nodes) as Hs.
    rewrite Nat.ltb_lt in Hs. split.
    + intros Hnil n Hn. destruct (nodeMatchesSearch n query) eqn:Hm; [|done].
      rewrite Hnil in Hs. simpl in Hs.
      assert (0 < 0) as Hlt; [|lia].
      apply Hs. exists n. by rewrite keptByFilter_matches.
    + intros Hnone. destruct (filterHierarchy nodes query) as [|g l]; [done|].
      destruct (proj1 Hs) as (n & Hn & Hkept); [simpl; lia|].
      rewrite keptByFilter_matches, (Hnone n Hn) in Hkept. done.
Qed.

(** X19: filtering is idempotent: a filtered list filtered again by the
    same query is unchanged, since a rebuilt node matches exactly when
    the node it was rebuilt from does. *)
Theorem filter_is_idempotent `{RT : StringRuntime} (query : string)
    (nodes : list Node) :
  filterHierarchy (filterHierarchy nodes query) query = filterHierarchy nodes query
  ∧ (∀ node, nodeMatchesSearch (rebuilt query node) query
             = nodeMatchesSearch node query).
Proof.
  split; [|apply nodeMatchesSearch_rebuilt].
  apply filterHierarchy_idem_list, Forall_forall. intros n _. apply rebuilt_idem.
Qed.

(** ** The expansion effect while searching *)

Lemma isExpanded_untouched (l : list string) (s : JSObject bool) (k : string) :
  k ∉ l → isExpanded (fold_left toggleExpanded l s) k = isExpanded s k.
Proof.
  revert s. induction l as [|x l IH]; intros s Hk; simpl; [done|].
  apply not_elem_of_cons in Hk as [Hne Hk].
  by rewrite IH, isExpanded_toggle, decide_False.
Qed.

Lemma isExpanded_toggled_once (l : list string) (s : JSObject bool) (k : string) :
  NoDup l → k ∈ l →
  isExpanded (fold_left toggleExpanded l s) k = negb (isExpanded s k).
Proof.
  intros Hnd. revert s. induction Hnd as [|x l Hx _ IH]; intros s Hk; simpl.
  - by apply elem_of_nil in Hk.
  - apply elem_of_cons in Hk as [->|Hk].
    + by rewrite isExpanded_untouched, isExpanded_toggle, decide_True.
    + rewrite IH, isExpanded_toggle by done.
      rewrite decide_False; [done|]. by intros ->.
Qed.

Lemma keys_Permutation {V} (o : JSObject V) : keys o ≡ₚ o.*1.
Proof. unfold keys. by rewrite entries_Permutation. Qed.

(** The target of the effect: its keys are the paths collected, without
    repetition, and each holds [true]. *)
Lemma target_keys (l : list string) (o : JSObject bool) (k : string) :
  k ∈ (fold_left (λ acc nodeKey, setProp acc nodeKey true) l o).*1
  ↔ k ∈ l ∨ k ∈ o.*1.
Proof.
  revert o. induction l as [|x l IH]; intros o; simpl.
  - split; [by right | by intros [?%elem_of_nil|]].
  - rewrite IH, setProp_keys, elem_of_cons.
    case_decide; rewrite ?elem_of_app, ?list_elem_of_singleton; naive_solver.
Qed.

Lemma target_NoDup (l : list string) (o : JSObject bool) :
  NoDup o.*1 → NoDup (fold_left (λ acc nodeKey, setProp acc nodeKey true) l o).*1.
Proof.
  revert o. induction l as [|x l IH]; intros o Hnd; simpl; [done|].
  by apply IH, setProp_NoDup.
Qed.

Lemma target_values (l : list string) (o : JSObject bool) (k : string) :
  (∀ k', k' ∈ o.*1 → getOwn o k' = Some true) →
  k ∈ (fold_left (λ acc nodeKey, setProp acc nodeKey true) l o).*1 →
  getOwn (fold_left (λ acc nodeKey, setProp acc nodeKey true) l o) k = Some true.
Proof.
  revert o. induction l as [|x l IH]; intros o Ho; simpl; [apply Ho|].
  apply IH. intros k'. rewrite getOwn_setProp, setProp_keys.
  destruct (decide (k' = x)) as [->|Hne]; [done|].
  case_decide; rewrite ?elem_of_app, ?list_elem_of_singleton; naive_solver.
Qed.

(** When the difference test finds nothing, the current state has the
    keys of the target, with the same values. *)
Lemma isDifferent_false (current target : JSObject bool) :
  isDifferent current target = false →
  sortedKeys current = sortedKeys target
  ∧ ∀ k, k ∈ keys current → getProp current k = getProp target k.
Proof.
  unfold isDifferent. intros Hd.
  apply orb_false_iff in Hd as [Hd Hvalues].
  apply orb_false_iff in Hd as [Hlen Hkeys].
  apply negb_false_iff, Nat.eqb_eq in Hlen. split.
  - apply (list_eq_same_length _ _ (length (sortedKeys target))); [done..|].
    intros i x y _ Hx Hy.
    assert (existsb (λ '(index, key),
                negb (bool_decide (sortedKeys target !! index = Some key)))
              (imap pair (sortedKeys current)) ≠ true) as Hno by (by rewrite Hkeys).
    destruct (decide (x = y)) as [|Hne]; [done|]. exfalso. apply Hno.
    apply existsb_elem_of. exists (i, x). split.
    + by apply (elem_of_lookup_imap_2 pair).
    + apply negb_true_iff, bool_decide_eq_false. rewrite Hy. by intros [= ->].
  - intros k Hk.
    assert (k ∈ sortedKeys current) as Hin.
    { unfold sortedKeys. by rewrite stableSort_Permutation. }
    destruct (strictNe (getProp current k) (getProp target k)) eqn:Hne.
    + assert (existsb (λ key, strictNe (getProp current key) (getProp target key))
                (sortedKeys current) = true) as Hex; [|by rewrite Hex in Hvalues].
      apply existsb_elem_of. eauto.
    + destruct (getProp current k) as [[]| |], (getProp target k) as [[]| |];
        done.
Qed.

Lemma isDifferent_false_keys (current target : JSObject bool) (k : string) :
  isDifferent current target = false → k ∈ current.*1 ↔ k ∈ target.*1.
Proof.
  intros [Hkeys _]%isDifferent_false.
  rewrite <- !keys_Permutation.
  rewrite <- (stableSort_Permutation String.leb (keys current)).
  rewrite <- (stableSort_Permutation String.leb (keys target)).
  unfold sortedKeys in Hkeys. by rewrite Hkeys.
Qed.

(** After [reconcile], every key that the target holds with [true] is
    expanded. *)
Lemma reconcile_expands_target (current target : JSObject bool) (k : string) :
  NoDup target.*1 → k ∈ keys target → getOwn target k = Some true →
  isExpanded
    (fold_left toggleExpanded
       (if isDifferent current target then reconcile current target else [])
       current) k = true.
Proof.
  intros Hnd Hk Hv.
  assert (falsyProp target k = false) as Hft.
  { unfold falsyProp, getProp. by rewrite Hv. }
  destruct (isDifferent current target) eqn:Hd.
  - unfold reconcile. rewrite fold_left_app, isExpanded_untouched.
    2:{ intros [Hf _]%list_elem_of_filter. by rewrite Hft in Hf. }
    destruct (falsyProp current k) eqn:Hfc.
    + rewrite isExpanded_toggled_once.
      * unfold isExpanded. by rewrite Hfc.
      * apply NoDup_filter. by rewrite keys_Permutation.
      * by apply list_elem_of_filter.
    + rewrite isExpanded_untouched.
      * unfold isExpanded. by rewrite Hfc.
      * intros [Hf _]%list_elem_of_filter. by rewrite Hfc in Hf.
  - simpl.
    assert (k ∈ keys current) as Hkc.
    { rewrite keys_Permutation in Hk |- *.
      by apply (isDifferent_false_keys current target). }
    apply isDifferent_false in Hd as [_ Hvalues].
    unfold isExpanded, falsyProp. rewrite (Hvalues k Hkc). unfold getProp.
    by rewrite Hv.
Qed.

Section ExpansionFacts.
Context `{RT : StringRuntime}.
Variable query : string.

Lemma expandMatchingNode_Group (nm : string) (cs : list Node) (c : nat)
    (nodeKey : string) :
  expandMatchingNode query (Group nm cs c) nodeKey =
  if 0 <? length cs then
    (if nodeMatchesSearch (Group nm cs c) query then [nodeKey] else [])
    ++ expandMatchingNodesFrom query cs nodeKey 0
  else [].
Proof.
  change (expandMatchingNode query (Group nm cs c) nodeKey) with
    (if 0 <? length cs then
       (if nodeMatchesSearch (Group nm cs c) query then [nodeKey] else [])
       ++ (fix forEach (nodes : list Node) (index : nat) : list string :=
             match nodes with
             | [] => []
             | child :: rest =>
                 expandMatchingNode query child (childKey nodeKey index)
                 ++ forEach rest (S index)
             end) cs 0
     else []).
  destruct (0 <? length cs); [|done]. f_equal.
  generalize 0. induction cs as [|child cs IH]; intros index; simpl; [done|].
  by rewrite IH.
Qed.

Lemma expandMatchingNodesFrom_lookup (nodes : list Node) (path : string)
    (start index : nat) (node : Node) (k : string) :
  nodes !! index = Some node →
  k ∈ expandMatchingNode query node (childKey path (start + index)) →
  k ∈ expandMatchingNodesFrom query nodes path start.
Proof.
  revert start index. induction nodes as [|n nodes IH]; intros start index; [done|].
  simpl. rewrite elem_of_app. destruct index as [|index]; simpl.
  - intros [= ->]. rewrite Nat.add_0_r. by left.
  - intros Hn Hk. right. apply (IH (S start) index); [done|].
    by replace (S start + index) with (start + S index) by lia.
Qed.

(** The effect collects the path of every matching group that has
    children. *)
Lemma expandMatchingNodesFrom_nodeAt (indices : list nat) (index : nat)
    (nodes : list Node) (path : string) (g : Node) :
  nodeAt nodes (index :: indices) = Some g → children g ≠ [] →
  nodeMatchesSearch g query = true →
  fold_left childKey indices (childKey path index)
    ∈ expandMatchingNodesFrom query nodes path 0.
Proof.
  revert index nodes path.
  induction indices as [|next indices IH]; intros index nodes path; simpl.
  - destruct (nodes !! index) as [node|] eqn:Hnode; [|done].
    intros [= ->] Hcs Hm. apply (expandMatchingNodesFrom_lookup _ _ _ _ _ _ Hnode).
    destruct g as [nm mids c|nm cs c]; [done|]. simpl in Hcs.
    rewrite expandMatchingNode_Group, Hm.
    destruct cs; [done|]. simpl. apply elem_of_cons. by left.
  - destruct (nodes !! index) as [node|] eqn:Hnode; [|done].
    intros Hg Hcs Hm. apply (expandMatchingNodesFrom_lookup _ _ _ _ _ _ Hnode).
    destruct node as [nm mids c|nm cs c]; [done|].
    change (children (Group nm cs c)) with cs in Hg.
    rewrite expandMatchingNode_Group.
    destruct cs as [|child cs]; [done|].
    change (0 <? length (child :: cs)) with true. cbv iota.
    apply elem_of_app. right. by apply IH.
Qed.

Lemma nodeAt_subnodes (indices : list nat) (nodes : list Node) (g : Node) :
  nodeAt nodes indices = Some g → g ∈ nodes ≫= subnodes.
Proof.
  revert nodes. induction indices as [|index indices IH]; intros nodes; [done|].
  simpl. destruct (nodes !! index) as [node|] eqn:Hnode; [|done].
  apply list_elem_of_lookup_2 in Hnode. intros Hg.
  apply list_elem_of_bind. exists node. split; [|done].
  destruct indices as [|next indices].
  - injection Hg as ->. apply subnodes_self.
  - apply IH in Hg. destruct node as [nm mids c|nm cs c].
    + by apply elem_of_nil in Hg.
    + apply elem_of_cons. by right.
Qed.

Lemma filtered_subnodes_match (nodes : list Node) (d : Node) :
  d ∈ filterHierarchy nodes query ≫= subnodes → nodeMatchesSearch d query = true.
Proof.
  intros (n' & Hd & Hn')%list_elem_of_bind.
  rewrite filterHierarchy_matching in Hn'.
  apply list_elem_of_fmap in Hn' as (n & -> & [Hm _]%list_elem_of_filter).
  by apply (subnodes_rebuilt_match query n).
Qed.

End ExpansionFacts.

(** The key of a rendered [TreeNode] is the key the effect computes for
    the node at the same indices. *)
Lemma treeNodeBelow_childKey (indices : list nat) (node g : Node)
    (path nodeKey : string) :
  truthyString path = true →
  treeNodeBelow node path indices = Some (g, nodeKey) →
  match indices with
  | [] => Some node
  | _ :: _ => nodeAt (children node) indices
  end = Some g
  ∧ nodeKey = fold_left childKey indices path.
Proof.
  revert node path. induction indices as [|index rest IH]; intros node path Hpath.
  - simpl. unfold treeNodeKey. rewrite Hpath. by intros [= -> ->].
  - destruct node as [nm mids c|nm cs c]; [done|].
    change (treeNodeBelow (Group nm cs c) path (index :: rest))
      with (match cs !! index with
            | Some child =>
                treeNodeBelow child
                  (treeNodeKey (Group nm cs c) path +:+ "-" +:+ numberToString index)
                  rest
            | None => None
            end).
    unfold treeNodeKey. rewrite Hpath.
    change (nodeAt (children (Group nm cs c)) (index :: rest))
      with (match cs !! index with
            | Some child =>
                match rest with
                | [] => Some child
                | _ :: _ => nodeAt (children child) rest
                end
            | None => None
            end).
    destruct (cs !! index) as [child|]; [|done].
    assert (childKey path index = path +:+ "-" +:+ numberToString index) as Hkey.
    { unfold childKey. by rewrite Hpath. }
    intros Hbelow. apply IH in Hbelow as [Hg Hfold].
    + split; [done|].
      change (fold_left childKey (index :: rest) path)
        with (fold_left childKey rest (childKey path index)).
      by rewrite Hkey.
    + destruct path as [|a path]; [done|]. by rewrite append_String.
Qed.

Lemma renderedTreeNode_childKey (nodes : list Node) (indices : list nat)
    (g : Node) (nodeKey : string) :
  renderedTreeNode nodes indices = Some (g, nodeKey) →
  nodeAt nodes indices = Some g
  ∧ ∃ index rest, indices = index :: rest
                  ∧ nodeKey = fold_left childKey rest (childKey "" index).
Proof.
  destruct indices as [|index rest]; [done|]. simpl.
  destruct (nodes !! index) as [node|]; [|done].
  intros [Hg ->]%treeNodeBelow_childKey; [|done]. split; [|by eauto].
  by destruct rest.
Qed.

(** X20: after a non-blank query is typed, every group of the filtered
    tree that has children is expanded, at any depth, under the
    [nodeKey] of the [TreeNode] rendered for it, whatever the expansion
    state was before: the keys the effect computes are the keys the
    components look up. *)
Theorem search_expands_every_shown_group `{RT : StringRuntime}
    (hierarchyData : option Node) (query : string) (st : State)
    (indices : list nat) (g : Node) (nodeKey : string) :
  truthyString (trim query) = true →
  query ≠ searchQuery st →
  renderedTreeNode (filteredHierarchy hierarchyData query) indices = Some (g, nodeKey) →
  children g ≠ [] →
  isExpanded (expandedNodes (setSearchQuery hierarchyData query st)) nodeKey = true.
Proof.
  intros Hq Hne Hrendered Hcs. unfold setSearchQuery.
  destruct (String.eqb_spec query (searchQuery st)) as [|_]; [done|].
  unfold expansionEffect. rewrite Hq. simpl. rewrite andb_true_r.
  apply renderedTreeNode_childKey in Hrendered as (Hg & index & rest & -> & ->).
  set (target := expandMatchingNodes query (filteredHierarchy hierarchyData query) "").
  assert (fold_left childKey rest (childKey "" index) ∈ target.*1) as Hin.
  { apply target_keys. left.
    apply (expandMatchingNodesFrom_nodeAt query _ _ _ _ g); [done..|].
    apply nodeAt_subnodes in Hg.
    destruct hierarchyData as [[nm mids c|nm cs c]|];
      [by apply elem_of_nil in Hg| |by apply elem_of_nil in Hg].
    by apply (filtered_subnodes_match query cs). }
  apply reconcile_expands_target.
  - apply target_NoDup. constructor.
  - by rewrite keys_Permutation.
  - apply target_values; [by intros k' ?%elem_of_nil | done].
Qed.

Lemma search_expands_every_shown_group_witness :
  isExpanded
    (expandedNodes
       (setSearchQuery (RT := AsciiRuntime.runtime) Scenario.treeA "gol" initialState))
    "root-0" = true.
Proof.
  apply (search_expands_every_shown_group (RT := AsciiRuntime.runtime)
           Scenario.treeA "gol" initialState [0]
           (Group "East" [Leaf "Gold" ["m1"; "m2"] 2] 2) "root-0");
    [reflexivity | discriminate | vm_compute; reflexivity | discriminate].
Defined.

(** ** A search that is cleared *)

Lemma getOwn_not_own {V} (o : JSObject V) (k : string) :
  k ∉ o.*1 → getOwn o k = None.
Proof.
  induction o as [|[k0 v0] o IH]; csimpl; [done|].
  intros [Hne Hk]%not_elem_of_cons.
  destruct (String.eqb_spec k k0); [done | by apply IH].
Qed.

Lemma isExpanded_not_own (o : JSObject bool) (k : string) :
  k ∉ o.*1 → isExpanded o k = inherited k.
Proof.
  intros Hk. unfold isExpanded, falsyProp, getProp.
  rewrite getOwn_not_own by done. by destruct (inherited k).
Qed.

Lemma isExpanded_fold (l : list string) (s : JSObject bool) (k : string) :
  NoDup l →
  isExpanded (fold_left toggleExpanded l s) k
  = xorb (isExpanded s k) (bool_decide (k ∈ l)).
Proof.
  intros Hnd. case_bool_decide as Hk.
  - rewrite isExpanded_toggled_once by done. by destruct (isExpanded s k).
  - rewrite isExpanded_untouched by done. by destruct (isExpanded s k).
Qed.

Lemma toggled_keys (l : list string) (s : JSObject bool) (k : string) :
  k ∈ (fold_left toggleExpanded l s).*1 ↔ k ∈ s.*1 ∨ k ∈ l.
Proof.
  revert s. induction l as [|x l IH]; intros s; simpl.
  - split; [by left | by intros [|?%elem_of_nil]].
  - unfold toggleExpanded at 2. rewrite IH, setProp_keys, elem_of_cons.
    case_decide; rewrite ?elem_of_app, ?list_elem_of_singleton; naive_solver.
Qed.

Lemma toggled_NoDup (l : list string) (s : JSObject bool) :
  NoDup s.*1 → NoDup (fold_left toggleExpanded l s).*1.
Proof.
  revert s. induction l as [|x l IH]; intros s Hnd; simpl; [done|].
  by apply IH, setProp_NoDup.
Qed.

Lemma in_filter_falsy (o : JSObject bool) (l : list string) (k : string) :
  bool_decide (k ∈ filter (λ nodeKey, falsyProp o nodeKey = true) l)
  = negb (isExpanded o k) && bool_decide (k ∈ l).
Proof.
  unfold isExpanded. rewrite negb_involutive.
  apply Bool.eq_iff_eq_true.
  rewrite andb_true_iff, !bool_decide_eq_true, list_elem_of_filter. done.
Qed.

(** What [reconcile] leaves of a path: a key of the target is tested
    against the current state, a key of the current state against the
    target. *)
Lemma isExpanded_reconcile (current target : JSObject bool) (k : string) :
  NoDup current.*1 → NoDup target.*1 →
  isExpanded (fold_left toggleExpanded (reconcile current target) current) k
  = xorb (xorb (isExpanded current k)
               (negb (isExpanded current k) && bool_decide (k ∈ target.*1)))
         (negb (isExpanded target k) && bool_decide (k ∈ current.*1)).
Proof.
  intros Hc Ht. unfold reconcile.
  rewrite fold_left_app, !isExpanded_fold, !in_filter_falsy
    by (apply NoDup_filter; by rewrite keys_Permutation).
  do 2 f_equal; f_equal; apply bool_decide_ext; by rewrite keys_Permutation.
Qed.

Lemma reconcile_keys (current target : JSObject bool) (k : string) :
  k ∈ reconcile current target → k ∈ current.*1 ∨ k ∈ target.*1.
Proof.
  unfold reconcile.
  intros [[_ Hk]%list_elem_of_filter|[_ Hk]%list_elem_of_filter]%elem_of_app;
    rewrite keys_Permutation in Hk; auto.
Qed.

(** A search from a state that holds a key, followed by clearing: every
    path shows what it showed before the search. The target holds [true]
    under keys that are no members of [Object.prototype]. *)
Lemma restore_after_search (e0 target : JSObject bool) (k : string) :
  NoDup e0.*1 → NoDup target.*1 →
  (∀ k', k' ∈ target.*1 → getOwn target k' = Some true ∧ inherited k' = false) →
  let e1 := fold_left toggleExpanded
              (if isDifferent e0 target then reconcile e0 target else []) e0 in
  isExpanded
    (fold_left toggleExpanded (if isDifferent e1 e0 then reconcile e1 e0 else []) e1) k
  = isExpanded e0 k.
Proof.
  intros Hnd0 HndT Htarget e1.
  assert (NoDup e1.*1) as Hnd1 by (by apply toggled_NoDup).
  assert (k ∈ e0.*1 → k ∈ e1.*1) as Hsub.
  { intros Hk. apply toggled_keys. by left. }
  assert (k ∈ e1.*1 → k ∉ e0.*1 →
          isExpanded e1 k = true ∧ isExpanded e0 k = false) as Hnew.
  { intros Hk1 Hk0. apply toggled_keys in Hk1 as [|Hk1]; [done|].
    subst e1. destruct (isDifferent e0 target); [|by apply elem_of_nil in Hk1].
    apply reconcile_keys in Hk1 as [|HkT]; [done|].
    destruct (Htarget k HkT) as [Hv Hinh].
    rewrite isExpanded_reconcile by done.
    rewrite (isExpanded_not_own e0) by done. rewrite Hinh.
    rewrite (bool_decide_eq_true_2 _ HkT), (bool_decide_eq_false_2 _ Hk0).
    by rewrite andb_false_r. }
  destruct (isDifferent e1 e0) eqn:Hd.
  - rewrite isExpanded_reconcile by done.
    destruct (decide (k ∈ e0.*1)) as [Hk0|Hk0].
    + rewrite (bool_decide_eq_true_2 _ Hk0), (bool_decide_eq_true_2 _ (Hsub Hk0)).
      by destruct (isExpanded e1 k), (isExpanded e0 k).
    + rewrite (bool_decide_eq_false_2 _ Hk0).
      destruct (decide (k ∈ e1.*1)) as [Hk1|Hk1].
      * destruct (Hnew Hk1 Hk0) as [-> ->].
        by rewrite (bool_decide_eq_true_2 _ Hk1).
      * rewrite (bool_decide_eq_false_2 _ Hk1), !andb_false_r.
        rewrite (isExpanded_not_own e1), (isExpanded_not_own e0) by done.
        by destruct (inherited k).
  - simpl. destruct (decide (k ∈ e1.*1)) as [Hk1|Hk1].
    + apply isDifferent_false in Hd as [_ Hvalues].
      unfold isExpanded, falsyProp. rewrite Hvalues; [done|].
      by rewrite keys_Permutation.
    + rewrite (isExpanded_not_own e1), (isExpanded_not_own e0); [done| |done].
      by rewrite <- (isDifferent_false_keys e1 e0).
Qed.

Section PathFacts.
Context `{RT : StringRuntime}.
Variable query : string.

Lemma childKey_rooted (path : string) (index : nat) :
  path = "" ∨ (∃ s, path = "root-" +:+ s) →
  ∃ s, childKey path index = "root-" +:+ s.
Proof.
  unfold childKey. intros [->|(s & ->)]; simpl; eauto.
Qed.

Lemma expandMatchingNodesFrom_Forall (P : string → Prop) (nodes : list Node)
    (path : string) (start : nat) :
  Forall (λ node, ∀ index nodeKey,
            nodeKey ∈ expandMatchingNode query node (childKey path index) → P nodeKey)
         nodes →
  ∀ nodeKey, nodeKey ∈ expandMatchingNodesFrom query nodes path start → P nodeKey.
Proof.
  intros Hall. revert start.
  induction Hall as [|node nodes Hnode _ IH]; intros start nodeKey; simpl.
  - by intros ?%elem_of_nil.
  - intros [Hk|Hk]%elem_of_app; [by apply (Hnode start) | by apply (IH (S start))].
Qed.

Lemma expandMatchingNode_rooted (node : Node) (path nodeKey : string) :
  (∃ s, path = "root-" +:+ s) →
  nodeKey ∈ expandMatchingNode query node path → ∃ s, nodeKey = "root-" +:+ s.
Proof.
  revert path nodeKey.
  induction node as [nm mids c|nm cs c IH] using Node_nested_ind;
    intros path nodeKey Hpath.
  - by intros ?%elem_of_nil.
  - rewrite expandMatchingNode_Group.
    destruct (0 <? length cs); [|by intros ?%elem_of_nil].
    intros [Hk|Hk]%elem_of_app.
    + destruct (nodeMatchesSearch _ _); [|by apply elem_of_nil in Hk].
      by apply list_elem_of_singleton in Hk as ->.
    + revert nodeKey Hk. apply expandMatchingNodesFrom_Forall.
      eapply Forall_impl; [exact IH|]. intros child Hchild index nodeKey.
      apply Hchild, childKey_rooted. by right.
Qed.

Lemma expandMatchingNodes_rooted (nodes : list Node) (nodeKey : string) :
  nodeKey ∈ (expandMatchingNodes query nodes "").*1 →
  inherited nodeKey = false.
Proof.
  unfold expandMatchingNodes. intros [Hk|Hk]%target_keys;
    [|by apply elem_of_nil in Hk].
  assert (∃ s, nodeKey = "root-" +:+ s) as (s & ->).
  { revert nodeKey Hk. apply expandMatchingNodesFrom_Forall.
    apply Forall_forall. intros node _ index nodeKey.
    apply expandMatchingNode_rooted, childKey_rooted. by left. }
  apply bool_decide_eq_false. unfold objectPrototypeKeys.
  rewrite !elem_of_cons, elem_of_nil. simpl. naive_solver.
Qed.

End PathFacts.

(** X21: a search typed into an idle component whose expansion state
    holds at least one key, and then cleared: every path shows what it
    showed before the search, and no snapshot is left. *)
Theorem search_then_clear_restores `{RT : StringRuntime}
    (hierarchyData : option Node) (query cleared : string) (st : State) :
  NoDup (expandedNodes st).*1 →
  expandedNodes st ≠ [] →
  originalExpandedState st = [] →
  query ≠ searchQuery st → truthyString (trim query) = true →
  cleared ≠ query → truthyString (trim cleared) = false →
  (∀ k, isExpanded
          (expandedNodes
             (setSearchQuery hierarchyData cleared
                (setSearchQuery hierarchyData query st))) k
        = isExpanded (expandedNodes st) k)
  ∧ originalExpandedState
      (setSearchQuery hierarchyData cleared (setSearchQuery hierarchyData query st))
    = [].
Proof.
  intros Hnd Hne Horig Hq Htyped Hc Hblank.
  set (target := expandMatchingNodes query (filteredHierarchy hierarchyData query) "").
  assert (setSearchQuery hierarchyData query st =
          {| expandedNodes :=
               fold_left toggleExpanded
                 (if isDifferent (expandedNodes st) target
                  then reconcile (expandedNodes st) target else [])
                 (expandedNodes st);
             searchQuery := query;
             originalExpandedState := expandedNodes st |}) as ->.
  { unfold setSearchQuery.
    destruct (String.eqb_spec query (searchQuery st)) as [|_]; [done|].
    unfold expansionEffect. rewrite Htyped, Horig. simpl. by rewrite andb_true_r. }
  unfold setSearchQuery. simpl.
  destruct (String.eqb_spec cleared query) as [|_]; [done|].
  unfold expansionEffect. rewrite Hblank. simpl. split; [|done].
  assert ((0 <? length (keys (expandedNodes st))) = true) as ->.
  { apply Nat.ltb_lt. rewrite keys_Permutation, length_fmap.
    destruct (expandedNodes st); [done | simpl; lia]. }
  simpl. intros k. apply restore_after_search; [done| |].
  - apply target_NoDup. constructor.
  - intros k' Hk'. split.
    + apply target_values; [by intros ? ?%elem_of_nil | done].
    + by apply (expandMatchingNodes_rooted query (filteredHierarchy hierarchyData query)).
Qed.

Lemma search_then_clear_restores_witness :
  (∀ k, isExpanded
          (expandedNodes
             (setSearchQuery (RT := AsciiRuntime.runtime) Scenario.treeA ""
                (setSearchQuery (RT := AsciiRuntime.runtime) Scenario.treeA "gol"
                   {| expandedNodes := [("root-1", true)]; searchQuery := "";
                      originalExpandedState := [] |}))) k
        = isExpanded [("root-1", true)] k)
  ∧ originalExpandedState
      (setSearchQuery (RT := AsciiRuntime.runtime) Scenario.treeA ""
         (setSearchQuery (RT := AsciiRuntime.runtime) Scenario.treeA "gol"
            {| expandedNodes := [("root-1", true)]; searchQuery := "";
               originalExpandedState := [] |}))
    = [].
Proof.
  apply (search_then_clear_restores (RT := AsciiRuntime.runtime) Scenario.treeA
           "gol" ""
           {| expandedNodes := [("root-1", true)]; searchQuery := "";
              originalExpandedState := [] |});
    [apply NoDup_singleton | discriminate | reflexivity | discriminate
    | reflexivity | discriminate | reflexivity].
Defined.
